(** * Relational-chain trainer: geometry, level generator, progression
    state machine and analytics of [RelationalChain.tsx]
    (component [VectorFramePersistent]), with the earlier component
    [VectorFrameUnbreakable] kept apart in [Module Legacy].

    Conventions of the embedding.
    - A TypeScript [number] that only ever holds integers (levels, counters,
      grid coordinates, rotations) is a [Z]; one that can hold a fraction
      (timer, multiplier, score before flooring, stability) is a rational
      [Q].  Stability, score and multiplier as the handlers produce them
      from the initial state are multiples of 1/2 below 2^53, exact in an
      IEEE double.
    - Where the rounding of double arithmetic shows in a result, the
      operation is rounded as the double operation is: the sum of the
      rotation and the angle offset in [getVector] and the sum inside
      [safeMod] with [roundInteger], the decrement of the timer and the two
      percentages with [roundDouble] (round to nearest, ties to even, 53
      bits, subnormals included; overflow to infinity is outside the model).
      The remainder [%] of two doubles is exact.
    - [Math.random()] is an oracle [nat -> Q] read through a cursor; the
      cursor advances once per call, in the order the source makes the calls
      (short-circuited calls are not made).
    - React state is one record; a handler's closure variable [game] and the
      [prev] argument of its updaters denote the same state.
    - Rationals are not kept in lowest terms, so numbers that arithmetic has
      produced are compared with [==]. *)

From Stdlib Require Import ZArith QArith Qround Qminmax Qabs Qpower Lia Lqa.
From Stdlib Require Import List Bool String Ascii.
From Stdlib Require Import Sorted.
From stdpp Require Import gmap strings pretty.
Import ListNotations.

Local Open Scope Z_scope.

(** ** Types and configuration *)

Inductive Direction : Type :=
  | FRONT | BACK | LEFT | RIGHT
  | NORTH | SOUTH | EAST | WEST.

Inductive ProtocolType : Type := DIRECT | INVERTED.
Inductive FrameType : Type := RELATIVE | ABSOLUTE.

#[global] Instance Direction_eq_dec : EqDecision Direction.
Proof. solve_decision. Defined.
#[global] Instance ProtocolType_eq_dec : EqDecision ProtocolType.
Proof. solve_decision. Defined.
#[global] Instance FrameType_eq_dec : EqDecision FrameType.
Proof. solve_decision. Defined.

(** [{ dx, dy }] and [{ x, y }]. *)
Record Vec : Type := mkVec { dx : Z; dy : Z }.
Record Cell : Type := mkCell { cx : Z; cy : Z }.

Definition GRID_SIZE : Z := 7.

(** ** Numbers

    A [number] is an IEEE 754 double.  [roundDouble x] is the double nearest
    to the real [x], ties going to the even significand: the exponent of the
    unit in the last place is [floor (log2 |x|) - 52], and -1074 for the
    subnormal numbers. *)

(** The integer nearest to [a / b], for [0 <= a] and [0 < b], ties going to
    the even one. *)
Definition nearestEven (a b : Z) : Z :=
  let q := a / b in
  let r := a mod b in
  if 2 * r <? b then q
  else if b <? 2 * r then q + 1
  else if Z.even q then q else q + 1.

(** [floor (log2 (a / b))] for positive [a] and [b]. *)
Definition log2Ratio (a b : Z) : Z :=
  let k := Z.log2 a - Z.log2 b in
  if (if 0 <=? k then 2 ^ k * b <=? a else b <=? 2 ^ (- k) * a) then k else k - 1.

Definition roundDouble (x : Q) : Q :=
  let a := Z.abs (Qnum x) in
  let b := Zpos (Qden x) in
  if a =? 0 then 0%Q
  else
    let e := Z.max (log2Ratio a b - 52) (-1074) in
    let n := if 0 <=? e then nearestEven a (b * 2 ^ e)
             else nearestEven (a * 2 ^ (- e)) b in
    (inject_Z (Z.sgn (Qnum x) * n) * 2 ^ e)%Q.

(** 2^53: every integer up to it in magnitude is a double. *)
Definition MAX_EXACT : Z := 9007199254740992.

(** The double nearest to an integer, which is an integer again: the result
    of adding two integer-valued doubles. *)
Definition roundInteger (z : Z) : Z :=
  if Z.abs z <=? MAX_EXACT then z else Qfloor (roundDouble (inject_Z z)).

(** ** Logic engine *)

(** [((n % m) + m) % m]; the JavaScript [%] truncates towards zero and is
    exact, which is [Z.rem]; the sum is rounded. *)
Definition safeMod (n m : Z) : Z := Z.rem (roundInteger (Z.rem n m + m)) m.

Definition isCardinal (dir : Direction) : bool :=
  match dir with
  | NORTH | SOUTH | EAST | WEST => true
  | _ => false
  end.

Definition angleOffset (dir : Direction) : Z :=
  match dir with
  | RIGHT => 90
  | BACK => 180
  | LEFT => 270
  | _ => 0
  end.

Definition vectorOfAngle (finalAngle : Z) : Vec :=
  if finalAngle =? 0 then mkVec 0 (-1)
  else if finalAngle =? 90 then mkVec 1 0
  else if finalAngle =? 180 then mkVec 0 1
  else if finalAngle =? 270 then mkVec (-1) 0
  else mkVec 0 0.

Definition getVector (rotation : Z) (dir : Direction) : Vec :=
  match dir with
  | NORTH => mkVec 0 (-1)
  | SOUTH => mkVec 0 1
  | EAST => mkVec 1 0
  | WEST => mkVec (-1) 0
  | _ => vectorOfAngle (safeMod (roundInteger (rotation + angleOffset dir)) 360)
  end.

Definition getOpposite (dir : Direction) : Direction :=
  match dir with
  | NORTH => SOUTH
  | SOUTH => NORTH
  | EAST => WEST
  | WEST => EAST
  | FRONT => BACK
  | BACK => FRONT
  | LEFT => RIGHT
  | RIGHT => LEFT
  end.

Definition cardinalRotation (rotation : Z) : Prop :=
  rotation = 0 \/ rotation = 90 \/ rotation = 180 \/ rotation = 270.

Definition negVec (v : Vec) : Vec := mkVec (- dx v) (- dy v).

Definition isUnitVec (v : Vec) : Prop :=
  (Z.abs (dx v) = 1 /\ dy v = 0) \/ (dx v = 0 /\ Z.abs (dy v) = 1).

(** ** Randomness

    [Math.random()] returns a number in the half-open interval [0,1).  The
    oracle may hold any rationals; [Math_random] reads the fractional part of
    the next one, so every sequence of values in [0,1) is a possible run and
    no other value is ever produced. *)

Definition Qfrac (q : Q) : Q := (q - inject_Z (Qfloor q))%Q.

Definition Math_floor (q : Q) : Z := Qfloor q.

(** [a > b] on numbers. *)
Definition Qgtb (a b : Q) : bool := negb (Qle_bool a b).

Section Generator.

Variable random : nat -> Q.

(** A computation that draws from the oracle: cursor in, result and cursor
    out. *)
Definition Gen (A : Type) : Type := nat -> A * nat.

Definition ret {A : Type} (a : A) : Gen A := fun c => (a, c).

Definition bind {A B : Type} (m : Gen A) (k : A -> Gen B) : Gen B :=
  fun c => let (a, c') := m c in k a c'.

Notation "'draw' x '<~' m 'in' k" := (bind m (fun x => k))
  (at level 10, x pattern, m at level 100, k at level 200, only parsing).

Definition Math_random : Gen Q := fun c => (Qfrac (random c), S c).

(** [b && Math.random() > t]: the draw happens only when [b] holds. *)
Definition gated (b : bool) (threshold : Q) : Gen bool :=
  if b then draw r <~ Math_random in ret (Qgtb r threshold) else ret false.

(** ** Instructions *)

(** [id] is [Math.random().toString(36).substr(2, 9)] or the literal
    ['failsafe']; the base-36 rendering is not modelled, the draw is kept. *)
Inductive StepId : Type :=
  | RandomId (r : Q)
  | FailsafeId.

Record CommandStep : Type := mkStep {
  dir : Direction;
  frame : FrameType;
  protocol : ProtocolType;
  id : StepId;
  displayColor : string
}.

Definition COLORS_direct : string := "#00ff9d".
Definition COLORS_inverted : string := "#ff3366".

Definition relativeDirs : list Direction := [FRONT; BACK; LEFT; RIGHT].
Definition absoluteDirs : list Direction := [NORTH; SOUTH; EAST; WEST].

(** [dirs[Math.floor(r * dirs.length)]].  The index is in range because [r]
    lies in [0,1) (lemma [pick_index_range]); the default of [nth] is never
    read. *)
Definition pick (dirs : list Direction) (r : Q) : Direction :=
  nth (Z.to_nat (Math_floor (r * inject_Z (Z.of_nat (length dirs))))) dirs FRONT.

(** The direction an instruction is executed in. *)
Definition logicDir (protocol : ProtocolType) (rawDir : Direction) : Direction :=
  match protocol with
  | INVERTED => getOpposite rawDir
  | DIRECT => rawDir
  end.

Definition outOfGrid (x y : Z) : bool :=
  (x <? 0) || (x >=? GRID_SIZE) || (y <? 0) || (y >=? GRID_SIZE).

(** The derived parameters of a level. *)
Definition chainLength (level : Z) : nat :=
  if level <? 5 then 1%nat
  else if level <? 10 then 2%nat
  else if level <? 15 then 3%nat
  else 4%nat.

Definition allowInversion (level : Z) : bool := level >=? 4.
Definition allowAbsolute (level : Z) : bool := level >=? 7.
Definition allowInterference (level : Z) : bool := level >=? 12.

(** One pass through the body of the [for] loop up to [newChain.push]: the
    instruction and its displacement.  [resolve] is the component's
    [getVector]. *)
Definition genStep (resolve : Z -> Direction -> Vec) (level newRot : Z)
  : Gen (CommandStep * Vec) :=
  draw isAbsolute <~ gated (allowAbsolute level) (6 # 10) in
  let frame := if isAbsolute then ABSOLUTE else RELATIVE in
  draw r <~ Math_random in
  let rawDir := if isAbsolute then pick absoluteDirs r else pick relativeDirs r in
  draw inverted <~ gated (allowInversion level) (6 # 10) in
  let protocol := if (inverted : bool) then INVERTED else DIRECT in
  let vec := resolve newRot (logicDir protocol rawDir) in
  let baseColor :=
    match protocol with DIRECT => COLORS_direct | INVERTED => COLORS_inverted end in
  draw interfere <~ gated (allowInterference level) (1 # 2) in
  draw displayColor <~ (if (interfere : bool)
                   then draw r2 <~ Math_random in
                        ret (if Qgtb r2 (1 # 2) then COLORS_inverted else COLORS_direct)
                   else ret baseColor) in
  draw rid <~ Math_random in
  ret (mkStep rawDir frame protocol (RandomId rid) displayColor, vec).

(** The [for] loop: [slots] iterations remain; the result carries
    [pathFailed]. *)
Fixpoint chainLoop (resolve : Z -> Direction -> Vec) (slots : nat) (level newRot : Z)
    (newChain : list CommandStep) (currentX currentY : Z)
  : Gen (list CommandStep * Z * Z * bool) :=
  match slots with
  | O => ret (newChain, currentX, currentY, false)
  | S slots' =>
      draw (step, vec) <~ genStep resolve level newRot in
      let currentX := currentX + dx vec in
      let currentY := currentY + dy vec in
      let newChain := newChain ++ [step] in
      if outOfGrid currentX currentY
      then ret (newChain, currentX, currentY, true)
      else chainLoop resolve slots' level newRot newChain currentX currentY
  end.

(** The variables declared before the [while] loop; [None] is [undefined]. *)
Record Vars : Type := mkVars {
  valid : bool;
  newAnchor : option Cell;
  newRot : option Z;
  newChain : option (list CommandStep);
  finalX : option Z;
  finalY : option Z;
  attemptCount : Z          (* the local [attempts] *)
}.

Definition initialVars : Vars := mkVars false None None None None None 0.

Definition MAX_ATTEMPTS : Z := 500.

Definition padding (level : Z) : Z :=
  if (1 <? chainLength level)%nat
  then (if (3 <? chainLength level)%nat then 2 else 1)
  else 0.

(** One pass through the body of the [while] loop. *)
Definition attempt (level : Z) (v : Vars) : Gen Vars :=
  let attempts := attemptCount v + 1 in
  let safeSize := GRID_SIZE - padding level * 2 in
  draw rx <~ Math_random in
  draw ry <~ Math_random in
  let anchor := mkCell (Math_floor (rx * inject_Z safeSize) + padding level)
                       (Math_floor (ry * inject_Z safeSize) + padding level) in
  draw rr <~ Math_random in
  let rot := Math_floor (rr * 4) * 90 in
  draw (chain, currentX, currentY, pathFailed) <~
      chainLoop getVector (chainLength level) level rot [] (cx anchor) (cy anchor) in
  if negb pathFailed && (negb (currentX =? cx anchor) || negb (currentY =? cy anchor))
  then ret (mkVars true (Some anchor) (Some rot) (Some chain)
                   (Some currentX) (Some currentY) attempts)
  else ret (mkVars (valid v) (Some anchor) (Some rot) (Some chain)
                   (finalX v) (finalY v) attempts).

(** [while (!valid && attempts < MAX_ATTEMPTS)].  [fuel] bounds the unfolding
    of the loop in Rocq only; the loop leaves through its own guard (lemma
    [whileLoop_exits]). *)
Fixpoint whileLoop (fuel : nat) (level : Z) (v : Vars) : Gen Vars :=
  match fuel with
  | O => ret v
  | S fuel' =>
      if negb (valid v) && (attemptCount v <? MAX_ATTEMPTS)
      then draw v' <~ attempt level v in whileLoop fuel' level v'
      else ret v
  end.

Definition failsafeStep : CommandStep :=
  mkStep NORTH ABSOLUTE DIRECT FailsafeId COLORS_direct.

(** The assignments under [if (!valid)]. *)
Definition failsafe (v : Vars) : Vars :=
  mkVars (valid v) (Some (mkCell 3 3)) (Some 0) (Some [failsafeStep])
         (Some 3) (Some 2) (attemptCount v).

(** What [generateLevel] installs: [anchorPos], [anchorRotation], [chain] and
    [targetPos.current]. *)
Record Puzzle : Type := mkPuzzle {
  anchorCell : Cell;
  rotation : Z;
  instructions : list CommandStep;
  targetCell : Cell
}.

Definition failsafePuzzle : Puzzle :=
  mkPuzzle (mkCell 3 3) 0 [failsafeStep] (mkCell 3 2).

(** The values handed to the setters ([newAnchor!], [newRot!], ...): [None]
    when one of them is still [undefined]. *)
Definition installed (v : Vars) : option Puzzle :=
  match newAnchor v, newRot v, newChain v, finalX v, finalY v with
  | Some a, Some r, Some c, Some x, Some y => Some (mkPuzzle a r c (mkCell x y))
  | _, _, _, _, _ => None
  end.

Definition searchLevel (level : Z) : Gen Vars :=
  whileLoop (Z.to_nat MAX_ATTEMPTS) level initialVars.

Definition generateLevelVars (level : Z) : Gen Vars :=
  draw v <~ searchLevel level in
  ret (if valid v then v else failsafe v).

(** Stands for a board whose setters received [undefined]: it has no
    instruction and its target is its anchor, so nothing proved of a
    generated puzzle holds of it. *)
Definition undefinedPuzzle : Puzzle := mkPuzzle (mkCell 0 0) 0 [] (mkCell 0 0).

(** [generateLevel]: the values handed to the setters.  Every variable is
    assigned on both paths (lemma [generateLevel_installed]), so
    [undefinedPuzzle] is never installed. *)
Definition generateLevel (level : Z) : Gen Puzzle :=
  draw v <~ generateLevelVars level in
  ret (default undefinedPuzzle (installed v)).

End Generator.

(** ** Game state *)

Inductive Status : Type :=
  | idle | playing | gameover | level_up | level_down | success_anim | analytics_view.

#[global] Instance Status_eq_dec : EqDecision Status.
Proof. solve_decision. Defined.

Record MetricData : Type := mkMetric { attempts : Z; failures : Z }.

Record Session : Type := mkSession {
  timestamp : Z;
  sessionMaxLevel : Z;
  sessionScore : Q
}.

Record AnalyticsState : Type := mkAnalytics {
  tags : gmap string MetricData;
  sessions : list Session
}.

Record GameState : Type := mkGame {
  status : Status;
  currentLevel : Z;
  stability : Q;
  maxLevel : Z;
  score : Q;
  multiplier : Q;
  streak : Z;
  soundEnabled : bool;
  isPracticeMode : bool;
  analytics : AnalyticsState;
  sessionCorrect : Z;
  sessionTotal : Z
}.

Definition initialGame : GameState :=
  mkGame idle 1 50 1 0 1 0 true false (mkAnalytics ∅ []) 0 0.

(** ** Analytics engine *)

Inductive RoundResult : Type := win | loss.

Definition protocolName (p : ProtocolType) : string :=
  match p with DIRECT => "DIRECT" | INVERTED => "INVERTED" end.

Definition frameName (f : FrameType) : string :=
  match f with RELATIVE => "RELATIVE" | ABSOLUTE => "ABSOLUTE" end.

Definition directionName (d : Direction) : string :=
  match d with
  | FRONT => "FRONT" | BACK => "BACK" | LEFT => "LEFT" | RIGHT => "RIGHT"
  | NORTH => "NORTH" | SOUTH => "SOUTH" | EAST => "EAST" | WEST => "WEST"
  end.

Definition protoKey (step : CommandStep) : string := protocolName (protocol step).
Definition frameKey (step : CommandStep) : string := frameName (frame step).
(** The template string [`${step.protocol} ${step.dir}`]. *)
Definition complexKey (step : CommandStep) : string :=
  protocolName (protocol step) +:+ " " +:+ directionName (dir step).

(** [if (!newTags[key]) newTags[key] = {attempts: 0, failures: 0};
     newTags[key].attempts++; if (result === 'loss') newTags[key].failures++].
    [newTags] is a shallow copy, so the source increments the entry object it
    shares with the previous state; the table of the new state, which is all
    that is kept, is the one computed here.  The table is a finite map from
    keys to counters: the order in which the object got its keys is not
    modelled, and [AnalyticsView.weaknesses], which reads it through
    [Object.entries], takes the entries as a list. *)
Definition bump (result : RoundResult) (key : string)
    (newTags : gmap string MetricData) : gmap string MetricData :=
  let entry := default (mkMetric 0 0) (newTags !! key) in
  <[key := mkMetric (attempts entry + 1)
                    (match result with
                     | loss => failures entry + 1
                     | win => failures entry
                     end)]> newTags.

(** The body of [chain.forEach]. *)
Definition recordStep (result : RoundResult) (newTags : gmap string MetricData)
    (step : CommandStep) : gmap string MetricData :=
  bump result (complexKey step)
    (bump result (frameKey step)
       (bump result (protoKey step) newTags)).

Definition recordChain (result : RoundResult) (chain : list CommandStep)
    (oldTags : gmap string MetricData) : gmap string MetricData :=
  fold_left (recordStep result) chain oldTags.

Definition setTags (newTags : gmap string MetricData) (prev : GameState) : GameState :=
  mkGame (status prev) (currentLevel prev) (stability prev) (maxLevel prev)
         (score prev) (multiplier prev) (streak prev) (soundEnabled prev)
         (isPracticeMode prev)
         (mkAnalytics newTags (sessions (analytics prev)))
         (sessionCorrect prev) (sessionTotal prev).

Definition updateAnalytics (result : RoundResult) (chain : list CommandStep)
    (game : GameState) : GameState :=
  if isPracticeMode game then game
  else setTags (recordChain result chain (tags (analytics game))) game.

(** [now] is [Date.now()]. *)
Definition recordSession (now : Z) (game : GameState) : GameState :=
  if Qgtb (score game) 100 && negb (isPracticeMode game)
  then mkGame (status game) (currentLevel game) (stability game) (maxLevel game)
              (score game) (multiplier game) (streak game) (soundEnabled game)
              (isPracticeMode game)
              (mkAnalytics (tags (analytics game))
                 (sessions (analytics game)
                    ++ [mkSession now (currentLevel game) (score game)]))
              (sessionCorrect game) (sessionTotal game)
  else game.

(** ** Manual level entry *)

(** [parseInt(input)] with no radix, after ECMAScript: leading white space is
    skipped, then an optional sign, then an optional [0x]/[0X] prefix selects
    radix 16 (radix 10 otherwise), then the longest run of digits of that
    radix is read; [None] is [NaN].  Characters are code units below 256; the
    value is the exact integer (a double rounds it only above 2^53, far from
    the range tested by the caller). *)
Definition isWhiteSpace (c : ascii) : bool :=
  let n := N_of_ascii c in
  (n =? 9)%N || (n =? 10)%N || (n =? 11)%N || (n =? 12)%N || (n =? 13)%N
  || (n =? 32)%N || (n =? 160)%N.

Fixpoint skipWhiteSpace (s : string) : string :=
  match s with
  | String c rest => if isWhiteSpace c then skipWhiteSpace rest else s
  | EmptyString => s
  end.

Definition digitValue (radix : Z) (c : ascii) : option Z :=
  let n := Z.of_N (N_of_ascii c) in
  let v := if (48 <=? n) && (n <=? 57) then Some (n - 48)
           else if (97 <=? n) && (n <=? 122) then Some (n - 87)
           else if (65 <=? n) && (n <=? 90) then Some (n - 55)
           else None in
  match v with
  | Some d => if d <? radix then Some d else None
  | None => None
  end.

(** Reads digits while they last; [acc] is [None] until one has been read. *)
Fixpoint readDigits (radix : Z) (s : string) (acc : option Z) : option Z :=
  match s with
  | String c rest =>
      match digitValue radix c with
      | Some d => readDigits radix rest (Some (default 0 acc * radix + d))
      | None => acc
      end
  | EmptyString => acc
  end.

Definition parseInt (input : string) : option Z :=
  let s := skipWhiteSpace input in
  let (sign, s) :=
    match s with
    | String "-" rest => (-1, rest)
    | String "+" rest => (1, rest)
    | _ => (1, s)
    end in
  let (radix, s) :=
    match s with
    | String "0" (String "x" rest) => (16, rest)
    | String "0" (String "X" rest) => (16, rest)
    | _ => (10, s)
    end in
  match readDigits radix s None with
  | Some n => Some (sign * n)
  | None => None
  end.

(** [input] is what [prompt] returned: [None] for [null] (cancelled). *)
Definition manualSetLevel (input : option string) (prev : GameState) : GameState :=
  match input with
  | None | Some EmptyString => prev
  | Some text =>
      match parseInt text with
      | Some lvl =>
          if (lvl >? 0) && (lvl <? 100)
          then mkGame (status prev) lvl (stability prev) (Z.max (maxLevel prev) lvl)
                      0 (multiplier prev) (streak prev) (soundEnabled prev)
                      (isPracticeMode prev) (analytics prev)
                      (sessionCorrect prev) (sessionTotal prev)
          else prev
      | None => prev
      end
  end.

(** ** Component state

    [useState] and [useRef] cells of the component, the callbacks handed to
    [setTimeout] and [requestAnimationFrame] that have not run yet, and the
    cursor of the random oracle. *)

Inductive FeedbackType : Type := fb_success | fb_fail.

Record Feedback : Type := mkFeedback { fx : Z; fy : Z; ftype : FeedbackType }.

(** A scheduled callback, with the variables its closure captured. *)
Inductive Task : Type :=
  | AfterSuccess (nextStatus : Status) (nextLevel : Z)
      (* [setTimeout(..., 400)] of [handleSuccess] *)
  | AfterLevelUp (nextLevel : Z)
      (* its inner [setTimeout(..., 1200)] *)
  | FramePlaying
      (* [setGame(prev => ({...prev, status: 'playing'}))] *)
  | FramePlayingLevel (nextLevel : Z)
      (* [... status: 'playing', currentLevel: nextLevel, maxLevel: ...] *)
  | AfterFailure (nextStatus : Status) (nextLevel : Z) (newStability : Q)
      (* [setTimeout(..., 500)] of [handleFailure] *)
  | AfterLevelDown (nextLevel : Z)
      (* its inner [setTimeout(..., 1200)] *)
  | FramePlayingStable
      (* [... status: 'playing', stability: 50] *)
  | FramePlayingRestored (nextLevel : Z) (newStability : Q).
      (* [... status: 'playing', currentLevel: nextLevel, stability: newStability] *)

Record Machine : Type := mkMachine {
  game : GameState;
  timer : Q;
  anchorPos : Cell;
  anchorRotation : Z;
  chain : list CommandStep;
  targetPos : option Cell;          (* [targetPos.current], [None] is [null] *)
  feedbackCell : option Feedback;
  failureHandled : bool;            (* [failureHandled.current] *)
  pending : list Task;
  cursor : nat
}.

Definition initialMachine : Machine :=
  mkMachine initialGame 100 (mkCell 3 3) 0 [] None None false [] 0%nat.

Definition setGame (f : GameState -> GameState) (m : Machine) : Machine :=
  mkMachine (f (game m)) (timer m) (anchorPos m) (anchorRotation m) (chain m)
            (targetPos m) (feedbackCell m) (failureHandled m) (pending m) (cursor m).

Definition setTimer (t : Q) (m : Machine) : Machine :=
  mkMachine (game m) t (anchorPos m) (anchorRotation m) (chain m)
            (targetPos m) (feedbackCell m) (failureHandled m) (pending m) (cursor m).

Definition setFeedbackCell (f : option Feedback) (m : Machine) : Machine :=
  mkMachine (game m) (timer m) (anchorPos m) (anchorRotation m) (chain m)
            (targetPos m) f (failureHandled m) (pending m) (cursor m).

Definition setFailureHandled (b : bool) (m : Machine) : Machine :=
  mkMachine (game m) (timer m) (anchorPos m) (anchorRotation m) (chain m)
            (targetPos m) (feedbackCell m) b (pending m) (cursor m).

Definition setPending (l : list Task) (m : Machine) : Machine :=
  mkMachine (game m) (timer m) (anchorPos m) (anchorRotation m) (chain m)
            (targetPos m) (feedbackCell m) (failureHandled m) l (cursor m).

(** [setTimeout] / [requestAnimationFrame]. *)
Definition schedule (t : Task) (m : Machine) : Machine :=
  setPending (pending m ++ [t]) m.

(** Field updates of [setGame(prev => ({...prev, ...}))]. *)
Definition withStatus (s : Status) (prev : GameState) : GameState :=
  mkGame s (currentLevel prev) (stability prev) (maxLevel prev) (score prev)
         (multiplier prev) (streak prev) (soundEnabled prev) (isPracticeMode prev)
         (analytics prev) (sessionCorrect prev) (sessionTotal prev).

Definition withLevel (lvl : Z) (prev : GameState) : GameState :=
  mkGame (status prev) lvl (stability prev) (maxLevel prev) (score prev)
         (multiplier prev) (streak prev) (soundEnabled prev) (isPracticeMode prev)
         (analytics prev) (sessionCorrect prev) (sessionTotal prev).

Definition withMaxLevel (lvl : Z) (prev : GameState) : GameState :=
  mkGame (status prev) (currentLevel prev) (stability prev) lvl (score prev)
         (multiplier prev) (streak prev) (soundEnabled prev) (isPracticeMode prev)
         (analytics prev) (sessionCorrect prev) (sessionTotal prev).

Definition withStability (s : Q) (prev : GameState) : GameState :=
  mkGame (status prev) (currentLevel prev) s (maxLevel prev) (score prev)
         (multiplier prev) (streak prev) (soundEnabled prev) (isPracticeMode prev)
         (analytics prev) (sessionCorrect prev) (sessionTotal prev).

Section Progression.

Variable random : nat -> Q.

(** The call [generateLevel(level)] inside the component: the setters at the
    end of the function. *)
Definition callGenerateLevel (level : Z) (m : Machine) : Machine :=
  let drawn := generateLevel random level (cursor m) in
  let p := fst drawn in
  mkMachine (game m) 100 (anchorCell p) (rotation p) (instructions p)
            (Some (targetCell p)) None (failureHandled m) (pending m) (snd drawn).

(** The [history: []] of the source's update is not a field of [GameState]
    and is read nowhere; it is left out. *)
Definition startGame (m : Machine) : Machine :=
  let m := callGenerateLevel (currentLevel (game m)) m in
  setGame (fun prev =>
    mkGame playing (currentLevel prev) (stability prev) (maxLevel prev) (score prev)
           1 0 (soundEnabled prev) (isPracticeMode prev) (analytics prev) 0 0) m.

Definition togglePracticeMode (m : Machine) : Machine :=
  let game0 := game m in
  let m := setGame (fun prev =>
    mkGame (status prev) (currentLevel prev) (stability prev) (maxLevel prev)
           (score prev) (multiplier prev) (streak prev) (soundEnabled prev)
           (negb (isPracticeMode prev)) (analytics prev)
           (sessionCorrect prev) (sessionTotal prev)) m in
  if decide (status game0 = playing)
  then callGenerateLevel (currentLevel game0) m
  else m.

Definition stopGame (now : Z) (m : Machine) : Machine :=
  setGame (withStatus gameover) (setGame (recordSession now) m).

(** [confirmed] is the answer of [window.confirm]. *)
Definition resetProgress (confirmed : bool) (m : Machine) : Machine :=
  if confirmed
  then setGame (fun prev =>
         mkGame idle 1 50 (maxLevel (game m)) 0 (multiplier prev) (streak prev)
                (soundEnabled prev) (isPracticeMode prev) (mkAnalytics ∅ []) 0 0) m
  else m.

Definition handleSuccess (m : Machine) : Machine :=
  let game0 := game m in
  let m := setGame (updateAnalytics win (chain m)) m in
  let timeBonus := Math_floor (timer m) in
  let points := (inject_Z (100 + timeBonus) * multiplier game0
                 + inject_Z (currentLevel game0 * 50))%Q in
  let stabilityGain := (if isPracticeMode game0 then 0 else 15)%Q in
  let newStability := (stability game0 + stabilityGain)%Q in
  let levelUp := negb (isPracticeMode game0) && Qle_bool 100 newStability in
  let nextLevel := if levelUp then currentLevel game0 + 1 else currentLevel game0 in
  let nextStatus := if levelUp then level_up else playing in
  let newStability :=
    (if levelUp then 50
     else if Qgtb newStability 100 then 100 else newStability)%Q in
  let m := setGame (fun prev =>
    mkGame success_anim (currentLevel prev) newStability (maxLevel prev)
           (if isPracticeMode prev then score prev
            else inject_Z (Math_floor (score prev + points)))
           (Qmin (multiplier prev + (1 # 2)) 5)
           (streak prev + 1) (soundEnabled prev) (isPracticeMode prev)
           (analytics prev)
           (if isPracticeMode prev then sessionCorrect prev else sessionCorrect prev + 1)
           (if isPracticeMode prev then sessionTotal prev else sessionTotal prev + 1)) m in
  schedule (AfterSuccess nextStatus nextLevel) m.

Definition handleFailure (m : Machine) : Machine :=
  let game0 := game m in
  let m := setGame (updateAnalytics loss (chain m)) m in
  let stabilityLoss := (if isPracticeMode game0 then 0 else 30)%Q in
  let newStability := (stability game0 - stabilityLoss)%Q in
  let bottomed := negb (isPracticeMode game0) && Qle_bool newStability 0 in
  let levelDown := bottomed && (currentLevel game0 >? 1) in
  let nextLevel := if levelDown then currentLevel game0 - 1 else currentLevel game0 in
  let nextStatus := if levelDown then level_down else playing in
  let newStability :=
    (if bottomed then (if (currentLevel game0 >? 1)%Z then 50 else 20)
     else if Qgtb 0 newStability then 0 else newStability)%Q in
  let m := setGame (fun prev =>
    mkGame success_anim (currentLevel prev) newStability (maxLevel prev) (score prev)
           1 0 (soundEnabled prev) (isPracticeMode prev) (analytics prev)
           (sessionCorrect prev)
           (if isPracticeMode prev then sessionTotal prev else sessionTotal prev + 1)) m in
  schedule (AfterFailure nextStatus nextLevel newStability) m.

Definition handleCellClick (x y : Z) (m : Machine) : Machine :=
  if decide (status (game m) = playing)
  then match targetPos m with
       | Some t =>
           if (x =? cx t) && (y =? cy t)
           then handleSuccess (setFeedbackCell (Some (mkFeedback x y fb_success)) m)
           else handleFailure (setFeedbackCell (Some (mkFeedback x y fb_fail)) m)
       | None => handleFailure (setFeedbackCell (Some (mkFeedback x y fb_fail)) m)
       end
  else m.

(** The body of a scheduled callback. *)
Definition runTask (t : Task) (m : Machine) : Machine :=
  match t with
  | AfterSuccess nextStatus nextLevel =>
      if decide (nextStatus = level_up)
      then schedule (AfterLevelUp nextLevel)
             (setGame (fun prev =>
                withMaxLevel (Z.max (maxLevel prev) nextLevel)
                  (withLevel nextLevel (withStatus level_up prev))) m)
      else schedule (FramePlayingLevel nextLevel) (callGenerateLevel nextLevel m)
  | AfterLevelUp nextLevel =>
      schedule FramePlaying (callGenerateLevel nextLevel m)
  | FramePlaying => setGame (withStatus playing) m
  | FramePlayingLevel nextLevel =>
      setGame (fun prev =>
        withMaxLevel (Z.max (maxLevel prev) nextLevel)
          (withLevel nextLevel (withStatus playing prev))) m
  | AfterFailure nextStatus nextLevel newStability =>
      if decide (nextStatus = level_down)
      then schedule (AfterLevelDown nextLevel)
             (setGame (fun prev => withLevel nextLevel (withStatus level_down prev)) m)
      else schedule (FramePlayingRestored nextLevel newStability)
             (callGenerateLevel nextLevel m)
  | AfterLevelDown nextLevel =>
      schedule FramePlayingStable (callGenerateLevel nextLevel m)
  | FramePlayingStable =>
      setGame (fun prev => withStability 50 (withStatus playing prev)) m
  | FramePlayingRestored nextLevel newStability =>
      setGame (fun prev =>
        withStability newStability (withLevel nextLevel (withStatus playing prev))) m
  end.

(** [0.25 + (game.currentLevel * 0.04)]: the literal 0.04 is the double
    nearest to 4/100, and the product and the sum are rounded. *)
Definition decay (level : Z) : Q :=
  roundDouble ((25 # 100) + roundDouble (inject_Z level * roundDouble (4 # 100))).

(** The callback of [setInterval]: the updater passed to [setTimer]. *)
Definition timerTick (m : Machine) : Machine :=
  if Qle_bool (timer m) 0
  then (if failureHandled m
        then setTimer 0 m
        else setTimer 0 (handleFailure (setFailureHandled true m)))
  else setTimer (roundDouble (timer m - decay (currentLevel (game m)))) m.

(** The interval exists while [status === 'playing'] outside practice mode. *)
Definition intervalRunning (g : GameState) : bool :=
  bool_decide (status g = playing) && negb (isPracticeMode g).

(** ** Events *)

Inductive Event : Type :=
  | EvStart
  | EvStop (now : Z)
  | EvResetProgress (confirmed : bool)
  | EvTogglePractice
  | EvCellClick (x y : Z)
  | EvManualSetLevel (input : option string)
  | EvTick
  | EvCallback (k : nat)       (* the [k]-th pending callback runs *)
  | EvOpenAnalytics
  | EvMenu.

Definition dispatch (e : Event) (m : Machine) : Machine :=
  match e with
  | EvStart => startGame m
  | EvStop now => if decide (status (game m) = playing) then stopGame now m else m
  | EvResetProgress confirmed => resetProgress confirmed m
  | EvTogglePractice => togglePracticeMode m
  | EvCellClick x y => handleCellClick x y m
  | EvManualSetLevel input => setGame (manualSetLevel input) m
  | EvTick => if intervalRunning (game m) then timerTick m else m
  | EvCallback k =>
      match pending m !! k with
      | Some t => runTask t (setPending (delete k (pending m)) m)
      | None => m
      end
  | EvOpenAnalytics => setGame (withStatus analytics_view) m
  | EvMenu => setGame (withStatus idle) m
  end.

(** [useEffect(() => { if (game.status === 'playing') failureHandled.current
    = false; }, [game.status])]: runs after a render in which the status
    changed. *)
Definition statusEffect (before : Status) (m : Machine) : Machine :=
  if decide (status (game m) = before) then m
  else if decide (status (game m) = playing) then setFailureHandled false m
  else m.

Definition step (m : Machine) (e : Event) : Machine :=
  statusEffect (status (game m)) (dispatch e m).

Definition run (m : Machine) (events : list Event) : Machine :=
  fold_left step events m.

(** The pending callbacks run in the order they were scheduled until none is
    left; a handler leaves at most three generations of them. *)
Definition runNext (m : Machine) : Machine := step m (EvCallback 0).

Definition settle (m : Machine) : Machine := runNext (runNext (runNext m)).

(** A whole round: the click or time-out, then its scheduled follow-ups. *)
Inductive Outcome : Type := RoundSuccess | RoundFailure.

Definition playRound (m : Machine) (o : Outcome) : Machine :=
  match o with
  | RoundSuccess => settle (statusEffect (status (game m)) (handleSuccess m))
  | RoundFailure => settle (statusEffect (status (game m)) (handleFailure m))
  end.

Definition playRounds (m : Machine) (outcomes : list Outcome) : Machine :=
  fold_left playRound outcomes m.

(** [n] runs of the interval callback, whether or not React has yet torn the
    interval down. *)
Fixpoint ticks (n : nat) (m : Machine) : Machine :=
  match n with
  | O => m
  | S n' => ticks n' (timerTick m)
  end.

End Progression.

(** ** Vocabulary of the puzzle invariant *)

Definition move (p : Cell) (v : Vec) : Cell := mkCell (cx p + dx v) (cy p + dy v).

(** The resolved displacement of an instruction: its direction, inverted when
    the protocol says so, read against the anchor rotation. *)
Definition stepVector (rot : Z) (s : CommandStep) : Vec :=
  getVector rot (logicDir (protocol s) (dir s)).

(** The positions reached after the first, the first two, ... instructions. *)
Fixpoint prefixPositions (rot : Z) (p : Cell) (steps : list CommandStep) : list Cell :=
  match steps with
  | [] => []
  | s :: rest =>
      let q := move p (stepVector rot s) in
      q :: prefixPositions rot q rest
  end.

Definition finalPosition (rot : Z) (p : Cell) (steps : list CommandStep) : Cell :=
  fold_left (fun q s => move q (stepVector rot s)) steps p.

Definition inGrid (c : Cell) : Prop :=
  0 <= cx c < GRID_SIZE /\ 0 <= cy c < GRID_SIZE.

Definition validPuzzle (p : Puzzle) : Prop :=
  targetCell p <> anchorCell p
  /\ Forall inGrid (prefixPositions (rotation p) (anchorCell p) (instructions p))
  /\ targetCell p = finalPosition (rotation p) (anchorCell p) (instructions p).

(** What an accepted candidate is: a valid puzzle whose anchor is a grid cell
    under one of the four rotations, with every slot of the level filled. *)
Definition acceptedPuzzle (level : Z) (p : Puzzle) : Prop :=
  validPuzzle p
  /\ inGrid (anchorCell p)
  /\ cardinalRotation (rotation p)
  /\ length (instructions p) = chainLength level.

Definition acceptedVars (level : Z) (v : Vars) : Prop :=
  valid v = true -> exists p, installed v = Some p /\ acceptedPuzzle level p.

(** ** Vocabulary of the analytics counters *)

(** A counter that was never written reads as zero. *)
Definition attemptsOf (t : gmap string MetricData) (key : string) : Z :=
  attempts (default (mkMetric 0 0) (t !! key)).

Definition failuresOf (t : gmap string MetricData) (key : string) : Z :=
  failures (default (mkMetric 0 0) (t !! key)).

(** The three families of tag keys, and the string each is stored under. *)
Inductive TagKey : Type :=
  | ProtocolKey (p : ProtocolType)
  | FrameKey (f : FrameType)
  | CompoundKey (p : ProtocolType) (d : Direction).

#[global] Instance TagKey_eq_dec : EqDecision TagKey.
Proof. solve_decision. Defined.

Definition tagKeyString (k : TagKey) : string :=
  match k with
  | ProtocolKey p => protocolName p
  | FrameKey f => frameName f
  | CompoundKey p d => protocolName p +:+ " " +:+ directionName d
  end.

Definition keysOfStep (step : CommandStep) : list TagKey :=
  [ProtocolKey (protocol step); FrameKey (frame step);
   CompoundKey (protocol step) (dir step)].

(** How many times one instruction, and a whole chain, writes under [key]. *)
Definition hitsOfStep (key : string) (step : CommandStep) : Z :=
  (if decide (protoKey step = key) then 1 else 0)
  + (if decide (frameKey step = key) then 1 else 0)
  + (if decide (complexKey step = key) then 1 else 0).

Fixpoint hits (key : string) (chain : list CommandStep) : Z :=
  match chain with
  | [] => 0
  | step :: rest => hitsOfStep key step + hits key rest
  end.

(** ** Vocabulary of the progression invariants *)

Definition bounded (g : GameState) : Prop :=
  (0 <= stability g <= 100)%Q /\ (1 <= multiplier g <= 5)%Q /\ 1 <= currentLevel g.

(** The values captured by a scheduled callback are in range as well. *)
Definition taskBounded (t : Task) : Prop :=
  match t with
  | AfterSuccess _ l | AfterLevelUp l | FramePlayingLevel l | AfterLevelDown l =>
      1 <= l
  | AfterFailure _ l s | FramePlayingRestored l s =>
      1 <= l /\ (0 <= s <= 100)%Q
  | FramePlaying | FramePlayingStable => True
  end.

Definition machineBounded (m : Machine) : Prop :=
  bounded (game m) /\ Forall taskBounded (pending m).

(** [(100 + floor(remainingTimerPercent)) * multiplier + level * 50]. *)
Definition reward (m : Machine) : Q :=
  (inject_Z (100 + Math_floor (timer m)) * multiplier (game m)
   + inject_Z (currentLevel (game m) * 50))%Q.

(** The reward rule read literally: the reward is added to the score,
    stability rises by 15 and is capped at 100, the multiplier rises by 0.5
    and is capped at 5, the streak grows by one. *)
Definition rewardAsStated (m m' : Machine) : Prop :=
  (score (game m') == score (game m) + reward m)%Q
  /\ (stability (game m') == Qmin (stability (game m) + 15) 100)%Q
  /\ (multiplier (game m') == Qmin (multiplier (game m) + (1 # 2)) 5)%Q
  /\ streak (game m') = streak (game m) + 1.

(** Machines used as concrete inputs: a round in play on the failsafe puzzle,
    with the given mode, level, stability, score, multiplier and timer. *)
Definition roundInPlay (practice : bool) (level : Z) (stab sc mult tm : Q) : Machine :=
  mkMachine
    (mkGame playing level stab level sc mult 0 true practice (mkAnalytics ∅ []) 0 0)
    tm (mkCell 3 3) 0 [failsafeStep] (Some (mkCell 3 2)) None false [] 0%nat.

(** The two observable effects of a scheduled callback, read off [runTask]:
    the update it applies to the game state and the callback it schedules in
    turn. *)
Definition taskGame (t : Task) (prev : GameState) : GameState :=
  match t with
  | AfterSuccess nextStatus nextLevel =>
      if decide (nextStatus = level_up)
      then withMaxLevel (Z.max (maxLevel prev) nextLevel)
             (withLevel nextLevel (withStatus level_up prev))
      else prev
  | AfterLevelUp _ | AfterLevelDown _ => prev
  | FramePlaying => withStatus playing prev
  | FramePlayingLevel nextLevel =>
      withMaxLevel (Z.max (maxLevel prev) nextLevel)
        (withLevel nextLevel (withStatus playing prev))
  | AfterFailure nextStatus nextLevel _ =>
      if decide (nextStatus = level_down)
      then withLevel nextLevel (withStatus level_down prev)
      else prev
  | FramePlayingStable => withStability 50 (withStatus playing prev)
  | FramePlayingRestored nextLevel newStability =>
      withStability newStability (withLevel nextLevel (withStatus playing prev))
  end.

Definition taskFollowUp (t : Task) : list Task :=
  match t with
  | AfterSuccess nextStatus nextLevel =>
      if decide (nextStatus = level_up)
      then [AfterLevelUp nextLevel] else [FramePlayingLevel nextLevel]
  | AfterLevelUp _ => [FramePlaying]
  | AfterFailure nextStatus nextLevel newStability =>
      if decide (nextStatus = level_down)
      then [AfterLevelDown nextLevel]
      else [FramePlayingRestored nextLevel newStability]
  | AfterLevelDown _ => [FramePlayingStable]
  | FramePlaying | FramePlayingLevel _ | FramePlayingStable
  | FramePlayingRestored _ _ => []
  end.

(** ** The earlier component

    [VectorFrameUnbreakable], the second source file: the same puzzle without
    practice mode and analytics.  Only what differs from the definitions
    above is repeated: [getVector] reduces the angle with a bare [%], the
    search has a cap of 100, no edge padding and no failsafe, and the
    countdown calls [handleFailure] without a guard. *)
Module Legacy.

Definition getVector (rotation : Z) (dir : Direction) : Vec :=
  match dir with
  | NORTH => mkVec 0 (-1)
  | SOUTH => mkVec 0 1
  | EAST => mkVec 1 0
  | WEST => mkVec (-1) 0
  | _ => vectorOfAngle (Z.rem (roundInteger (rotation + angleOffset dir)) 360)
  end.

Section Generator.

Variable random : nat -> Q.

Notation "'draw' x '<~' m 'in' k" := (bind m (fun x => k))
  (at level 10, x pattern, m at level 100, k at level 200, only parsing).

Definition attempt (level : Z) (v : Vars) : Gen Vars :=
  let attempts := attemptCount v + 1 in
  draw rx <~ Math_random random in
  draw ry <~ Math_random random in
  let anchor := mkCell (Math_floor (rx * inject_Z GRID_SIZE))
                       (Math_floor (ry * inject_Z GRID_SIZE)) in
  draw rr <~ Math_random random in
  let rot := Math_floor (rr * 4) * 90 in
  draw (chain, currentX, currentY, pathFailed) <~
      chainLoop random getVector (chainLength level) level rot [] (cx anchor) (cy anchor) in
  if negb pathFailed && (negb (currentX =? cx anchor) || negb (currentY =? cy anchor))
  then ret (mkVars true (Some anchor) (Some rot) (Some chain)
                   (Some currentX) (Some currentY) attempts)
  else ret (mkVars (valid v) (Some anchor) (Some rot) (Some chain)
                   (finalX v) (finalY v) attempts).

(** [while (!valid && attempts < 100)]. *)
Fixpoint whileLoop (fuel : nat) (level : Z) (v : Vars) : Gen Vars :=
  match fuel with
  | O => ret v
  | S fuel' =>
      if negb (valid v) && (attemptCount v <? 100)
      then draw v' <~ attempt level v in whileLoop fuel' level v'
      else ret v
  end.

(** The variables as the setters receive them; [installed] is [None] when
    one is still [undefined], here [finalX] and [finalY] after 100 rejected
    candidates. *)
Definition generateLevelVars (level : Z) : Gen Vars :=
  whileLoop 100 level initialVars.

Definition generateLevel (level : Z) : Gen (option Puzzle) :=
  draw v <~ generateLevelVars level in
  ret (installed v).

End Generator.

(** The game loop.  [closure] is the [game] captured by the effect that
    created the interval; [pending] holds the [setTimeout] callbacks of
    [handleFailure] with the variables they captured. *)
Record GameState : Type := mkGame {
  status : Status;
  currentLevel : Z;
  stability : Q;
  maxLevel : Z;
  score : Q;
  multiplier : Q;
  streak : Z;
  soundEnabled : bool
}.

Record Loop : Type := mkLoop {
  game : GameState;
  timer : Q;
  pending : list (Status * Z * Q)   (* nextStatus, nextLevel, newStability *)
}.

Definition handleFailure (closure : GameState) (l : Loop) : Loop :=
  let newStability := (stability closure - 30)%Q in
  let bottomed := Qle_bool newStability 0 in
  let levelDown := bottomed && (currentLevel closure >? 1) in
  let nextLevel := if levelDown then currentLevel closure - 1 else currentLevel closure in
  let nextStatus := if levelDown then level_down else playing in
  let newStability :=
    (if bottomed then (if (currentLevel closure >? 1)%Z then 50 else 20)
     else newStability)%Q in
  let prev := game l in
  mkLoop (mkGame success_anim (currentLevel prev) (Qmax 0 newStability) (maxLevel prev)
                 (score prev) 1 0 (soundEnabled prev))
         (timer l)
         (pending l ++ [(nextStatus, nextLevel, newStability)]).

(** The updater passed to [setTimer] by the interval callback. *)
Definition timerTick (closure : GameState) (l : Loop) : Loop :=
  if Qle_bool (timer l) 0
  then (let l' := handleFailure closure l in mkLoop (game l') 0 (pending l'))
  else mkLoop (game l) (roundDouble (timer l - decay (currentLevel closure))) (pending l).

Fixpoint ticks (closure : GameState) (n : nat) (l : Loop) : Loop :=
  match n with
  | O => l
  | S n' => ticks closure n' (timerTick closure l)
  end.

(** The callback [handleFailure] passes to [setTimeout(.., 500)], with the
    variables it captured.  The callback it schedules in turn, 200 ms or
    1200 ms later (status [playing] and [generateLevel(nextLevel)], which
    puts the timer back to 100), starts the next round and is not part of
    [Loop]. *)
Definition failureCallback (l : Loop) : Loop :=
  match pending l with
  | [] => l
  | (nextStatus, nextLevel, newStability) :: rest =>
      let prev := game l in
      mkLoop (mkGame nextStatus nextLevel
                     (if Qle_bool newStability 0 then 50 else newStability)
                     (maxLevel prev) (score prev) (multiplier prev) (streak prev)
                     (soundEnabled prev))
             (timer l) rest
  end.

(** One tick of the interval effect, whose dependencies are the status and
    the level: there is an interval only while the status is [playing], and
    its callback closes over the [game] of the render that started it, which
    is the current one until status or level change. *)
Definition intervalTick (l : Loop) : Loop :=
  match status (game l) with
  | playing => timerTick (game l) l
  | _ => l
  end.

End Legacy.

(** ** Analytics view and head-up display

    The local functions of [AnalyticsView] and the figures computed while
    rendering. *)
Module AnalyticsView.

(** [{ key, rate }], with [rate = data.failures / data.attempts]. *)
Record Weakness : Type := mkWeakness { key : string; rate : Q }.

Definition rateOf (data : MetricData) : Q :=
  (inject_Z (failures data) / inject_Z (attempts data))%Q.

(** [sort((a, b) => b.rate - a.rate)]: [Array.prototype.sort] is stable, and
    for a consistent comparator its result is the one a stable insertion
    gives.  [w] was before every element of [sorted] in the array, so it goes
    in front of the first element whose rate does not exceed its own. *)
Fixpoint insertByRate (w : Weakness) (sorted : list Weakness) : list Weakness :=
  match sorted with
  | [] => [w]
  | y :: ys =>
      if Qle_bool (rate y) (rate w) then w :: y :: ys
      else y :: insertByRate w ys
  end.

Definition sortByRate (l : list Weakness) : list Weakness :=
  fold_right insertByRate [] l.

(** [entries] is [Object.entries(stats.tags)], in the insertion order of the
    object. *)
Definition weaknesses (entries : list (string * MetricData)) : list Weakness :=
  firstn 3
    (sortByRate
       (List.map (fun e => mkWeakness (fst e) (rateOf (snd e)))
          (List.filter (fun e => attempts (snd e) >=? 5) entries))).

(** The order of the sort: higher failure rate first. *)
Definition byRate (a b : Weakness) : Prop := (rate b <= rate a)%Q.

Definition oneDay : Z := 24 * 60 * 60 * 1000.

(** [stats.sessions.filter(s => (now - s.timestamp) < (days * oneDay))]. *)
Definition relevant (now days : Z) (sessions : list Session) : list Session :=
  List.filter (fun s => now - timestamp s <? days * oneDay) sessions.

Definition getAvgScore (now days : Z) (sessions : list Session) : Z :=
  let rel := relevant now days sessions in
  match rel with
  | [] => 0
  | _ :: _ =>
      Math_floor (fold_left (fun a b => a + sessionScore b) rel 0
                  / inject_Z (Z.of_nat (length rel)))%Q
  end.

End AnalyticsView.

(** [Math.round(x)] is [floor(x + 0.5)]. *)
Definition Math_round (q : Q) : Z := Qfloor (q + (1 # 2)).

(** [accuracy], shown while playing, and the precision of the pause screen,
    [Math.round((sessionCorrect / (sessionTotal || 1)) * 100)]; the quotient
    and the product are rounded. *)
Definition accuracy (g : GameState) : Z :=
  if sessionTotal g >? 0
  then Math_round (roundDouble
         (roundDouble (inject_Z (sessionCorrect g) / inject_Z (sessionTotal g)) * 100))
  else 100.

Definition precision (g : GameState) : Z :=
  Math_round (roundDouble
    (roundDouble (inject_Z (sessionCorrect g)
                  / inject_Z (if sessionTotal g =? 0 then 1 else sessionTotal g)) * 100)).

(** The cell drawn at index [i] of the grid: [x = i % GRID_SIZE],
    [y = Math.floor(i / GRID_SIZE)], for [i] from 0 to
    [GRID_SIZE * GRID_SIZE - 1]. *)
Definition cellOfIndex (i : Z) : Cell :=
  mkCell (Z.rem i GRID_SIZE) (Math_floor (inject_Z i / inject_Z GRID_SIZE)).

Definition gridIndices : list Z := seqZ 0 (GRID_SIZE * GRID_SIZE).

(** ** Vocabulary of the further properties *)

Definition colourOf (p : ProtocolType) : string :=
  match p with DIRECT => COLORS_direct | INVERTED => COLORS_inverted end.

(** What the feature gates of a level allow in one instruction. *)
Definition stepGated (level : Z) (s : CommandStep) : Prop :=
  (frame s = ABSOLUTE <-> isCardinal (dir s) = true)
  /\ (level < 7 -> frame s = RELATIVE)
  /\ (level < 4 -> protocol s = DIRECT)
  /\ (level < 12 -> displayColor s = colourOf (protocol s))
  /\ (displayColor s = COLORS_direct \/ displayColor s = COLORS_inverted).

(** The square the anchor is drawn from. *)
Definition padded (level : Z) (a : Cell) : Prop :=
  padding level <= cx a < GRID_SIZE - padding level
  /\ padding level <= cy a < GRID_SIZE - padding level.

Definition manhattan (a b : Cell) : Z := Z.abs (cx a - cx b) + Z.abs (cy a - cy b).

(** Consecutive cells of a walk are neighbours. *)
Fixpoint neighbours (p : Cell) (walk : list Cell) : Prop :=
  match walk with
  | [] => True
  | q :: rest => manhattan p q = 1 /\ neighbours q rest
  end.

(** Every candidate the search has drawn so far. *)
Definition searchedVars (level : Z) (v : Vars) : Prop :=
  (forall a, newAnchor v = Some a -> padded level a)
  /\ (forall r, newRot v = Some r -> cardinalRotation r)
  /\ (forall ch, newChain v = Some ch -> Forall (stepGated level) ch).

(** Counters that make sense as a failure rate. *)
Definition tagsSound (t : gmap string MetricData) : Prop :=
  forall key, 0 <= failuresOf t key <= attemptsOf t key.

Definition allDirections : list Direction :=
  [FRONT; BACK; LEFT; RIGHT; NORTH; SOUTH; EAST; WEST].

Definition sumZ (l : list Z) : Z := fold_right Z.add 0 l.

(** The three families of counters count the same instructions: the two
    protocol counters add up to the two frame counters, and each protocol
    counter is the sum of its eight (protocol, direction) counters. *)
Definition tagsBalanced (count : gmap string MetricData -> string -> Z)
    (t : gmap string MetricData) : Prop :=
  count t "DIRECT" + count t "INVERTED" = count t "RELATIVE" + count t "ABSOLUTE"
  /\ forall p, count t (protocolName p)
               = sumZ (List.map (fun d => count t (tagKeyString (CompoundKey p d)))
                         allDirections).

(** The session counters behind the accuracy figure. *)
Definition countersSound (g : GameState) : Prop :=
  0 <= sessionCorrect g <= sessionTotal g.

(** Only sessions that scored above the threshold are kept. *)
Definition sessionsScored (g : GameState) : Prop :=
  Forall (fun s => (100 < sessionScore s)%Q) (sessions (analytics g)).

Definition confirmedReset (e : Event) : Prop := e = EvResetProgress true.

(** The level a pending callback will put back is one the player has
    reached. *)
Definition taskLevels (highest : Z) (t : Task) : Prop :=
  match t with
  | AfterSuccess _ l | FramePlayingLevel l => 1 <= l
  | AfterFailure _ l _ | FramePlayingRestored l _ => 1 <= l <= highest
  | AfterLevelUp _ | AfterLevelDown _ | FramePlaying | FramePlayingStable => True
  end.

Definition levelsSound (m : Machine) : Prop :=
  1 <= currentLevel (game m) <= maxLevel (game m)
  /\ Forall (taskLevels (maxLevel (game m))) (pending m).

(** The puzzle on the board, once [generateLevel] has run. *)
Definition board (m : Machine) : option Puzzle :=
  match targetPos m with
  | Some t => Some (mkPuzzle (anchorPos m) (anchorRotation m) (chain m) t)
  | None => None
  end.

(** The board holds a valid puzzle; before the first one is generated no
    round is in play and no callback is pending. *)
Definition boardSound (m : Machine) : Prop :=
  match board m with
  | Some p => validPuzzle p /\ inGrid (anchorCell p) /\ inGrid (targetCell p)
  | None => status (game m) <> playing /\ pending m = []
  end.

(** The grid index at which a cell is drawn. *)
Definition indexOfCell (c : Cell) : Z := cy c * GRID_SIZE + cx c.

(** The level for which a scheduled callback calls [generateLevel], if it
    does. *)
Definition taskGenerates (t : Task) : option Z :=
  match t with
  | AfterSuccess nextStatus nextLevel =>
      if decide (nextStatus = level_up) then None else Some nextLevel
  | AfterFailure nextStatus nextLevel _ =>
      if decide (nextStatus = level_down) then None else Some nextLevel
  | AfterLevelUp nextLevel | AfterLevelDown nextLevel => Some nextLevel
  | FramePlaying | FramePlayingLevel _ | FramePlayingStable
  | FramePlayingRestored _ _ => None
  end.

(** Input that only acts on a round in play: an interval tick or the
    selection of a cell. *)
Definition roundInput (e : Event) : Prop :=
  e = EvTick \/ exists x y, e = EvCellClick x y.

(** In the earlier component the target is assigned together with [valid]. *)
Definition legacyVars (level : Z) (v : Vars) : Prop :=
  acceptedVars level v /\ (valid v = false -> finalX v = None).

(** ** Persistence

    The two effects that load and store progress and the write of
    [resetProgress].  [localStorage] is a finite map from keys to texts, an
    absent key being [null].  A text is modelled by what the code can
    observe of it: whether it is empty (and so falsy), whether [JSON.parse]
    or the field accesses that follow throw on it, and otherwise the fields
    the component reads from the parsed object, taken to hold values of the
    types the component writes; [JSON.stringify] of an object is the text
    with those fields. *)
Module Persistence.

(** The fields read or written; [None] is an absent field. *)
Record Saved : Type := mkSaved {
  savedLevel : option Z;
  savedMaxLevel : option Z;
  savedStability : option Q;
  savedScore : option Q;
  savedAnalytics : option AnalyticsState;
  savedCorrect : option Z;
  savedTotal : option Z
}.

Inductive Item : Type :=
  | EmptyText
  | Corrupt
  | Json (data : Saved).

Definition Storage : Type := gmap string Item.

Definition PERMANENT_KEY : string := "rft_trainer_universal_save_v3".

Definition LEGACY_KEYS : list string :=
  ["rft_trainer_universal_save_v2"; "rft_trainer_universal_save";
   "vector_frame_persistent_v4"]%string.

(** Truthiness of the result of [getItem]. *)
Definition hasText (item : option Item) : bool :=
  match item with
  | None | Some EmptyText => false
  | Some Corrupt | Some (Json _) => true
  end.

(** [x || d] on a number field: absent and 0 are falsy. *)
Definition orZ (x : option Z) (d : Z) : Z :=
  match x with
  | Some v => if v =? 0 then d else v
  | None => d
  end.

Definition orQ (x : option Q) (d : Q) : Q :=
  match x with
  | Some v => if Qeq_bool v 0 then d else v
  | None => d
  end.

Definition emptyAnalytics : AnalyticsState := mkAnalytics ∅ [].

(** [{...parsed, analytics: parsed.analytics || {...}, sessionCorrect: 0,
    sessionTotal: 0}]. *)
Definition migratedState (parsed : Saved) : Saved :=
  mkSaved (savedLevel parsed) (savedMaxLevel parsed) (savedStability parsed)
          (savedScore parsed)
          (Some (default emptyAnalytics (savedAnalytics parsed)))
          (Some 0) (Some 0).

(** The loop over [LEGACY_KEYS]: the value of [saved] and the storage when it
    ends, or [None] when [JSON.parse] threw. *)
Fixpoint migrate (keys : list string) (storage : Storage)
  : option (option Item * Storage) :=
  match keys with
  | [] => Some (storage !! PERMANENT_KEY, storage)
  | key :: rest =>
      match storage !! key with
      | Some (Json parsed) =>
          let saved := Json (migratedState parsed) in
          Some (Some saved, <[PERMANENT_KEY := saved]> storage)
      | Some Corrupt => None
      | Some EmptyText | None => migrate rest storage
      end
  end.

(** The update of [setGame] in the loading effect. *)
Definition restore (data : Saved) (prev : GameState) : GameState :=
  mkGame (status prev) (orZ (savedLevel data) 1)
         (match savedStability data with Some s => s | None => 50%Q end)
         (orZ (savedMaxLevel data) 1) (orQ (savedScore data) 0)
         (multiplier prev) (streak prev) (soundEnabled prev) (isPracticeMode prev)
         (default emptyAnalytics (savedAnalytics data))
         (sessionCorrect prev) (sessionTotal prev).

(** The loading effect; [setIsLoaded(true)] is reached on every path.  An
    exception is caught and leaves the game state as it was. *)
Definition load (storage : Storage) (prev : GameState) : Storage * GameState :=
  let found :=
    if hasText (storage !! PERMANENT_KEY)
    then Some (storage !! PERMANENT_KEY, storage)
    else migrate LEGACY_KEYS storage in
  match found with
  | Some (Some (Json data), storage') => (storage', restore data prev)
  | Some (_, storage') => (storage', prev)
  | None => (storage, prev)
  end.

(** The object written by the saving effect. *)
Definition snapshot (g : GameState) : Saved :=
  mkSaved (Some (currentLevel g)) (Some (maxLevel g)) (Some (stability g))
          (Some (score g)) (Some (analytics g)) None None.

Definition save (isLoaded : bool) (g : GameState) (storage : Storage) : Storage :=
  if isLoaded && negb (bool_decide (status g = idle))
  then <[PERMANENT_KEY := Json (snapshot g)]> storage
  else storage.

(** [newState] of [resetProgress] and its write. *)
Definition resetState (g : GameState) : Saved :=
  mkSaved (Some 1) (Some (maxLevel g)) (Some 50%Q) (Some 0%Q) (Some emptyAnalytics)
          (Some 0) (Some 0).

Definition resetWrite (g : GameState) (storage : Storage) : Storage :=
  <[PERMANENT_KEY := Json (resetState g)]> storage.

End Persistence.

(** ** Vocabulary of the number model *)

(** A rotation whose sum with every angle offset is computed exactly. *)
Definition exactRotation (rotation : Z) : Prop := Z.abs rotation + 270 <= MAX_EXACT.

(** Half the smallest positive double: the rounding error of a subnormal
    result. *)
Definition tinyDouble : Q := (2 ^ (-1075))%Q.

(** The relative rounding error of a normal result, 2^-53. *)
Definition unitRoundoff : Q := 1 # 9007199254740992.

(** 2^-45: bounds the rounding error of a result of magnitude up to 128. *)
Definition roundingSlack : Q := 1 # 35184372088832.

(** * Properties *)

(** ** Geometry *)

Lemma roundInteger_exact z : Z.abs z <= MAX_EXACT -> roundInteger z = z.
Proof.
  intros H. unfold roundInteger. destruct (Z.leb_spec (Z.abs z) MAX_EXACT); [reflexivity | lia].
Qed.

Lemma safeMod_mod n m : 0 < m -> 2 * m <= MAX_EXACT -> safeMod n m = n mod m.
Proof.
  intros Hm Hx. unfold safeMod.
  pose proof (Z.rem_bound_abs n m ltac:(lia)) as Hr.
  rewrite roundInteger_exact by lia.
  rewrite Z.rem_mod_nonneg by lia.
  replace (Z.rem n m + m) with (Z.rem n m + 1 * m) by lia.
  rewrite Z.mod_add by lia.
  rewrite (Z.quot_rem' n m) at 2.
  rewrite Z.add_comm, (Z.mul_comm m), Z.mod_add by lia.
  reflexivity.
Qed.

Lemma cardinalRotation_exact r : cardinalRotation r -> exactRotation r.
Proof. unfold exactRotation, MAX_EXACT. intros [-> | [-> | [-> | ->]]]; cbn; lia. Qed.

Lemma angleOffset_range d : 0 <= angleOffset d <= 270.
Proof. destruct d; cbn; lia. Qed.

Lemma getVector_cardinal r d : isCardinal d = true -> getVector r d = getVector 0 d.
Proof. destruct d; simpl; intros H; try discriminate; reflexivity. Qed.

Lemma getVector_body r d :
  isCardinal d = false -> exactRotation r ->
  getVector r d = vectorOfAngle ((r + angleOffset d) mod 360).
Proof.
  intros H Hx. pose proof (angleOffset_range d) as Ho. unfold exactRotation in Hx.
  assert (E : getVector r d
              = vectorOfAngle (safeMod (roundInteger (r + angleOffset d)) 360))
    by (destruct d; try discriminate; reflexivity).
  rewrite E, roundInteger_exact by lia.
  rewrite safeMod_mod by (unfold MAX_EXACT; lia). reflexivity.
Qed.

(** A quarter turn lands on one of the four tested angles. *)
Lemma quarter_turn_angle r off :
  r mod 90 = 0 -> off mod 90 = 0 ->
  let a := (r + off) mod 360 in a = 0 \/ a = 90 \/ a = 180 \/ a = 270.
Proof.
  intros Hr Ho a.
  pose proof (Z.mod_pos_bound (r + off) 360 ltac:(lia)) as Hb.
  pose proof (Z.div_mod (r + off) 360 ltac:(lia)) as Hd.
  pose proof (Z.div_mod r 90 ltac:(lia)) as Hr'.
  pose proof (Z.div_mod off 90 ltac:(lia)) as Ho'.
  subst a. lia.
Qed.

Lemma other_angle r off :
  r mod 90 <> 0 -> off mod 90 = 0 ->
  let a := (r + off) mod 360 in a <> 0 /\ a <> 90 /\ a <> 180 /\ a <> 270.
Proof.
  intros Hr Ho a.
  pose proof (Z.mod_pos_bound r 90 ltac:(lia)) as Hb.
  pose proof (Z.div_mod (r + off) 360 ltac:(lia)) as Hd.
  pose proof (Z.div_mod r 90 ltac:(lia)) as Hr'.
  pose proof (Z.div_mod off 90 ltac:(lia)) as Ho'.
  subst a. lia.
Qed.

(** The same for the bare remainder of the earlier component, which keeps
    the sign of the angle. *)
Lemma other_remainder r off :
  r mod 90 <> 0 -> off mod 90 = 0 ->
  let a := Z.rem (r + off) 360 in a <> 0 /\ a <> 90 /\ a <> 180 /\ a <> 270.
Proof.
  intros Hr Ho a.
  pose proof (Z.mod_pos_bound r 90 ltac:(lia)) as Hb.
  pose proof (Z.quot_rem' (r + off) 360) as Hd.
  pose proof (Z.div_mod r 90 ltac:(lia)) as Hr'.
  pose proof (Z.div_mod off 90 ltac:(lia)) as Ho'.
  subst a. lia.
Qed.

Lemma angleOffset_quarter d : angleOffset d mod 90 = 0.
Proof. destruct d; reflexivity. Qed.

Lemma vectorOfAngle_unit a :
  a = 0 \/ a = 90 \/ a = 180 \/ a = 270 -> isUnitVec (vectorOfAngle a).
Proof.
  unfold isUnitVec. intros [-> | [-> | [-> | ->]]]; simpl; lia.
Qed.

Lemma vectorOfAngle_zero a :
  a <> 0 /\ a <> 90 /\ a <> 180 /\ a <> 270 -> vectorOfAngle a = mkVec 0 0.
Proof.
  intros (H0 & H1 & H2 & H3). unfold vectorOfAngle.
  repeat match goal with
         | |- context [?x =? ?y] => destruct (Z.eqb_spec x y); [lia |]
         end.
  reflexivity.
Qed.

Lemma isUnitVec_nonzero v : isUnitVec v -> v <> mkVec 0 0.
Proof. unfold isUnitVec. intros H ->. simpl in H. lia. Qed.

Lemma cardinalRotation_quarter r : cardinalRotation r -> r mod 90 = 0.
Proof. intros [-> | [-> | [-> | ->]]]; reflexivity. Qed.

(** With an exact rotation that is a multiple of 90 every direction
    resolves to a unit vector, and opposite directions resolve to opposite
    vectors. *)
Lemma getVector_unit_quarter r d :
  r mod 90 = 0 -> exactRotation r -> isUnitVec (getVector r d).
Proof.
  intros Hr Hx. destruct (isCardinal d) eqn:Hc.
  - destruct d; try discriminate; unfold isUnitVec; simpl; lia.
  - rewrite getVector_body by assumption.
    apply vectorOfAngle_unit, quarter_turn_angle; auto using angleOffset_quarter.
Qed.

Lemma getVector_opposite r d :
  r mod 90 = 0 -> exactRotation r ->
  getVector r (getOpposite d) = negVec (getVector r d).
Proof.
  intros Hr Hx.
  assert (Hk : exists k, r = 360 * k \/ r = 360 * k + 90
                         \/ r = 360 * k + 180 \/ r = 360 * k + 270).
  { exists (r / 360).
    pose proof (Z.div_mod r 360 ltac:(lia)).
    pose proof (Z.mod_pos_bound r 360 ltac:(lia)).
    pose proof (Z.div_mod r 90 ltac:(lia)). lia. }
  destruct Hk as [k Hk].
  assert (Hred : forall c, 0 <= c < 360 -> (360 * k + c) mod 360 = c).
  { intros c Hc. rewrite Z.add_comm, Z.mul_comm, Z.mod_add by lia.
    apply Z.mod_small; lia. }
  assert (Hred' : forall c, 360 <= c < 720 -> (360 * k + c) mod 360 = c - 360).
  { intros c Hc. replace (360 * k + c) with (360 * (k + 1) + (c - 360)) by lia.
    rewrite Z.add_comm, Z.mul_comm, Z.mod_add by lia. apply Z.mod_small; lia. }
  destruct d; try reflexivity;
    unfold getOpposite; rewrite !getVector_body by (reflexivity || exact Hx);
    unfold angleOffset;
    destruct Hk as [-> | [-> | [-> | ->]]];
    rewrite <- ?Z.add_assoc; simpl Z.add;
    rewrite ?Z.add_0_r;
    repeat first [ rewrite Hred by lia | rewrite Hred' by lia
                 | rewrite Z.mul_comm, Z.mod_mul by lia ];
    reflexivity.
Qed.

(** C7. For a rotation among 0, 90, 180 and 270: the four world-fixed
    directions resolve to their fixed unit vectors, whatever the rotation;
    FRONT and BACK resolve to opposite vectors, and so do LEFT and RIGHT;
    and [getOpposite] is its own inverse on all eight directions. *)
Theorem resolver_laws (r : Z) :
  cardinalRotation r ->
  (getVector r NORTH = mkVec 0 (-1) /\ getVector r SOUTH = mkVec 0 1
   /\ getVector r EAST = mkVec 1 0 /\ getVector r WEST = mkVec (-1) 0)
  /\ (forall r' d, isCardinal d = true -> getVector r' d = getVector r d)
  /\ getVector r BACK = negVec (getVector r FRONT)
  /\ getVector r FRONT = negVec (getVector r BACK)
  /\ getVector r RIGHT = negVec (getVector r LEFT)
  /\ getVector r LEFT = negVec (getVector r RIGHT)
  /\ (forall d, getOpposite (getOpposite d) = d).
Proof.
  intros Hr. pose proof (cardinalRotation_exact r Hr) as Hx.
  apply cardinalRotation_quarter in Hr.
  repeat split; try reflexivity.
  - intros r' d Hd. now rewrite (getVector_cardinal r' d Hd), (getVector_cardinal r d Hd).
  - apply (getVector_opposite r FRONT Hr Hx).
  - apply (getVector_opposite r BACK Hr Hx).
  - apply (getVector_opposite r LEFT Hr Hx).
  - apply (getVector_opposite r RIGHT Hr Hx).
  - intros d. destruct d; reflexivity.
Qed.

Lemma resolver_laws_witness :
  cardinalRotation 90 /\ getVector 90 BACK = negVec (getVector 90 FRONT).
Proof.
  assert (H : cardinalRotation 90) by (right; left; reflexivity).
  split; [exact H |].
  destruct (resolver_laws 90 H) as (_ & _ & Hfb & _). exact Hfb.
Defined.

(** C10 as stated fails in its last part: outside 0, 90, 180, 270 a
    body-fixed direction does not always give the zero vector, since the
    angle is first reduced modulo 360. *)
Lemma zero_vector_claim_fails :
  ~ cardinalRotation 360 /\ isCardinal FRONT = false
  /\ getVector 360 FRONT = mkVec 0 (-1) /\ getVector 360 FRONT <> mkVec 0 0.
Proof.
  split; [unfold cardinalRotation; lia |].
  split; [reflexivity |]. split; [reflexivity | discriminate].
Qed.

(** Above 2^53 the sums are rounded, and the results are those of the
    rounded sums: at rotation 45 * 2^54, a multiple of 360, adding 90 gives
    128 more; [safeMod] of 2^53 - 2 by 2^53 - 1 loses 1; and at
    576460752303432832, which is not a multiple of 90, adding 90 gives a
    multiple of 360. *)
Example getVector_rounding :
  (getVector (45 * 2 ^ 54) FRONT = mkVec 0 (-1)
   /\ getVector (45 * 2 ^ 54) RIGHT = mkVec 0 0
   /\ getVector (45 * 2 ^ 54) BACK = mkVec 0 0
   /\ getVector (45 * 2 ^ 54) LEFT = mkVec 0 0)
  /\ safeMod (2 ^ 53 - 2) (2 ^ 53 - 1) = 2 ^ 53 - 3
  /\ (576460752303432832 mod 90 = 52
      /\ roundInteger (576460752303432832 + 90) = 576460752303432832 + 128
      /\ getVector 576460752303432832 RIGHT = mkVec 0 (-1)).
Proof. vm_compute. repeat split. Qed.

Lemma legacy_getVector_body r d :
  isCardinal d = false -> exactRotation r ->
  Legacy.getVector r d = vectorOfAngle (Z.rem (r + angleOffset d) 360).
Proof.
  intros H Hx. pose proof (angleOffset_range d) as Ho. unfold exactRotation in Hx.
  assert (E : Legacy.getVector r d
              = vectorOfAngle (Z.rem (roundInteger (r + angleOffset d)) 360))
    by (destruct d; try discriminate; reflexivity).
  rewrite E, roundInteger_exact by lia. reflexivity.
Qed.

Lemma legacy_getVector_agrees r d :
  cardinalRotation r -> Legacy.getVector r d = getVector r d.
Proof. intros [-> | [-> | [-> | ->]]]; destruct d; reflexivity. Qed.

(** C10, amended.  [getVector], in the component and in the earlier one, is
    a total function.  For a rotation among 0, 90, 180 and 270 it returns a
    unit vector for every direction, so the final
    [return { dx: 0, dy: 0 }] is not reached.  For a body-fixed direction
    and an integer rotation that is not a multiple of 90 (of a magnitude at
    which the sum with the offset is exact) the zero vector is returned,
    silently.  Nothing is said of the other multiples of 90. *)
Theorem getVector_unit_or_zero (r : Z) (d : Direction) :
  (cardinalRotation r ->
   isUnitVec (getVector r d) /\ getVector r d <> mkVec 0 0
   /\ isUnitVec (Legacy.getVector r d) /\ Legacy.getVector r d <> mkVec 0 0)
  /\ (isCardinal d = false -> exactRotation r -> r mod 90 <> 0 ->
      getVector r d = mkVec 0 0 /\ Legacy.getVector r d = mkVec 0 0).
Proof.
  split.
  - intros Hr. rewrite (legacy_getVector_agrees r d Hr).
    pose proof (getVector_unit_quarter r d (cardinalRotation_quarter r Hr)
                  (cardinalRotation_exact r Hr)) as Hu.
    pose proof (isUnitVec_nonzero _ Hu) as Hn. auto.
  - intros Hd Hx Hr. split.
    + rewrite getVector_body by assumption.
      apply vectorOfAngle_zero, other_angle; auto using angleOffset_quarter.
    + rewrite legacy_getVector_body by assumption.
      apply vectorOfAngle_zero, other_remainder; auto using angleOffset_quarter.
Qed.

Lemma getVector_unit_or_zero_witness :
  (cardinalRotation 270 /\ isUnitVec (getVector 270 LEFT)
   /\ isUnitVec (Legacy.getVector 270 LEFT))
  /\ (isCardinal BACK = false /\ exactRotation (-45) /\ (-45) mod 90 <> 0
      /\ getVector (-45) BACK = mkVec 0 0 /\ Legacy.getVector (-45) BACK = mkVec 0 0).
Proof.
  assert (H270 : cardinalRotation 270) by (do 3 right; reflexivity).
  assert (H45 : (-45) mod 90 <> 0) by (vm_compute; discriminate).
  assert (Hx : exactRotation (-45)) by (unfold exactRotation, MAX_EXACT; cbn; lia).
  split.
  - split; [exact H270 |].
    destruct (proj1 (getVector_unit_or_zero 270 LEFT) H270) as (H1 & _ & H2 & _).
    exact (conj H1 H2).
  - split; [reflexivity | split; [exact Hx | split; [exact H45 |]]].
    exact (proj2 (getVector_unit_or_zero (-45) BACK) eq_refl Hx H45).
Defined.

(** ** Numbers *)

Lemma nearestEven_spec a b :
  0 <= a -> 0 < b ->
  0 <= nearestEven a b /\ - b <= 2 * (nearestEven a b * b - a) <= b.
Proof.
  intros Ha Hb. unfold nearestEven.
  pose proof (Z.div_mod a b ltac:(lia)) as Hd.
  pose proof (Z.mod_pos_bound a b Hb) as Hr.
  pose proof (Z.div_pos a b Ha Hb) as Hq.
  set (q := a / b) in *. set (r := a mod b) in *.
  assert (Hqb : q * b = a - r) by lia.
  destruct (Z.ltb_spec (2 * r) b); [split; lia |].
  destruct (Z.ltb_spec b (2 * r)); [split; lia |].
  destruct (Z.even q); split; lia.
Qed.

Lemma Qdiv_le_cross (x y u v : Q) :
  (0 < y)%Q -> (0 < v)%Q -> (x * v <= u * y)%Q -> (x / y <= u / v)%Q.
Proof.
  intros Hy Hv H. apply Qle_shift_div_l; [exact Hv |].
  assert (E : (x / y * v == x * v / y)%Q) by (field; lra).
  rewrite E. apply Qle_shift_div_r; [exact Hy | exact H].
Qed.

Lemma inject_pos z : 0 < z -> (0 < inject_Z z)%Q.
Proof. intros H. change 0%Q with (inject_Z 0). now rewrite <- Zlt_Qlt. Qed.

Lemma pow2_nonneg e : 0 <= e -> (2 ^ e == inject_Z (2 ^ e))%Q.
Proof. intros H. now rewrite Zpower_Qpower. Qed.

Lemma pow2_neg e : e < 0 -> (2 ^ e == 1 / inject_Z (2 ^ (- e)))%Q.
Proof.
  intros H. replace e with (- (- e)) at 1 by lia.
  rewrite Qpower_opp, pow2_nonneg by lia. field.
  pose proof (inject_pos (2 ^ (- e)) ltac:(apply Z.pow_pos_nonneg; lia)). lra.
Qed.

Lemma pow2_pos e : (0 < 2 ^ e)%Q.
Proof. apply Qpower_0_lt. reflexivity. Qed.

(** Moves an inequality between integers to the rationals. *)
Ltac to_Z :=
  change 2%Q with (inject_Z 2); change 1%Q with (inject_Z 1); change 0%Q with (inject_Z 0);
  unfold Qminus;
  repeat first [ rewrite <- inject_Z_mult | rewrite <- inject_Z_plus
               | rewrite <- inject_Z_opp ];
  first [ rewrite <- Zle_Qle | rewrite <- Zlt_Qlt ].

Lemma nearestEven_near a b :
  0 <= a -> 0 < b ->
  (Qabs (inject_Z (nearestEven a b) - inject_Z a / inject_Z b) <= 1 # 2)%Q.
Proof.
  intros Ha Hb. destruct (nearestEven_spec a b Ha Hb) as [_ [H1 H2]].
  pose proof (inject_pos b Hb) as HB.
  apply Qabs_Qle_condition.
  assert (E : (inject_Z (nearestEven a b) - inject_Z a / inject_Z b
               == (inject_Z (nearestEven a b) * inject_Z b - inject_Z a) / inject_Z b)%Q)
    by (field; lra).
  rewrite E.
  assert (Q1 : (- inject_Z b
                <= 2 * (inject_Z (nearestEven a b) * inject_Z b - inject_Z a))%Q)
    by (to_Z; lia).
  assert (Q2 : (2 * (inject_Z (nearestEven a b) * inject_Z b - inject_Z a)
                <= inject_Z b)%Q)
    by (to_Z; lia).
  set (NB := (inject_Z (nearestEven a b) * inject_Z b)%Q) in *.
  split.
  - apply Qle_shift_div_l; [exact HB | lra].
  - apply Qle_shift_div_r; [exact HB | lra].
Qed.

Lemma log2Ratio_le a b :
  0 < a -> 0 < b -> (2 ^ log2Ratio a b <= inject_Z a / inject_Z b)%Q.
Proof.
  intros Ha Hb. unfold log2Ratio.
  pose proof (inject_pos a Ha) as HA. pose proof (inject_pos b Hb) as HB.
  pose proof (Z.log2_spec a Ha) as [La _]. pose proof (Z.log2_spec b Hb) as [_ Lb].
  pose proof (Z.log2_nonneg a) as Na. pose proof (Z.log2_nonneg b) as Nb.
  set (la := Z.log2 a) in *. set (lb := Z.log2 b) in *.
  assert (Hlow : (2 ^ (la - lb - 1) <= inject_Z a / inject_Z b)%Q).
  { replace (la - lb - 1) with (la + - (lb + 1)) by lia.
    rewrite Qpower_plus by discriminate.
    rewrite Qpower_opp, !pow2_nonneg by lia.
    pose proof (inject_pos (2 ^ (lb + 1)) ltac:(apply Z.pow_pos_nonneg; lia)) as HP.
    change (inject_Z (2 ^ la) * / inject_Z (2 ^ (lb + 1)))%Q
      with (inject_Z (2 ^ la) / inject_Z (2 ^ (lb + 1)))%Q.
    apply Qdiv_le_cross; [exact HP | exact HB |].
    to_Z. apply Z.mul_le_mono_nonneg; try lia; apply Z.pow_nonneg; lia. }
  destruct (Z.leb_spec 0 (la - lb)) as [Hk | Hk].
  - destruct (Z.leb_spec (2 ^ (la - lb) * b) a) as [Ht | Ht]; [| exact Hlow].
    rewrite pow2_nonneg by exact Hk.
    apply Qle_shift_div_l; [exact HB |]. to_Z. lia.
  - destruct (Z.leb_spec b (2 ^ (- (la - lb)) * a)) as [Ht | Ht]; [| exact Hlow].
    rewrite pow2_neg by exact Hk.
    pose proof (inject_pos (2 ^ (- (la - lb))) ltac:(apply Z.pow_pos_nonneg; lia)) as HP.
    apply Qdiv_le_cross; [exact HP | exact HB |]. to_Z. lia.
Qed.

Lemma tinyDouble_small : (0 < tinyDouble)%Q /\ (tinyDouble <= 1 # 18446744073709551616)%Q.
Proof.
  split; [apply pow2_pos |]. unfold Qle. vm_compute. discriminate.
Qed.

Lemma unitRoundoff_pos : (0 < unitRoundoff)%Q.
Proof. reflexivity. Qed.

(** The magnitude of the result: it lies within half a unit in the last
    place of the magnitude of the argument. *)
Lemma roundDouble_magnitude a b :
  0 < a -> 0 < b ->
  let e := Z.max (log2Ratio a b - 52) (-1074) in
  let n := if 0 <=? e then nearestEven a (b * 2 ^ e) else nearestEven (a * 2 ^ (- e)) b in
  0 <= n
  /\ (Qabs (inject_Z n * 2 ^ e - inject_Z a / inject_Z b)
      <= inject_Z a / inject_Z b * unitRoundoff + tinyDouble)%Q.
Proof.
  intros Ha Hb e n.
  pose proof (inject_pos a Ha) as HA. pose proof (inject_pos b Hb) as HB.
  pose proof (pow2_pos e) as Hp.
  assert (Hx : (0 < inject_Z a / inject_Z b)%Q) by (apply Qlt_shift_div_l; lra).
  assert (Hn : 0 <= n
               /\ (Qabs (inject_Z n - inject_Z a / inject_Z b / 2 ^ e) <= 1 # 2)%Q).
  { subst n. destruct (Z.leb_spec 0 e) as [He | He].
    - assert (HP : 0 < 2 ^ e) by (apply Z.pow_pos_nonneg; lia).
      split; [apply nearestEven_spec; nia |].
      pose proof (nearestEven_near a (b * 2 ^ e) ltac:(lia) ltac:(nia)) as H.
      rewrite inject_Z_mult, <- pow2_nonneg in H by exact He.
      assert (E : (inject_Z a / (inject_Z b * 2 ^ e)
                   == inject_Z a / inject_Z b / 2 ^ e)%Q) by (field; lra).
      now rewrite <- E.
    - assert (HP : 0 < 2 ^ (- e)) by (apply Z.pow_pos_nonneg; lia).
      split; [apply nearestEven_spec; nia |].
      pose proof (nearestEven_near (a * 2 ^ (- e)) b ltac:(nia) Hb) as H.
      rewrite inject_Z_mult in H.
      pose proof (pow2_neg e He) as E2.
      pose proof (inject_pos _ HP) as HPq.
      assert (E : (inject_Z a * inject_Z (2 ^ (- e)) / inject_Z b
                   == inject_Z a / inject_Z b / 2 ^ e)%Q).
      { rewrite E2. field. lra. }
      now rewrite <- E. }
  destruct Hn as [Hn0 Hn]. split; [exact Hn0 |].
  assert (Hhalf : (Qabs (inject_Z n * 2 ^ e - inject_Z a / inject_Z b)
                   <= 2 ^ e * (1 # 2))%Q).
  { apply Qabs_Qle_condition in Hn. apply Qabs_Qle_condition.
    set (x := (inject_Z a / inject_Z b)%Q) in *.
    assert (E : (inject_Z n * 2 ^ e - x == (inject_Z n - x / 2 ^ e) * 2 ^ e)%Q)
      by (field; lra).
    rewrite E. set (d := (inject_Z n - x / 2 ^ e)%Q) in *. clearbody d.
    set (p := (2 ^ e)%Q) in *. clearbody p. nra. }
  eapply Qle_trans; [exact Hhalf |].
  pose proof tinyDouble_small as [Ht _]. pose proof unitRoundoff_pos as Hc.
  destruct (Z.max_spec (log2Ratio a b - 52) (-1074)) as [[_ Hm] | [_ Hm]]; fold e in Hm.
  - rewrite Hm. change (2 ^ (-1074) * (1 # 2))%Q with (2 ^ (-1074) * 2 ^ (-1))%Q.
    rewrite <- Qpower_plus by discriminate. change (-1074 + -1) with (-1075).
    fold tinyDouble. set (x := (inject_Z a / inject_Z b)%Q) in *.
    clearbody x. generalize dependent tinyDouble. generalize dependent unitRoundoff.
    intros c Hc t Ht. nra.
  - rewrite Hm. pose proof (log2Ratio_le a b Ha Hb) as Hl.
    replace (log2Ratio a b - 52) with (log2Ratio a b + -52) by lia.
    rewrite Qpower_plus by discriminate.
    assert (E52 : (2 ^ (-52) * (1 # 2) == unitRoundoff)%Q) by reflexivity.
    set (x := (inject_Z a / inject_Z b)%Q) in *.
    set (l := (2 ^ log2Ratio a b)%Q) in *.
    rewrite <- Qmult_assoc, E52. clearbody l x.
    generalize dependent tinyDouble. generalize dependent unitRoundoff.
    intros c Hc _ t Ht. nra.
Qed.

(** Rounding keeps the sign, and its error is at most the relative
    [unitRoundoff] plus [tinyDouble]. *)
Lemma roundDouble_spec (x : Q) :
  ((0 <= x)%Q ->
   (0 <= roundDouble x)%Q
   /\ (x - x * unitRoundoff - tinyDouble <= roundDouble x
       <= x + x * unitRoundoff + tinyDouble)%Q)
  /\ ((x <= 0)%Q ->
      (roundDouble x <= 0)%Q
      /\ (x + x * unitRoundoff - tinyDouble <= roundDouble x
          <= x - x * unitRoundoff + tinyDouble)%Q).
Proof.
  destruct x as [num den].
  pose proof tinyDouble_small as [Ht _]. pose proof unitRoundoff_pos as Hc.
  assert (Ex : (num # den == inject_Z num / inject_Z (Zpos den))%Q) by apply Qmake_Qdiv.
  assert (HB : (0 < inject_Z (Zpos den))%Q) by (apply inject_pos; lia).
  destruct num as [| p | p].
  - assert (E0 : (0 # den == 0)%Q) by reflexivity.
    assert (R0 : (roundDouble (0 # den) == 0)%Q) by reflexivity.
    rewrite R0, E0. split; intros _; (split; [lra |]);
      generalize dependent tinyDouble; generalize dependent unitRoundoff;
      intros c Hc t Ht; lra.
  - destruct (roundDouble_magnitude (Zpos p) (Zpos den) ltac:(lia) ltac:(lia)) as [Hn He].
    cbn zeta in Hn, He.
    assert (Er : roundDouble (Z.pos p # den)
                 = (inject_Z (1 * (if 0 <=? Z.max (log2Ratio (Z.pos p) (Z.pos den) - 52) (-1074)
                                   then nearestEven (Z.pos p)
                                          (Z.pos den
                                           * 2 ^ Z.max (log2Ratio (Z.pos p) (Z.pos den) - 52)
                                                   (-1074))
                                   else nearestEven
                                          (Z.pos p
                                           * 2 ^ (- Z.max (log2Ratio (Z.pos p) (Z.pos den) - 52)
                                                      (-1074)))
                                          (Z.pos den)))
                    * 2 ^ Z.max (log2Ratio (Z.pos p) (Z.pos den) - 52) (-1074))%Q)
      by reflexivity.
    rewrite Er, Z.mul_1_l. clear Er.
    set (m := (inject_Z _ * 2 ^ _)%Q) in *.
    assert (Hm : (0 <= m)%Q).
    { apply Qmult_le_0_compat; [| apply Qlt_le_weak, pow2_pos].
      change 0%Q with (inject_Z 0). rewrite <- Zle_Qle. exact Hn. }
    assert (Hpos : (0 < Z.pos p # den)%Q) by reflexivity.
    rewrite <- Ex in He. apply Qabs_Qle_condition in He.
    clearbody m. set (x := (Z.pos p # den)%Q) in *. clearbody x.
    generalize dependent tinyDouble. generalize dependent unitRoundoff.
    intros c Hc He t Ht. split; intros Hx; split; lra.
  - destruct (roundDouble_magnitude (Zpos p) (Zpos den) ltac:(lia) ltac:(lia)) as [Hn He].
    cbn zeta in Hn, He.
    assert (Er : roundDouble (Z.neg p # den)
                 = (inject_Z (-1 * (if 0 <=? Z.max (log2Ratio (Z.pos p) (Z.pos den) - 52) (-1074)
                                    then nearestEven (Z.pos p)
                                           (Z.pos den
                                            * 2 ^ Z.max (log2Ratio (Z.pos p) (Z.pos den) - 52)
                                                    (-1074))
                                    else nearestEven
                                           (Z.pos p
                                            * 2 ^ (- Z.max (log2Ratio (Z.pos p) (Z.pos den) - 52)
                                                       (-1074)))
                                           (Z.pos den)))
                    * 2 ^ Z.max (log2Ratio (Z.pos p) (Z.pos den) - 52) (-1074))%Q)
      by reflexivity.
    rewrite Er. clear Er.
    match goal with
    | |- context [inject_Z (-1 * ?k)] => replace (-1 * k) with (- k) by lia
    end.
    rewrite inject_Z_opp.
    assert (Ey : (Z.neg p # den == - (inject_Z (Zpos p) / inject_Z (Zpos den)))%Q).
    { rewrite Ex. change (Z.neg p) with (- Z.pos p). rewrite inject_Z_opp. field. lra. }
    rewrite Ey. apply Qabs_Qle_condition in He.
    match goal with
    | |- context [(- inject_Z ?k * ?pw)%Q] =>
        assert (Hm : (0 <= inject_Z k * pw)%Q)
          by (apply Qmult_le_0_compat;
              [change 0%Q with (inject_Z 0); rewrite <- Zle_Qle; exact Hn
              | apply Qlt_le_weak, pow2_pos]);
        assert (Eo : (- inject_Z k * pw == - (inject_Z k * pw))%Q) by ring;
        rewrite Eo; set (m := (inject_Z k * pw)%Q) in *; clearbody m
    end.
    assert (Hy : (0 < inject_Z (Z.pos p) / inject_Z (Z.pos den))%Q).
    { apply Qlt_shift_div_l; [exact HB |]. rewrite Qmult_0_l. apply inject_pos. lia. }
    set (y := (inject_Z (Z.pos p) / inject_Z (Z.pos den))%Q) in *. clearbody y.
    generalize dependent tinyDouble. generalize dependent unitRoundoff.
    intros c Hc He t Ht. split; intros Hx; split; lra.
Qed.

(** The same with a bound [B] on the magnitude of the argument. *)
Lemma roundDouble_near (x B : Q) :
  (- B <= x <= B)%Q ->
  (x - B * unitRoundoff - tinyDouble <= roundDouble x
   <= x + B * unitRoundoff + tinyDouble)%Q.
Proof.
  intros HB. pose proof tinyDouble_small as [Ht _]. pose proof unitRoundoff_pos as Hc.
  destruct (roundDouble_spec x) as [Hp Hn].
  set (c := unitRoundoff) in *. set (t := tinyDouble) in *. clearbody c t.
  destruct (Qlt_le_dec x 0) as [Hx | Hx].
  - destruct (Hn ltac:(lra)) as [_ H]. split; nra.
  - destruct (Hp Hx) as [_ H]. split; nra.
Qed.

(** The error terms are far below the quantities of the game: 2^-45 bounds
    the error of a result of magnitude up to 128. *)
Lemma rounding_small :
  (128 * unitRoundoff + tinyDouble <= roundingSlack)%Q
  /\ (unitRoundoff <= 1 # 1024)%Q.
Proof.
  pose proof tinyDouble_small as [_ Ht]. unfold unitRoundoff, roundingSlack. split; lra.
Qed.

(** ** Level generator *)

Lemma Qfrac_range q : (0 <= Qfrac q < 1)%Q.
Proof.
  unfold Qfrac. pose proof (Qfloor_le q) as Hl. pose proof (Qlt_floor q) as Hu.
  rewrite inject_Z_plus in Hu. change (inject_Z 1) with 1%Q in Hu. lra.
Qed.

(** [Math.floor(r * n)] for [r] in [0,1) is an index below [n]. *)
Lemma floor_scale_range (r : Q) (n : Z) :
  (0 <= r < 1)%Q -> 0 < n -> 0 <= Math_floor (r * inject_Z n) < n.
Proof.
  intros [H0 H1] Hn. unfold Math_floor.
  assert (Hq : (0 < inject_Z n)%Q) by (change 0%Q with (inject_Z 0); now rewrite <- Zlt_Qlt).
  split.
  - change 0 with (Qfloor 0). apply Qfloor_resp_le. nra.
  - rewrite Zlt_Qlt. eapply Qle_lt_trans; [apply Qfloor_le |]. nra.
Qed.

Lemma pick_index_range (dirs : list Direction) (r : Q) :
  (0 <= r < 1)%Q -> dirs <> [] ->
  (Z.to_nat (Math_floor (r * inject_Z (Z.of_nat (length dirs)))) < length dirs)%nat.
Proof.
  intros Hr Hd.
  assert (0 < Z.of_nat (length dirs)) by (destruct dirs; [congruence | simpl; lia]).
  pose proof (floor_scale_range r _ Hr H). lia.
Qed.

Section GeneratorFacts.

Variable random : nat -> Q.

Lemma Math_random_range c : (0 <= fst (Math_random random c) < 1)%Q.
Proof. apply Qfrac_range. Qed.

(** The displacement accumulated by the loop is the resolved displacement of
    the instruction it pushes. *)
Lemma genStep_vector level rot c :
  snd (fst (genStep random getVector level rot c))
  = stepVector rot (fst (fst (genStep random getVector level rot c))).
Proof.
  unfold genStep, bind, gated, ret, Math_random, stepVector.
  destruct (allowAbsolute level), (allowInversion level), (allowInterference level);
    cbn;
    repeat match goal with
           | |- context [Qgtb ?a ?b] => destruct (Qgtb a b); cbn
           end;
    reflexivity.
Qed.

Lemma outOfGrid_false x y : outOfGrid x y = false <-> inGrid (mkCell x y).
Proof. unfold outOfGrid, inGrid, GRID_SIZE. simpl. lia. Qed.

Lemma prefixPositions_app rot p l1 l2 :
  prefixPositions rot p (l1 ++ l2)
  = prefixPositions rot p l1 ++ prefixPositions rot (finalPosition rot p l1) l2.
Proof.
  revert p. induction l1 as [| s l1 IH]; intros p; simpl; [reflexivity |].
  f_equal. apply IH.
Qed.

Lemma finalPosition_app rot p l1 l2 :
  finalPosition rot p (l1 ++ l2) = finalPosition rot (finalPosition rot p l1) l2.
Proof. unfold finalPosition. apply fold_left_app. Qed.

(** What the [for] loop guarantees when it ends without [pathFailed]: the
    instructions it appended walk inside the grid from the starting cell to
    the final one, and fill every slot. *)
Lemma chainLoop_walk slots : forall level rot chain0 x0 y0 c chain1 x1 y1 c1,
  chainLoop random getVector slots level rot chain0 x0 y0 c
    = ((chain1, x1, y1, false), c1) ->
  exists steps,
    chain1 = chain0 ++ steps
    /\ length steps = slots
    /\ Forall inGrid (prefixPositions rot (mkCell x0 y0) steps)
    /\ finalPosition rot (mkCell x0 y0) steps = mkCell x1 y1.
Proof.
  induction slots as [| slots IH]; intros level rot chain0 x0 y0 c chain1 x1 y1 c1 H.
  - cbn in H. injection H as <- <- <- <-. exists []. rewrite app_nil_r.
    repeat split. constructor.
  - cbn [chainLoop] in H. unfold bind in H.
    pose proof (genStep_vector level rot c) as Hv.
    destruct (genStep random getVector level rot c) as [[s v] c'] eqn:Hs.
    cbn in Hv. subst v.
    destruct (outOfGrid (x0 + dx (stepVector rot s)) (y0 + dy (stepVector rot s))) eqn:Hg.
    + cbn in H. discriminate H.
    + apply IH in H. destruct H as (steps & -> & Hlen & Hin & Hfin).
      exists (s :: steps). rewrite <- app_assoc. cbn.
      repeat split; [now rewrite Hlen | | exact Hfin].
      constructor; [| exact Hin]. apply outOfGrid_false, Hg.
Qed.

Lemma padding_cases level :
  padding level = 0 \/ padding level = 1 \/ padding level = 2.
Proof.
  unfold padding, chainLength.
  repeat match goal with |- context [if ?b then _ else _] => destruct b end; auto.
Qed.

Lemma attempt_count level v c :
  attemptCount (fst (attempt random level v c)) = attemptCount v + 1.
Proof.
  unfold attempt, bind, Math_random, ret.
  destruct (chainLoop _ _ _ _ _ _ _ _ _) as [[[[ch x] y] failed] c'].
  destruct (_ && _); reflexivity.
Qed.

Lemma attempt_accepted level v c :
  valid v = false -> acceptedVars level (fst (attempt random level v c)).
Proof.
  intros Hv. unfold attempt, bind, Math_random, ret.
  set (rx := Qfrac (random c)). set (ry := Qfrac (random (S c))).
  set (rr := Qfrac (random (S (S c)))).
  set (ax := Math_floor (rx * inject_Z (GRID_SIZE - padding level * 2)) + padding level).
  set (ay := Math_floor (ry * inject_Z (GRID_SIZE - padding level * 2)) + padding level).
  set (rot := Math_floor (rr * 4) * 90).
  cbn [cx cy].
  destruct (chainLoop _ _ _ _ _ _ _ _ _) as [[[[ch x] y] failed] c'] eqn:Hloop.
  destruct (negb failed && (negb (x =? ax) || negb (y =? ay))) eqn:Hok;
    unfold acceptedVars; cbn; [intros _ | congruence].
  apply andb_true_iff in Hok. destruct Hok as [Hf Hne].
  destruct failed; [discriminate |].
  apply chainLoop_walk in Hloop. destruct Hloop as (steps & -> & Hlen & Hin & Hfin).
  eexists. split; [reflexivity |].
  assert (Hpad : 0 < GRID_SIZE - padding level * 2 /\ 0 <= padding level
                 /\ GRID_SIZE - padding level * 2 + padding level <= GRID_SIZE).
  { unfold GRID_SIZE. destruct (padding_cases level) as [-> | [-> | ->]]; lia. }
  pose proof (floor_scale_range rx _ (Qfrac_range _) (proj1 Hpad)) as Hx.
  pose proof (floor_scale_range ry _ (Qfrac_range _) (proj1 Hpad)) as Hy.
  pose proof (floor_scale_range rr 4 (Qfrac_range _) ltac:(lia)) as Hr.
  change (inject_Z 4) with 4%Q in Hr.
  unfold acceptedPuzzle, validPuzzle, inGrid, cardinalRotation.
  cbn [anchorCell rotation instructions targetCell app cx cy].
  split; [split; [| split] | split; [| split]].
  - intros [= Ex Ey]. subst x y. rewrite !Z.eqb_refl in Hne. discriminate.
  - exact Hin.
  - now rewrite Hfin.
  - subst ax ay. lia.
  - subst rot. lia.
  - exact Hlen.
Qed.

Lemma whileLoop_accepted level fuel : forall v c,
  acceptedVars level v -> acceptedVars level (fst (whileLoop random fuel level v c)).
Proof.
  induction fuel as [| fuel IH]; intros v c Hv; cbn [whileLoop]; [exact Hv |].
  destruct (negb (valid v) && (attemptCount v <? MAX_ATTEMPTS)) eqn:Hg; [| exact Hv].
  unfold bind. destruct (attempt random level v c) as [v' c'] eqn:Ha.
  apply IH. apply andb_true_iff in Hg. destruct Hg as [Hg _].
  apply negb_true_iff in Hg.
  pose proof (attempt_accepted level v c Hg) as H. now rewrite Ha in H.
Qed.

(** The loop leaves through its own guard: once the fuel covers the attempts
    that remain under the cap, more fuel changes nothing. *)
Lemma whileLoop_fuel level fuel : forall extra v c,
  MAX_ATTEMPTS - attemptCount v <= Z.of_nat fuel ->
  whileLoop random (fuel + extra) level v c = whileLoop random fuel level v c.
Proof.
  induction fuel as [| fuel IH]; intros extra v c Hf.
  - destruct extra; cbn; [reflexivity |].
    replace (attemptCount v <? MAX_ATTEMPTS) with false
      by (symmetry; apply Z.ltb_ge; lia).
    now rewrite andb_false_r.
  - cbn [Nat.add whileLoop].
    destruct (negb (valid v) && (attemptCount v <? MAX_ATTEMPTS)); [| reflexivity].
    unfold bind. pose proof (attempt_count level v c) as Hc.
    destruct (attempt random level v c) as [v' c']. cbn in Hc.
    apply IH. lia.
Qed.

Lemma whileLoop_exits level fuel : forall v c,
  MAX_ATTEMPTS - attemptCount v <= Z.of_nat fuel ->
  attemptCount v <= MAX_ATTEMPTS ->
  let v' := fst (whileLoop random fuel level v c) in
  negb (valid v') && (attemptCount v' <? MAX_ATTEMPTS) = false
  /\ attemptCount v <= attemptCount v' <= MAX_ATTEMPTS.
Proof.
  induction fuel as [| fuel IH]; intros v c Hf Hle; cbn [whileLoop].
  - cbn. split; [| lia].
    replace (attemptCount v <? MAX_ATTEMPTS) with false
      by (symmetry; apply Z.ltb_ge; lia).
    apply andb_false_r.
  - destruct (negb (valid v) && (attemptCount v <? MAX_ATTEMPTS)) eqn:Hg.
    + unfold bind. pose proof (attempt_count level v c) as Hc.
      destruct (attempt random level v c) as [v' c']. cbn in Hc.
      apply andb_true_iff in Hg. destruct Hg as [_ Hg]. apply Z.ltb_lt in Hg.
      destruct (IH v' c' ltac:(lia) ltac:(lia)) as [H1 H2].
      split; [exact H1 | lia].
    + cbn. split; [exact Hg | lia].
Qed.

Lemma whileLoop_unfold level fuel v c :
  whileLoop random (S fuel) level v c
  = if negb (valid v) && (attemptCount v <? MAX_ATTEMPTS)
    then (let (v', c') := attempt random level v c in whileLoop random fuel level v' c')
    else (v, c).
Proof. cbn [whileLoop]. destruct (_ && _); reflexivity. Qed.

(** A search makes at least one attempt. *)
Lemma searchLevel_attempted level c :
  1 <= attemptCount (fst (searchLevel random level c)).
Proof.
  unfold searchLevel. change (Z.to_nat MAX_ATTEMPTS) with (S 499).
  rewrite whileLoop_unfold.
  change (negb (valid initialVars) && (attemptCount initialVars <? MAX_ATTEMPTS)) with true.
  cbv iota.
  pose proof (attempt_count level initialVars c) as Hc.
  destruct (attempt random level initialVars c) as [v' c'].
  cbn in Hc.
  assert (H1 : MAX_ATTEMPTS - attemptCount v' <= Z.of_nat 499)
    by (unfold MAX_ATTEMPTS; lia).
  assert (H2 : attemptCount v' <= MAX_ATTEMPTS) by (unfold MAX_ATTEMPTS; lia).
  pose proof (whileLoop_exits level 499 v' c' H1 H2) as [_ H].
  cbv zeta in H. lia.
Qed.

Lemma failsafe_accepted : validPuzzle failsafePuzzle /\ inGrid (anchorCell failsafePuzzle).
Proof.
  unfold validPuzzle, inGrid, GRID_SIZE. cbn. repeat split; try lia; try discriminate.
  repeat constructor; cbn; lia.
Qed.

(** Every variable handed to the setters has been assigned. *)
Lemma generateLevel_installed level c :
  exists p, installed (fst (generateLevelVars random level c)) = Some p
            /\ fst (generateLevel random level c) = p
            /\ (valid (fst (searchLevel random level c)) = true /\ acceptedPuzzle level p
                \/ valid (fst (searchLevel random level c)) = false /\ p = failsafePuzzle).
Proof.
  unfold generateLevel, generateLevelVars, bind, ret.
  pose proof (whileLoop_accepted level (Z.to_nat MAX_ATTEMPTS) initialVars c) as Hacc.
  fold (searchLevel random level c) in Hacc.
  destruct (searchLevel random level c) as [v c'] eqn:Hs. cbn [fst] in *.
  destruct (valid v) eqn:Hv.
  - assert (H0 : acceptedVars level initialVars) by (intros H; discriminate H).
    destruct (Hacc H0 Hv) as (p & Hp & Hok).
    exists p. cbn. rewrite Hp. auto.
  - exists failsafePuzzle. cbn. auto.
Qed.

Lemma last_prefix_inGrid rot p (steps : list CommandStep) :
  steps <> [] -> Forall inGrid (prefixPositions rot p steps) ->
  inGrid (finalPosition rot p steps).
Proof.
  revert p. induction steps as [| s steps IH]; intros p Hne Hall; [congruence |].
  cbn in Hall. inversion Hall as [| ? ? Hq Hrest]; subst.
  destruct steps as [| s' steps]; [exact Hq |].
  apply (IH _ ltac:(discriminate) Hrest).
Qed.

End GeneratorFacts.

(** X24. In [RelationalChain.tsx], for every level (so for 1 to 99) and
    whatever the random draws, the setters of [generateLevel] receive a
    defined puzzle whose target differs from its anchor, every prefix
    position of its chain lies in the 7x7 grid, and the target is the
    position the whole chain leads to; anchor and target are grid cells. *)
Theorem generateLevel_valid (random : nat -> Q) (level : Z) (c : nat) :
  exists p,
    installed (fst (generateLevelVars random level c)) = Some p
    /\ fst (generateLevel random level c) = p
    /\ targetCell p <> anchorCell p
    /\ Forall inGrid (prefixPositions (rotation p) (anchorCell p) (instructions p))
    /\ targetCell p = finalPosition (rotation p) (anchorCell p) (instructions p)
    /\ inGrid (anchorCell p) /\ inGrid (targetCell p).
Proof.
  destruct (generateLevel_installed random level c) as (p & Hi & Hg & Hp).
  exists p. split; [exact Hi |]. split; [exact Hg |].
  assert (H : validPuzzle p /\ inGrid (anchorCell p) /\ instructions p <> []).
  { destruct Hp as [[_ (Hv & Ha & _ & Hl)] | [_ ->]].
    - repeat split; try apply Hv; try apply Ha.
      intros E. rewrite E in Hl. unfold chainLength in Hl.
      repeat match type of Hl with context [if ?b then _ else _] => destruct b end;
        discriminate.
    - split; [apply failsafe_accepted |]. split; [apply failsafe_accepted | discriminate]. }
  destruct H as ((Hne & Hall & Hfin) & Ha & Hnil).
  repeat split; try assumption; try apply Ha.
  all: rewrite Hfin; now apply last_prefix_inGrid.
Qed.

(** X25. In [RelationalChain.tsx] the search loop of [generateLevel] stops
    through its own guard after at least one and at most 500 attempts (more
    unfolding changes nothing), and either it has found a candidate, which
    is what the setters receive, or all 500 attempts were used and the block
    under [if (!valid)] hands the setters the fixed failsafe: anchor (3,3),
    rotation 0, the single instruction DIRECT / ABSOLUTE / NORTH, target
    (3,2). *)
Theorem generateLevel_terminates (random : nat -> Q) (level : Z) (c : nat) :
  let v := fst (searchLevel random level c) in
  (forall extra, whileLoop random (Z.to_nat MAX_ATTEMPTS + extra) level initialVars c
                 = searchLevel random level c)
  /\ 1 <= attemptCount v <= 500
  /\ negb (valid v) && (attemptCount v <? MAX_ATTEMPTS) = false
  /\ (valid v = true /\ fst (generateLevelVars random level c) = v
      \/ (valid v = false /\ attemptCount v = 500
          /\ installed (fst (generateLevelVars random level c))
             = Some (mkPuzzle (mkCell 3 3) 0
                       [mkStep NORTH ABSOLUTE DIRECT FailsafeId COLORS_direct]
                       (mkCell 3 2))
          /\ fst (generateLevel random level c)
             = mkPuzzle (mkCell 3 3) 0
                 [mkStep NORTH ABSOLUTE DIRECT FailsafeId COLORS_direct]
                 (mkCell 3 2))).
Proof.
  cbn zeta.
  assert (Hf : MAX_ATTEMPTS - attemptCount initialVars <= Z.of_nat (Z.to_nat MAX_ATTEMPTS))
    by (unfold MAX_ATTEMPTS, initialVars, attemptCount; lia).
  assert (H0 : attemptCount initialVars <= MAX_ATTEMPTS)
    by (unfold MAX_ATTEMPTS, initialVars, attemptCount; lia).
  pose proof (whileLoop_exits random level (Z.to_nat MAX_ATTEMPTS) initialVars c Hf H0)
    as [Hg Hb].
  fold (searchLevel random level c) in Hg, Hb. cbn zeta in Hg, Hb.
  pose proof (searchLevel_attempted random level c) as H1.
  split; [| split; [| split]].
  - intros extra. apply whileLoop_fuel. exact Hf.
  - unfold MAX_ATTEMPTS in Hb. lia.
  - exact Hg.
  - destruct (generateLevel_installed random level c) as (p & Hi & Hp & [[Hv _] | [Hv ->]]).
    + left. split; [exact Hv |].
      unfold generateLevelVars, bind, ret.
      destruct (searchLevel random level c) as [v c'] eqn:Hs. cbn [fst] in *.
      now rewrite Hv.
    + right. rewrite Hv in Hg. cbn in Hg. apply Z.ltb_ge in Hg.
      unfold MAX_ATTEMPTS in *. repeat split; [exact Hv | lia | exact Hi | exact Hp].
Qed.

(** Exhaustion does happen: with every draw equal to 0 at level 1 each
    candidate steps off the top edge, and the failsafe is installed after 500
    attempts. *)
Example generateLevel_exhausted :
  let v := fst (searchLevel (fun _ => 0%Q) 1 0%nat) in
  valid v = false /\ attemptCount v = 500
  /\ installed (fst (generateLevelVars (fun _ => 0%Q) 1 0%nat)) = Some failsafePuzzle
  /\ fst (generateLevel (fun _ => 0%Q) 1 0%nat) = failsafePuzzle.
Proof. vm_compute. repeat split. Qed.

(** ** Analytics *)

Lemma tagKeyString_inj k1 k2 : tagKeyString k1 = tagKeyString k2 -> k1 = k2.
Proof.
  destruct k1 as [[] | [] | [] []], k2 as [[] | [] | [] []];
    cbn; intros H; first [reflexivity | discriminate H].
Qed.

Lemma bump_attempts result k t key :
  attemptsOf (bump result k t) key
  = attemptsOf t key + (if decide (k = key) then 1 else 0).
Proof.
  unfold attemptsOf, bump. destruct (decide (k = key)) as [-> | Hne].
  - rewrite lookup_insert_eq. cbn. reflexivity.
  - rewrite lookup_insert_ne by assumption. lia.
Qed.

Lemma bump_failures result k t key :
  failuresOf (bump result k t) key
  = failuresOf t key
    + match result with
      | loss => if decide (k = key) then 1 else 0
      | win => 0
      end.
Proof.
  unfold failuresOf, bump. destruct (decide (k = key)) as [-> | Hne].
  - rewrite lookup_insert_eq. destruct result; cbn; lia.
  - rewrite lookup_insert_ne by assumption. destruct result; lia.
Qed.

Lemma bump_other result k t key : k <> key -> bump result k t !! key = t !! key.
Proof. intros H. unfold bump. now rewrite lookup_insert_ne. Qed.

Lemma hitsOfStep_nonneg key step : 0 <= hitsOfStep key step.
Proof. unfold hitsOfStep. repeat case_decide; lia. Qed.

Lemma hits_nonneg key chain : 0 <= hits key chain.
Proof.
  induction chain as [| s chain IH]; cbn; [lia |].
  pose proof (hitsOfStep_nonneg key s). lia.
Qed.

Lemma recordStep_counts result t step key :
  attemptsOf (recordStep result t step) key = attemptsOf t key + hitsOfStep key step
  /\ failuresOf (recordStep result t step) key
     = failuresOf t key + match result with loss => hitsOfStep key step | win => 0 end
  /\ (hitsOfStep key step = 0 -> recordStep result t step !! key = t !! key).
Proof.
  unfold recordStep, hitsOfStep. rewrite !bump_attempts, !bump_failures.
  repeat split.
  - lia.
  - destruct result; lia.
  - intros H. repeat case_decide; try lia. now rewrite !bump_other.
Qed.

Lemma recordChain_counts result chain : forall t key,
  attemptsOf (recordChain result chain t) key = attemptsOf t key + hits key chain
  /\ failuresOf (recordChain result chain t) key
     = failuresOf t key + match result with loss => hits key chain | win => 0 end
  /\ (hits key chain = 0 -> recordChain result chain t !! key = t !! key).
Proof.
  unfold recordChain.
  induction chain as [| s chain IH]; intros t key; cbn [fold_left hits].
  - repeat split; destruct result; lia.
  - destruct (IH (recordStep result t s) key) as (Ha & Hf & Ho).
    destruct (recordStep_counts result t s key) as (Ha' & Hf' & Ho').
    pose proof (hitsOfStep_nonneg key s). pose proof (hits_nonneg key chain).
    repeat split.
    + lia.
    + destruct result; lia.
    + intros Hz. rewrite Ho by lia. apply Ho'. lia.
Qed.

Lemma step_keys_NoDup step : NoDup (map tagKeyString (keysOfStep step)).
Proof.
  unfold keysOfStep. cbn [map tagKeyString].
  destruct (protocol step), (frame step), (dir step);
    apply (bool_decide_unpack _); vm_compute; exact I.
Qed.

(** C8. Outside practice mode [updateAnalytics] replaces the tag table by the
    one obtained by recording every instruction of the chain.  For every key,
    attempts grow by the number of times the chain writes under it, failures
    grow by the same number on a loss and not at all on a win, and a key the
    chain does not write under keeps its entry.  One instruction writes once
    under each of exactly three keys: its protocol, its frame and its
    (protocol, direction) pair; those three strings differ, and two different
    structured keys never share a string. *)
Theorem updateAnalytics_three_keys (result : RoundResult) (chain : list CommandStep)
    (game : GameState) (key : string) :
  let newTags := recordChain result chain (tags (analytics game)) in
  tags (analytics (updateAnalytics result chain game))
    = (if isPracticeMode game then tags (analytics game) else newTags)
  /\ attemptsOf newTags key = attemptsOf (tags (analytics game)) key + hits key chain
  /\ failuresOf newTags key
     = failuresOf (tags (analytics game)) key
       + match result with loss => hits key chain | win => 0 end
  /\ (hits key chain = 0 -> newTags !! key = tags (analytics game) !! key)
  /\ (forall step,
        hitsOfStep key step
        = if decide (key ∈ map tagKeyString (keysOfStep step)) then 1 else 0)
  /\ (forall step, NoDup (map tagKeyString (keysOfStep step)))
  /\ (forall k1 k2, tagKeyString k1 = tagKeyString k2 -> k1 = k2).
Proof.
  cbn zeta.
  destruct (recordChain_counts result chain (tags (analytics game)) key) as (Ha & Hf & Ho).
  split; [unfold updateAnalytics; destruct (isPracticeMode game); reflexivity |].
  split; [exact Ha |]. split; [exact Hf |]. split; [exact Ho |].
  split; [| split].
  - intros step. pose proof (step_keys_NoDup step) as Hd.
    unfold hitsOfStep, protoKey, frameKey, complexKey.
    unfold keysOfStep in *. cbn [map tagKeyString] in *.
    rewrite !NoDup_cons, !elem_of_cons in Hd.
    destruct Hd as (H1 & H2 & _).
    destruct (decide (key ∈ _)) as [Hin | Hout];
      rewrite !elem_of_cons, elem_of_nil in *;
      repeat case_decide; subst; try reflexivity; exfalso; intuition congruence.
  - apply step_keys_NoDup.
  - apply tagKeyString_inj.
Qed.

Lemma updateAnalytics_three_keys_witness :
  hits "DIRECT NORTH" [failsafeStep] = 1
  /\ hits "INVERTED NORTH" [failsafeStep] = 0
  /\ recordChain loss [failsafeStep] ∅ !! "INVERTED NORTH" = None.
Proof.
  split; [reflexivity |]. split; [reflexivity |].
  destruct (updateAnalytics_three_keys loss [failsafeStep] initialGame "INVERTED NORTH")
    as (_ & _ & _ & H & _).
  exact (H eq_refl).
Defined.

(** ** Manual level entry *)

Lemma readDigits_stop radix c rest : forall s acc,
  digitValue radix c = None ->
  readDigits radix (s +:+ String c rest) acc = readDigits radix s acc.
Proof.
  induction s as [| a s IH]; intros acc Hc.
  - change ("" +:+ String c rest) with (String c rest). cbn -[digitValue].
    now rewrite Hc.
  - change (String a s +:+ String c rest) with (String a (s +:+ String c rest)).
    cbn -[digitValue].
    destruct (digitValue radix a); [now apply IH | reflexivity].
Qed.

(** A text that starts with one of the digits 1 to 9 is read in radix 10
    from its first character. *)
Lemma parseInt_digit_start a s d :
  digitValue 10 a = Some d -> d <> 0 ->
  parseInt (String a s) = readDigits 10 (String a s) None.
Proof.
  intros Ha Hd.
  assert (Hw : isWhiteSpace a = false /\ a <> "+"%char /\ a <> "-"%char /\ a <> "0"%char).
  { destruct a as [[] [] [] [] [] [] [] []]; vm_compute in Ha; try discriminate Ha;
      injection Ha as <-; try (exfalso; apply Hd; reflexivity);
      (split; [reflexivity |]); repeat split; discriminate. }
  destruct Hw as (Hw & Hplus & Hminus & Hzero).
  unfold parseInt. cbn [skipWhiteSpace]. rewrite Hw.
  assert (Hsign : match String a s with
                  | String "+"%char rest => (1, rest)
                  | String "-"%char rest => (-1, rest)
                  | _ => (1, String a s)
                  end = (1, String a s)).
  { destruct a as [[] [] [] [] [] [] [] []]; try reflexivity; congruence. }
  rewrite Hsign.
  assert (Hradix : match String a s with
                   | String "0"%char (String "x"%char rest) => (16, rest)
                   | String "0"%char (String "X"%char rest) => (16, rest)
                   | _ => (10, String a s)
                   end = (10, String a s)).
  { destruct a as [[] [] [] [] [] [] [] []]; try reflexivity; congruence. }
  rewrite Hradix.
  destruct (readDigits 10 (String a s) None) as [n |]; [f_equal; lia | reflexivity].
Qed.

(** The numerals of 1 to 99 parse to themselves, also when followed by
    anything that does not start with a decimal digit. *)
Lemma parseInt_numeral n :
  1 <= n <= 99 ->
  parseInt (pretty n) = Some n
  /\ forall c rest, digitValue 10 c = None ->
       parseInt (pretty n +:+ String c rest) = Some n.
Proof.
  intros Hn.
  destruct n as [| p | p]; try lia.
  do 7 (try destruct p as [p | p |]); try lia;
    match goal with
    | |- context [pretty ?k] =>
        let s := eval vm_compute in (pretty k) in change (pretty k) with s
    end;
    (split; [reflexivity |]);
    intros c rest Hc;
    match goal with
    | |- parseInt (String ?a ?s +:+ ?t) = _ =>
        change (String a s +:+ t) with (String a (s +:+ t));
        rewrite (parseInt_digit_start a (s +:+ t) (Z.of_N (N_of_ascii a) - 48))
          by (vm_compute; congruence);
        change (String a (s +:+ t)) with (String a s +:+ t)
    end;
    rewrite readDigits_stop by exact Hc; reflexivity.
Qed.

(** C9 as stated fails: an entry that is not an integer, or not a number
    throughout, is not ignored when it starts with an integer in range. *)
Lemma manualSetLevel_fraction_accepted :
  currentLevel (manualSetLevel (Some "3.7") initialGame) = 3
  /\ manualSetLevel (Some "3.7") initialGame <> initialGame
  /\ currentLevel (manualSetLevel (Some "12abc") initialGame) = 12.
Proof. repeat split. discriminate. Qed.

(** C9, amended.  [manualSetLevel] reads the entry with [parseInt], which
    takes the integer the text starts with and ignores what follows.  The
    state is unchanged when the prompt is cancelled or empty, when no integer
    can be read, or when the integer read is outside 1..99.  Otherwise the
    level becomes that integer, the highest level is raised to it if need be
    and the score is reset to 0, nothing else changing.  The numeral of every
    n in 1..99 is read as n, also when followed by other characters (as in
    3.7 or 12abc). *)
Theorem manualSetLevel_parsed (input : option string) (prev : GameState) :
  (input = None \/ input = Some EmptyString -> manualSetLevel input prev = prev)
  /\ (forall text, input = Some text -> parseInt text = None ->
       manualSetLevel input prev = prev)
  /\ (forall text n, input = Some text -> parseInt text = Some n ->
       n < 1 \/ 99 < n -> manualSetLevel input prev = prev)
  /\ (forall text n, input = Some text -> parseInt text = Some n ->
       1 <= n <= 99 ->
       manualSetLevel input prev
       = mkGame (status prev) n (stability prev) (Z.max (maxLevel prev) n) 0
                (multiplier prev) (streak prev) (soundEnabled prev)
                (isPracticeMode prev) (analytics prev)
                (sessionCorrect prev) (sessionTotal prev))
  /\ (forall n, 1 <= n <= 99 ->
       parseInt (pretty n) = Some n
       /\ forall c rest, digitValue 10 c = None ->
            parseInt (pretty n +:+ String c rest) = Some n).
Proof.
  split; [| split; [| split; [| split]]].
  - intros [-> | ->]; reflexivity.
  - intros text -> Hp. unfold manualSetLevel. rewrite Hp. now destruct text.
  - intros text n -> Hp Hn. unfold manualSetLevel. rewrite Hp.
    replace ((n >? 0) && (n <? 100)) with false by (symmetry; lia).
    now destruct text.
  - intros text n -> Hp Hn. unfold manualSetLevel. rewrite Hp.
    replace ((n >? 0) && (n <? 100)) with true by (symmetry; lia).
    destruct text; [discriminate Hp | reflexivity].
  - apply parseInt_numeral.
Qed.

Lemma manualSetLevel_parsed_witness :
  manualSetLevel None initialGame = initialGame
  /\ manualSetLevel (Some "level") initialGame = initialGame
  /\ manualSetLevel (Some "100") initialGame = initialGame
  /\ currentLevel (manualSetLevel (Some "42") initialGame) = 42
  /\ parseInt ("7" +:+ String "." "5") = Some 7.
Proof.
  destruct (manualSetLevel_parsed None initialGame) as (H1 & _).
  destruct (manualSetLevel_parsed (Some "level") initialGame) as (_ & H2 & _).
  destruct (manualSetLevel_parsed (Some "100") initialGame) as (_ & _ & H3 & _).
  destruct (manualSetLevel_parsed (Some "42") initialGame) as (_ & _ & _ & H4 & H5).
  split; [apply H1; left; reflexivity |].
  split; [apply (H2 "level"); reflexivity |].
  split; [apply (H3 "100" 100); [reflexivity | reflexivity | right; lia] |].
  split; [rewrite (H4 "42" 42); [reflexivity | reflexivity | reflexivity | lia] |].
  apply (H5 7); [lia | reflexivity].
Defined.

(** ** Progression state machine *)

Lemma Qle_bool_false a b : Qle_bool a b = false -> (b < a)%Q.
Proof.
  intros H. apply Qnot_le_lt. intros Hle. apply Qle_bool_iff in Hle. congruence.
Qed.

Ltac qcases :=
  unfold Qgtb in *;
  repeat match goal with
         | |- context [Qle_bool ?a ?b] =>
             let H := fresh "Hq" in
             destruct (Qle_bool a b) eqn:H;
             [apply Qle_bool_iff in H | apply Qle_bool_false in H]
         end;
  cbn [negb andb orb].

Lemma Qmin_bounds a : (1 <= a)%Q -> (1 <= Qmin (a + (1 # 2)) 5 <= 5)%Q.
Proof.
  intros Ha. destruct (Q.min_spec (a + (1 # 2)) 5) as [[H1 H2] | [H1 H2]];
    rewrite H2; lra.
Qed.

Section ProgressionFacts.

Variable random : nat -> Q.

Local Arguments Qle_bool : simpl never.
Local Arguments Qmin : simpl never.
Local Arguments Qplus : simpl never.
Local Arguments Qminus : simpl never.
Local Arguments Qmult : simpl never.
Local Arguments inject_Z : simpl never.
Local Arguments Math_floor : simpl never.
Local Arguments generateLevel : simpl never.
Local Arguments recordChain : simpl never.
Local Arguments Z.mul : simpl never.
Local Arguments Z.add : simpl never.
Local Arguments Z.sub : simpl never.
Local Arguments Z.max : simpl never.

Lemma handleSuccess_bounded m : machineBounded m -> machineBounded (handleSuccess m).
Proof.
  destruct m as [g tm ap ar ch tp fc fh pd cu].
  destruct g as [st lv sb ml sc mu sk se pm an scor stot].
  unfold machineBounded, bounded. cbn. intros ((Hs & Hm & Hl) & Hp).
  unfold handleSuccess, updateAnalytics, schedule, setPending, setGame. cbn.
  destruct pm; cbn.
  - split; [| apply Forall_app; split; [exact Hp | repeat constructor; exact Hl]].
    split; [qcases; lra |]. split; [now apply Qmin_bounds | exact Hl].
  - split.
    + split; [qcases; lra |]. split; [now apply Qmin_bounds | exact Hl].
    + apply Forall_app. split; [exact Hp |]. repeat constructor.
      cbn. destruct (Qle_bool 100 (sb + 15)); lia.
Qed.

Lemma handleFailure_bounded m : machineBounded m -> machineBounded (handleFailure m).
Proof.
  destruct m as [g tm ap ar ch tp fc fh pd cu].
  destruct g as [st lv sb ml sc mu sk se pm an scor stot].
  unfold machineBounded, bounded. cbn. intros ((Hs & Hm & Hl) & Hp).
  unfold handleFailure, updateAnalytics, schedule, setPending, setGame. cbn.
  destruct pm; cbn.
  - split; [split; [qcases; lra | split; [lra | exact Hl]] |].
    apply Forall_app. split; [exact Hp |]. repeat constructor; cbn; try lia; qcases; lra.
  - destruct (Z.gtb_spec lv 1) as [Hgt | Hle].
    + split; [split; [qcases; cbn; lra | split; [lra | exact Hl]] |].
      apply Forall_app. split; [exact Hp |].
      repeat constructor; cbn; qcases; cbn; try lia; lra.
    + split; [split; [qcases; cbn; lra | split; [lra | exact Hl]] |].
      apply Forall_app. split; [exact Hp |].
      repeat constructor; cbn; qcases; cbn; try lia; lra.
Qed.

Lemma callGenerateLevel_bounded level m :
  machineBounded m -> machineBounded (callGenerateLevel random level m).
Proof. intros H. exact H. Qed.

Lemma schedule_bounded t m :
  taskBounded t -> machineBounded m -> machineBounded (schedule t m).
Proof.
  intros Ht [Hg Hp]. split; [exact Hg |].
  cbn. apply Forall_app. split; [exact Hp | repeat constructor; exact Ht].
Qed.

Lemma runTask_bounded t m :
  taskBounded t -> machineBounded m -> machineBounded (runTask random t m).
Proof.
  intros Ht Hm. pose proof Hm as [(Hs & Hmu & Hl) Hp].
  destruct t as [ns nl | nl | | nl | ns nl nst | nl | | nl nst]; cbn in Ht; cbn [runTask].
  - destruct (decide (ns = level_up)).
    + apply schedule_bounded; [exact Ht |]. split; [| exact Hp].
      repeat split; cbn; try apply Hs; try apply Hmu; exact Ht.
    + apply schedule_bounded; [exact Ht | now apply callGenerateLevel_bounded].
  - apply schedule_bounded; [exact I | now apply callGenerateLevel_bounded].
  - split; [| exact Hp]. repeat split; cbn; try apply Hs; try apply Hmu; exact Hl.
  - split; [| exact Hp]. repeat split; cbn; try apply Hs; try apply Hmu; exact Ht.
  - destruct (decide (ns = level_down)).
    + apply schedule_bounded; [apply Ht |]. split; [| exact Hp].
      repeat split; cbn; try apply Hs; try apply Hmu; apply Ht.
    + apply schedule_bounded; [exact Ht | now apply callGenerateLevel_bounded].
  - apply schedule_bounded; [exact I | now apply callGenerateLevel_bounded].
  - split; [| exact Hp]. repeat split; cbn; try apply Hmu; try exact Hl; lra.
  - split; [| exact Hp]. repeat split; cbn; try apply Hmu; apply Ht.
Qed.

Lemma manualSetLevel_bounded input g : bounded g -> bounded (manualSetLevel input g).
Proof.
  intros Hb. pose proof Hb as (Hs & Hm & Hl). unfold manualSetLevel.
  destruct input as [[| a text] |]; try exact Hb.
  destruct (parseInt (String a text)) as [lvl |]; [| exact Hb].
  destruct ((lvl >? 0) && (lvl <? 100)) eqn:Hc; [| exact Hb].
  repeat split; cbn; try apply Hs; try apply Hm. lia.
Qed.

Lemma recordSession_bounded now g : bounded g -> bounded (recordSession now g).
Proof.
  intros H. unfold recordSession. destruct (_ && _); exact H.
Qed.

Lemma timerTick_bounded m : machineBounded m -> machineBounded (timerTick m).
Proof.
  intros H. unfold timerTick.
  destruct (Qle_bool (timer m) 0); [| exact H].
  destruct (failureHandled m); [exact H |].
  apply (handleFailure_bounded (setFailureHandled true m)) in H. exact H.
Qed.

Lemma dispatch_bounded e m :
  machineBounded m -> machineBounded (dispatch random e m).
Proof.
  intros Hm. pose proof Hm as [(Hs & Hmu & Hl) Hp].
  destruct e as [| now | confirmed | | x y | input | | k | |]; cbn [dispatch].
  - split; [| exact Hp]. repeat split; cbn; try apply Hs; try exact Hl; lra.
  - destruct (decide _); [| exact Hm]. split; [| exact Hp].
    exact (recordSession_bounded now _ (conj Hs (conj Hmu Hl))).
  - destruct confirmed; [| exact Hm]. split; [| exact Hp].
    repeat split; cbn; try apply Hmu; try lia; lra.
  - unfold togglePracticeMode. destruct (decide _); exact Hm.
  - unfold handleCellClick. destruct (decide _); [| exact Hm].
    destruct (targetPos m) as [t |]; [destruct (_ && _) |].
    + now apply (handleSuccess_bounded (setFeedbackCell _ m)).
    + now apply (handleFailure_bounded (setFeedbackCell _ m)).
    + now apply (handleFailure_bounded (setFeedbackCell _ m)).
  - split; [| exact Hp]. apply manualSetLevel_bounded. exact (conj Hs (conj Hmu Hl)).
  - destruct (intervalRunning (game m)); [now apply timerTick_bounded | exact Hm].
  - destruct (pending m !! k) as [t |] eqn:Hk; [| exact Hm].
    apply runTask_bounded.
    + exact (Forall_lookup_1 _ _ _ _ Hp Hk).
    + split; [exact (conj Hs (conj Hmu Hl)) |]. cbn. now apply Forall_delete.
  - exact Hm.
  - exact Hm.
Qed.

Lemma statusEffect_bounded before m :
  machineBounded m -> machineBounded (statusEffect before m).
Proof.
  intros H. unfold statusEffect. repeat destruct (decide _); exact H.
Qed.

Lemma step_bounded m e : machineBounded m -> machineBounded (step random m e).
Proof. intros H. now apply statusEffect_bounded, dispatch_bounded. Qed.

Lemma run_bounded events : forall m,
  machineBounded m -> machineBounded (run random m events).
Proof.
  unfold run. induction events as [| e events IH]; intros m H; cbn [fold_left]; [exact H |].
  apply IH, step_bounded, H.
Qed.

Lemma initialMachine_bounded : machineBounded initialMachine.
Proof.
  split; [| constructor]. unfold bounded. cbn. repeat split; try lia; lra.
Qed.

Lemma settle_bounded m : machineBounded m -> machineBounded (settle random m).
Proof.
  intros H. unfold settle, runNext.
  apply step_bounded, step_bounded, step_bounded, H.
Qed.

Lemma playRound_bounded m o : machineBounded m -> machineBounded (playRound random m o).
Proof.
  intros H. destruct o; unfold playRound; apply settle_bounded, statusEffect_bounded.
  - apply handleSuccess_bounded, H.
  - apply handleFailure_bounded, H.
Qed.

Lemma playRounds_bounded outcomes : forall m,
  machineBounded m -> machineBounded (playRounds random m outcomes).
Proof.
  unfold playRounds.
  induction outcomes as [| o outcomes IH]; intros m H; cbn [fold_left]; [exact H |].
  apply IH, playRound_bounded, H.
Qed.

(** What a correct selection does outside practice mode. *)
Lemma handleSuccess_scoring m :
  isPracticeMode (game m) = false ->
  let g := game m in
  let g' := game (handleSuccess m) in
  score g' = inject_Z (Math_floor (score g + reward m))
  /\ ((stability g + 15 < 100)%Q ->
      stability g' = (stability g + 15)%Q
      /\ pending (handleSuccess m) = pending m ++ [AfterSuccess playing (currentLevel g)])
  /\ ((100 <= stability g + 15)%Q ->
      stability g' = 50%Q
      /\ pending (handleSuccess m)
         = pending m ++ [AfterSuccess level_up (currentLevel g + 1)])
  /\ multiplier g' = Qmin (multiplier g + (1 # 2)) 5
  /\ streak g' = streak g + 1
  /\ currentLevel g' = currentLevel g
  /\ status g' = success_anim.
Proof.
  destruct m as [g tm ap ar ch tp fc fh pd cu].
  destruct g as [st lv sb ml sc mu sk se pm an scor stot].
  cbn. intros ->.
  unfold handleSuccess, updateAnalytics, schedule, setPending, setGame, reward. cbn.
  repeat apply conj; try reflexivity.
  - intros H. qcases; try lra; split; reflexivity.
  - intros H. qcases; try lra; split; reflexivity.
Qed.

Lemma Qfloor_integer (q : Q) (z : Z) : (q == inject_Z z)%Q -> Qfloor q = z.
Proof. intros H. rewrite H. apply Qfloor_Z. Qed.

(** ** Rounds *)

Lemma statusEffect_game before m : game (statusEffect before m) = game m.
Proof. unfold statusEffect. repeat destruct (decide _); reflexivity. Qed.

Lemma statusEffect_pending before m : pending (statusEffect before m) = pending m.
Proof. unfold statusEffect. repeat destruct (decide _); reflexivity. Qed.

Lemma runTask_game t m : game (runTask random t m) = taskGame t (game m).
Proof. destruct t; cbn [runTask taskGame]; try destruct (decide _); reflexivity. Qed.

Lemma runTask_pending t m : pending (runTask random t m) = pending m ++ taskFollowUp t.
Proof.
  destruct t; cbn [runTask taskFollowUp]; try destruct (decide _);
    cbn; rewrite ?app_nil_r; reflexivity.
Qed.

Lemma runNext_game m :
  game (runNext random m)
  = match pending m with [] => game m | t :: _ => taskGame t (game m) end.
Proof.
  unfold runNext, step. rewrite statusEffect_game. cbn [dispatch].
  destruct (pending m) as [| t rest]; [reflexivity |].
  change ((t :: rest) !! 0%nat) with (Some t). cbv iota.
  rewrite runTask_game. reflexivity.
Qed.

Lemma runNext_pending m :
  pending (runNext random m)
  = match pending m with [] => [] | t :: rest => rest ++ taskFollowUp t end.
Proof.
  unfold runNext, step. rewrite statusEffect_pending. cbn [dispatch].
  destruct (pending m) as [| t rest] eqn:E; [exact E |].
  change ((t :: rest) !! 0%nat) with (Some t). cbv iota.
  rewrite runTask_pending. reflexivity.
Qed.

(** A round that asked for [playing]: the first callback regenerates the
    puzzle, the second puts the captured level (and, after a failure, the
    captured stability) back with [status = playing]. *)
Lemma settle_success m nl :
  pending m = [AfterSuccess playing nl] ->
  game (settle random m)
  = withMaxLevel (Z.max (maxLevel (game m)) nl) (withLevel nl (withStatus playing (game m)))
  /\ pending (settle random m) = [].
Proof.
  intros Hp. unfold settle.
  assert (H1 : game (runNext random m) = game m
               /\ pending (runNext random m) = [FramePlayingLevel nl])
    by (rewrite (runNext_game m), (runNext_pending m), Hp; split; reflexivity).
  destruct H1 as [G1 P1].
  assert (H2 : game (runNext random (runNext random m))
               = withMaxLevel (Z.max (maxLevel (game m)) nl)
                   (withLevel nl (withStatus playing (game m)))
               /\ pending (runNext random (runNext random m)) = [])
    by (rewrite (runNext_game (runNext random m)),
          (runNext_pending (runNext random m)), P1, G1; split; reflexivity).
  destruct H2 as [G2 P2].
  rewrite (runNext_game (runNext random (runNext random m))),
    (runNext_pending (runNext random (runNext random m))), P2, G2.
  split; reflexivity.
Qed.

Lemma settle_failure m nl ns :
  pending m = [AfterFailure playing nl ns] ->
  game (settle random m)
  = withStability ns (withLevel nl (withStatus playing (game m)))
  /\ pending (settle random m) = [].
Proof.
  intros Hp. unfold settle.
  assert (H1 : game (runNext random m) = game m
               /\ pending (runNext random m) = [FramePlayingRestored nl ns])
    by (rewrite (runNext_game m), (runNext_pending m), Hp; split; reflexivity).
  destruct H1 as [G1 P1].
  assert (H2 : game (runNext random (runNext random m))
               = withStability ns (withLevel nl (withStatus playing (game m)))
               /\ pending (runNext random (runNext random m)) = [])
    by (rewrite (runNext_game (runNext random m)),
          (runNext_pending (runNext random m)), P1, G1; split; reflexivity).
  destruct H2 as [G2 P2].
  rewrite (runNext_game (runNext random (runNext random m))),
    (runNext_pending (runNext random (runNext random m))), P2, G2.
  split; reflexivity.
Qed.

(** The handlers in practice mode. *)
Lemma handleSuccess_practice m :
  isPracticeMode (game m) = true -> (stability (game m) <= 100)%Q ->
  let g := game m in
  game (handleSuccess m)
  = mkGame success_anim (currentLevel g) (stability g + 0) (maxLevel g) (score g)
           (Qmin (multiplier g + (1 # 2)) 5) (streak g + 1) (soundEnabled g) true
           (analytics g) (sessionCorrect g) (sessionTotal g)
  /\ pending (handleSuccess m) = pending m ++ [AfterSuccess playing (currentLevel g)].
Proof.
  destruct m as [g tm ap ar ch tp fc fh pd cu].
  destruct g as [st lv sb ml sc mu sk se pm an scor stot].
  cbn. intros -> H.
  unfold handleSuccess, updateAnalytics, schedule, setPending, setGame. cbn.
  qcases; try lra. split; reflexivity.
Qed.

Lemma handleFailure_practice m :
  isPracticeMode (game m) = true -> (0 <= stability (game m))%Q ->
  let g := game m in
  game (handleFailure m)
  = mkGame success_anim (currentLevel g) (stability g - 0) (maxLevel g) (score g)
           1 0 (soundEnabled g) true (analytics g) (sessionCorrect g) (sessionTotal g)
  /\ pending (handleFailure m)
     = pending m ++ [AfterFailure playing (currentLevel g) (stability g - 0)].
Proof.
  destruct m as [g tm ap ar ch tp fc fh pd cu].
  destruct g as [st lv sb ml sc mu sk se pm an scor stot].
  cbn. intros -> H.
  unfold handleFailure, updateAnalytics, schedule, setPending, setGame. cbn.
  qcases; try lra. split; reflexivity.
Qed.

(** One round in practice mode: score, stability, analytics and level are
    kept and the status returns to [playing]; streak and multiplier move. *)
Lemma practice_round m o :
  isPracticeMode (game m) = true -> pending m = [] ->
  (0 <= stability (game m) <= 100)%Q ->
  let g := game m in
  let g' := game (playRound random m o) in
  isPracticeMode g' = true /\ status g' = playing
  /\ pending (playRound random m o) = []
  /\ score g' = score g
  /\ (stability g' == stability g)%Q
  /\ analytics g' = analytics g
  /\ currentLevel g' = currentLevel g
  /\ sessionCorrect g' = sessionCorrect g /\ sessionTotal g' = sessionTotal g
  /\ streak g' = match o with RoundSuccess => streak g + 1 | RoundFailure => 0 end
  /\ multiplier g' = match o with
                     | RoundSuccess => Qmin (multiplier g + (1 # 2)) 5
                     | RoundFailure => 1%Q
                     end.
Proof.
  intros Hp Hq [H0 H100]. cbn zeta. destruct o; unfold playRound.
  - destruct (handleSuccess_practice m Hp H100) as [Hg Hpd]. cbn zeta in *.
    rewrite Hq in Hpd. cbn [app] in Hpd.
    destruct (settle_success (statusEffect (status (game m)) (handleSuccess m))
                (currentLevel (game m))) as [Gs Ps];
      [now rewrite statusEffect_pending |].
    rewrite Gs, Ps, statusEffect_game, Hg. cbn.
    repeat apply conj; try reflexivity. lra.
  - destruct (handleFailure_practice m Hp H0) as [Hg Hpd]. cbn zeta in *.
    rewrite Hq in Hpd. cbn [app] in Hpd.
    destruct (settle_failure (statusEffect (status (game m)) (handleFailure m))
                (currentLevel (game m)) (stability (game m) - 0)) as [Gs Ps];
      [now rewrite statusEffect_pending |].
    rewrite Gs, Ps, statusEffect_game, Hg. cbn.
    repeat apply conj; try reflexivity. lra.
Qed.

(** Any number of rounds in practice mode. *)
Lemma practice_rounds outcomes : forall m,
  isPracticeMode (game m) = true -> pending m = [] ->
  (0 <= stability (game m) <= 100)%Q ->
  let g := game m in
  let g' := game (playRounds random m outcomes) in
  isPracticeMode g' = true
  /\ score g' = score g
  /\ (stability g' == stability g)%Q
  /\ tags (analytics g') = tags (analytics g)
  /\ currentLevel g' = currentLevel g.
Proof.
  unfold playRounds.
  induction outcomes as [| o outcomes IH]; intros m Hp Hq Hb; cbn [fold_left].
  - cbn zeta. repeat split; try reflexivity. exact Hp.
  - destruct (practice_round m o Hp Hq Hb)
      as (Hp' & _ & Hq' & Hsc & Hst & Han & Hlv & _).
    cbn zeta in *.
    assert (Hb' : (0 <= stability (game (playRound random m o)) <= 100)%Q)
      by (rewrite Hst; exact Hb).
    destruct (IH _ Hp' Hq' Hb') as (H1 & H2 & H3 & H4 & H5).
    cbn zeta in *. repeat split.
    + exact H1.
    + now rewrite H2.
    + now rewrite H3.
    + now rewrite H4, Han.
    + now rewrite H5.
Qed.

(** A failure at level 1 outside practice mode keeps level 1: at once, in
    the callback it schedules (which asks for [playing], never for
    [level_down]) and at the end of the round. *)
Lemma failure_at_level_one m :
  currentLevel (game m) = 1 -> pending m = [] ->
  currentLevel (game (handleFailure m)) = 1
  /\ (exists s, pending (handleFailure m) = [AfterFailure playing 1 s])
  /\ currentLevel (game (playRound random m RoundFailure)) = 1
  /\ status (game (playRound random m RoundFailure)) = playing.
Proof.
  intros Hl Hq.
  assert (H : currentLevel (game (handleFailure m)) = 1
              /\ exists s, pending (handleFailure m) = [AfterFailure playing 1 s]).
  { destruct m as [g tm ap ar ch tp fc fh pd cu].
    destruct g as [st lv sb ml sc mu sk se pm an scor stot].
    cbn in Hl, Hq. subst lv pd.
    unfold handleFailure, updateAnalytics, schedule, setPending, setGame. cbn.
    destruct pm; cbn; [eauto |]. destruct (Qle_bool (sb - 30) 0); cbn; eauto. }
  destruct H as [H1 [s Hs]]. split; [exact H1 |]. split; [eauto |].
  unfold playRound.
  destruct (settle_failure (statusEffect (status (game m)) (handleFailure m)) 1 s)
    as [Gs _]; [now rewrite statusEffect_pending |].
  rewrite Gs. split; reflexivity.
Qed.

(** The follow-ups of a success that does not level up leave the level. *)
Lemma success_round_same_level m :
  isPracticeMode (game m) = false -> pending m = [] ->
  (stability (game m) + 15 < 100)%Q ->
  currentLevel (game (playRound random m RoundSuccess)) = currentLevel (game m)
  /\ status (game (playRound random m RoundSuccess)) = playing
  /\ stability (game (playRound random m RoundSuccess)) = (stability (game m) + 15)%Q.
Proof.
  intros Hp Hq Hs.
  destruct (handleSuccess_scoring m Hp) as (_ & Hst & _). cbn zeta in Hst.
  destruct (Hst Hs) as [Hst' Hpd]. rewrite Hq in Hpd. cbn [app] in Hpd.
  unfold playRound.
  destruct (settle_success (statusEffect (status (game m)) (handleSuccess m))
              (currentLevel (game m))) as [Gs _];
    [now rewrite statusEffect_pending |].
  rewrite Gs, statusEffect_game. cbn. repeat split. exact Hst'.
Qed.

(** ** Countdown *)

Lemma ticks_handled n : forall m,
  failureHandled m = true ->
  game (ticks n m) = game m
  /\ pending (ticks n m) = pending m
  /\ failureHandled (ticks n m) = true.
Proof.
  induction n as [| n IH]; intros m Hh; cbn [ticks]; [auto |].
  assert (Ht : game (timerTick m) = game m /\ pending (timerTick m) = pending m
               /\ failureHandled (timerTick m) = true).
  { unfold timerTick. rewrite Hh. destruct (Qle_bool (timer m) 0); cbn; auto. }
  destruct Ht as (Hg & Hp & Hf). destruct (IH _ Hf) as (IHg & IHp & IHf).
  repeat split; congruence.
Qed.

Lemma ticks_fire_at_most_once n : forall m,
  failureHandled m = false ->
  (game (ticks n m) = game m
   /\ pending (ticks n m) = pending m
   /\ failureHandled (ticks n m) = false)
  \/ (game (ticks n m) = game (handleFailure m)
      /\ pending (ticks n m) = pending (handleFailure m)
      /\ failureHandled (ticks n m) = true).
Proof.
  induction n as [| n IH]; intros m Hh; cbn [ticks]; [left; auto |].
  unfold timerTick. rewrite Hh.
  destruct (Qle_bool (timer m) 0).
  - right.
    destruct (ticks_handled n (setTimer 0 (handleFailure (setFailureHandled true m)))
                eq_refl) as (Hg & Hp & Hf).
    rewrite Hg, Hp, Hf. repeat split.
  - destruct (IH (setTimer (roundDouble (timer m - decay (currentLevel (game m)))) m) Hh)
      as [(Hg & Hp & Hf) | (Hg & Hp & Hf)]; [left | right];
      rewrite Hg, Hp, Hf; repeat split.
Qed.

Lemma ticks_fire_at_zero n m :
  failureHandled m = false -> (timer m <= 0)%Q ->
  game (ticks (S n) m) = game (handleFailure m)
  /\ pending (ticks (S n) m) = pending (handleFailure m)
  /\ failureHandled (ticks (S n) m) = true.
Proof.
  intros Hh Ht. cbn [ticks]. unfold timerTick. rewrite Hh.
  apply Qle_bool_iff in Ht. rewrite Ht.
  destruct (ticks_handled n (setTimer 0 (handleFailure (setFailureHandled true m)))
              eq_refl) as (Hg & Hp & Hf).
  rewrite Hg, Hp, Hf. repeat split.
Qed.

(** What one application of the failure transition changes outside practice
    mode: a second one would be visible. *)
Lemma handleFailure_marks m :
  isPracticeMode (game m) = false ->
  sessionTotal (game (handleFailure m)) = sessionTotal (game m) + 1
  /\ length (pending (handleFailure m)) = S (length (pending m))
  /\ tags (analytics (game (handleFailure m)))
     = recordChain loss (chain m) (tags (analytics (game m))).
Proof.
  destruct m as [g tm ap ar ch tp fc fh pd cu].
  destruct g as [st lv sb ml sc mu sk se pm an scor stot].
  cbn. intros ->.
  unfold handleFailure, updateAnalytics, schedule, setPending, setGame. cbn.
  rewrite length_app. cbn. repeat split. lia.
Qed.

(** The guard is lowered only when a render enters [playing]. *)
Lemma cycle_starts_unhandled m e :
  status (game m) <> playing -> status (game (step random m e)) = playing ->
  failureHandled (step random m e) = false.
Proof.
  unfold step, statusEffect. intros Hn.
  destruct (decide (status (game (dispatch random e m)) = status (game m))) as [E | E].
  - intros Hs. congruence.
  - destruct (decide (status (game (dispatch random e m)) = playing)); cbn; congruence.
Qed.

(** The failure transition leaves [playing], which stops the interval, and
    outside [playing] ticks and cell selections are ignored: nothing more can
    fail until a new round has begun. *)
Lemma handleFailure_leaves_playing m :
  status (game (handleFailure m)) = success_anim
  /\ intervalRunning (game (handleFailure m)) = false.
Proof.
  assert (H : status (game (handleFailure m)) = success_anim).
  { destruct m as [g tm ap ar ch tp fc fh pd cu].
    unfold handleFailure, updateAnalytics. cbn. destruct (isPracticeMode g); reflexivity. }
  split; [exact H |]. unfold intervalRunning. rewrite H. reflexivity.
Qed.

Lemma transient_ignores_input m x y :
  status (game m) <> playing ->
  dispatch random EvTick m = m /\ dispatch random (EvCellClick x y) m = m.
Proof.
  intros Hs. cbn [dispatch]. unfold intervalRunning, handleCellClick.
  rewrite bool_decide_eq_false_2 by exact Hs.
  destruct (decide (status (game m) = playing)); [contradiction | split; reflexivity].
Qed.

End ProgressionFacts.

Lemma handleCellClick_hit m x y :
  status (game m) = playing -> targetPos m = Some (mkCell x y) ->
  handleCellClick x y m
  = handleSuccess (setFeedbackCell (Some (mkFeedback x y fb_success)) m).
Proof.
  intros Hs Ht. unfold handleCellClick. rewrite Ht. cbn [cx cy].
  rewrite !Z.eqb_refl. destruct (decide _); [reflexivity | contradiction].
Qed.

(** C5. Stability in [0,100], multiplier in [1,5] and level at least 1 hold
    after every transition: for a machine within these bounds (its pending
    callbacks included) they hold after any sequence of events (start, stop,
    reset, practice toggle, cell selection, manual level entry, timer tick
    and the scheduled callbacks that carry out level up and level down),
    after any single event, and after any sequence of whole rounds.  A
    failure at level 1 keeps level 1, at once and when its round is over,
    and schedules no level-down. *)
Theorem progression_bounds (random : nat -> Q) (m : Machine)
    (events : list Event) (outcomes : list Outcome) :
  machineBounded m ->
  bounded (game (run random m events))
  /\ (forall e, bounded (game (step random m e)))
  /\ bounded (game (playRounds random m outcomes))
  /\ (currentLevel (game m) = 1 -> pending m = [] ->
      currentLevel (game (handleFailure m)) = 1
      /\ (exists s, pending (handleFailure m) = [AfterFailure playing 1 s])
      /\ currentLevel (game (playRound random m RoundFailure)) = 1
      /\ status (game (playRound random m RoundFailure)) = playing).
Proof.
  intros H. split; [| split; [| split]].
  - apply (run_bounded random events m H).
  - intros e. apply (step_bounded random m e H).
  - apply (playRounds_bounded random outcomes m H).
  - apply failure_at_level_one.
Qed.

Lemma progression_bounds_witness :
  machineBounded initialMachine
  /\ bounded (game (run (fun _ => 0%Q) initialMachine
                      [EvStart; EvCellClick 0 0; EvCallback 0; EvCallback 0]))
  /\ currentLevel (game (playRound (fun _ => 0%Q) initialMachine RoundFailure)) = 1.
Proof.
  assert (H : machineBounded initialMachine).
  { split; [| constructor]. unfold bounded. cbn.
    repeat split; try lia; vm_compute; discriminate. }
  split; [exact H |].
  destruct (progression_bounds (fun _ => 0%Q) initialMachine
              [EvStart; EvCellClick 0 0; EvCallback 0%nat; EvCallback 0%nat] [] H)
    as (H1 & _ & _ & H4).
  split; [exact H1 |].
  destruct (H4 eq_refl eq_refl) as (_ & _ & H5 & _). exact H5.
Defined.

(** Every state the component reaches from its initial state is within
    bounds. *)
Corollary reachable_bounded (random : nat -> Q) (events : list Event) :
  bounded (game (run random initialMachine events)).
Proof. apply run_bounded, initialMachine_bounded. Qed.

(** C6 as stated fails: the reward is not always added as it is, and
    stability is not capped at 100.  At level 1 with stability 90, multiplier
    1.5 and 81% of the timer left, the reward is 321.5 but the score grows by
    321, and stability becomes 50 (with a level-up scheduled), not 100. *)
Lemma reward_claim_fails :
  let m := roundInPlay false 1 90 0 (3 # 2) 81 in
  status (game m) = playing /\ isPracticeMode (game m) = false
  /\ targetPos m = Some (mkCell 3 2)
  /\ (reward m == 643 # 2)%Q
  /\ score (game (handleCellClick 3 2 m)) = 321%Q
  /\ stability (game (handleCellClick 3 2 m)) = 50%Q
  /\ ~ rewardAsStated m (handleCellClick 3 2 m).
Proof.
  cbn zeta. repeat apply conj; try reflexivity.
  intros (H & _). vm_compute in H. discriminate H.
Qed.

(** C6, amended.  A correct selection while playing outside practice mode
    computes reward = (100 + floor(timer)) * multiplier + level * 50 and sets
    the score to floor(score + reward); stability rises by 15 when that stays
    below 100, and otherwise is reset to 50 with a level-up to level + 1
    scheduled; the multiplier rises by 0.5, capped at 5; the streak grows by
    one.  At level 3 with 80% of the timer left, multiplier 1, stability 50
    and a whole-number score, the score grows by exactly 330, stability
    becomes 65 and the level stays 3. *)
Theorem success_reward (random : nat -> Q) (m : Machine) (x y : Z) :
  status (game m) = playing -> targetPos m = Some (mkCell x y) ->
  isPracticeMode (game m) = false ->
  let g := game m in
  let m' := handleCellClick x y m in
  let g' := game m' in
  score g' = inject_Z (Math_floor (score g + reward m))
  /\ ((stability g + 15 < 100)%Q ->
      stability g' = (stability g + 15)%Q
      /\ pending m' = pending m ++ [AfterSuccess playing (currentLevel g)])
  /\ ((100 <= stability g + 15)%Q ->
      stability g' = 50%Q
      /\ pending m' = pending m ++ [AfterSuccess level_up (currentLevel g + 1)])
  /\ multiplier g' = Qmin (multiplier g + (1 # 2)) 5
  /\ streak g' = streak g + 1
  /\ currentLevel g' = currentLevel g
  /\ (currentLevel g = 3 -> Math_floor (timer m) = 80 ->
      (multiplier g == 1)%Q -> (stability g == 50)%Q ->
      (exists z, score g == inject_Z z)%Q ->
      (score g' == score g + 330)%Q /\ (stability g' == 65)%Q
      /\ pending m' = pending m ++ [AfterSuccess playing 3]
      /\ (pending m = [] ->
          currentLevel (game (playRound random m RoundSuccess)) = 3)).
Proof.
  intros Hs Ht Hp. cbn zeta. rewrite (handleCellClick_hit m x y Hs Ht).
  set (mf := setFeedbackCell (Some (mkFeedback x y fb_success)) m).
  destruct (handleSuccess_scoring mf Hp) as (Hsc & Hlow & Hhigh & Hmu & Hsk & Hlv & _).
  cbn zeta in *.
  change (game mf) with (game m) in *. change (pending mf) with (pending m) in *.
  change (reward mf) with (reward m) in *.
  repeat apply conj; try assumption.
  intros H3 H80 Hm1 Hs50 [z Hz].
  assert (Hbelow : (stability (game m) + 15 < 100)%Q) by (rewrite Hs50; reflexivity).
  destruct (Hlow Hbelow) as [Hst Hpd].
  assert (Hsum : (score (game m) + reward m == inject_Z (z + 330))%Q).
  { unfold reward. rewrite H3, H80, Hm1, Hz, !inject_Z_plus.
    change (inject_Z 100) with 100%Q. change (inject_Z 80) with 80%Q.
    change (inject_Z (3 * 50)) with 150%Q. change (inject_Z 330) with 330%Q.
    generalize (inject_Z z). intros q. lra. }
  repeat apply conj.
  - rewrite Hsc. unfold Math_floor. rewrite (Qfloor_integer _ _ Hsum).
    rewrite Hz, inject_Z_plus. reflexivity.
  - rewrite Hst, Hs50. reflexivity.
  - rewrite Hpd, H3. reflexivity.
  - intros Hq. destruct (success_round_same_level random m Hp Hq Hbelow) as (Hl & _).
    now rewrite Hl.
Qed.

Lemma success_reward_witness :
  let m := roundInPlay false 3 50 1000 1 80 in
  (score (game (handleCellClick 3 2 m)) == 1330)%Q
  /\ (stability (game (handleCellClick 3 2 m)) == 65)%Q
  /\ currentLevel (game (playRound (fun _ => 0%Q) m RoundSuccess)) = 3.
Proof.
  cbn zeta.
  destruct (success_reward (fun _ => 0%Q) (roundInPlay false 3 50 1000 1 80) 3 2
              eq_refl eq_refl eq_refl) as (_ & _ & _ & _ & _ & _ & H).
  assert (E : exists z, (score (game (roundInPlay false 3 50 1000 1 80)) == inject_Z z)%Q)
    by (exists 1000; reflexivity).
  destruct (H eq_refl eq_refl (Qeq_refl _) (Qeq_refl _) E) as (H1 & H2 & _ & H4).
  split; [exact H1 |]. split; [exact H2 | exact (H4 eq_refl)].
Defined.

(** The countdown does reach zero: with a positive decay, from some number
    of ticks on the failure transition has been applied, once. *)
(** The decrement is at least 3/16 at a level that is not negative. *)
Lemma decay_lower level : 0 <= level -> (3 # 16 <= decay level)%Q.
Proof.
  intros Hl. unfold decay.
  pose proof tinyDouble_small as [Ht0 Ht]. pose proof unitRoundoff_pos as Hc.
  pose proof rounding_small as [_ Hu].
  assert (H04 : (0 <= roundDouble (4 # 100))%Q)
    by (apply roundDouble_spec; unfold Qle; cbn; lia).
  assert (HL : (0 <= inject_Z level)%Q)
    by (change 0%Q with (inject_Z 0); rewrite <- Zle_Qle; exact Hl).
  assert (Hprod : (0 <= inject_Z level * roundDouble (4 # 100))%Q)
    by (apply Qmult_le_0_compat; assumption).
  destruct (proj1 (roundDouble_spec _) Hprod) as [Hp _].
  set (p := roundDouble (inject_Z level * roundDouble (4 # 100))) in *. clearbody p.
  assert (Hs : (0 <= (25 # 100) + p)%Q) by lra.
  destruct (proj1 (roundDouble_spec _) Hs) as [_ [Hlo _]].
  set (d := roundDouble ((25 # 100) + p)) in *. clearbody d.
  set (c := unitRoundoff) in *. set (t := tinyDouble) in *. clearbody c t.
  assert (H1 : ((25 # 100) * (1 - c) <= ((25 # 100) + p) * (1 - c))%Q) by nra.
  lra.
Qed.

(** One tick with the timer above zero: only the timer changes, and it ends
    at or below zero or at least 1/8 lower. *)
Lemma tick_lowers m :
  0 <= currentLevel (game m) -> (0 < timer m <= 128)%Q ->
  timerTick m = setTimer (timer (timerTick m)) m
  /\ ((timer (timerTick m) <= 0)%Q
      \/ (0 < timer (timerTick m) <= timer m - (1 # 8))%Q).
Proof.
  intros Hl [Hpos Hmax]. unfold timerTick.
  destruct (Qle_bool (timer m) 0) eqn:Hq; [apply Qle_bool_iff in Hq; lra |].
  cbn [timer setTimer]. split; [reflexivity |].
  pose proof (decay_lower _ Hl) as Hd.
  pose proof rounding_small as [Hsmall _]. unfold roundingSlack in Hsmall.
  pose proof tinyDouble_small as [Ht0 _]. pose proof unitRoundoff_pos as Hc.
  set (d := decay (currentLevel (game m))) in *. clearbody d.
  destruct (Qlt_le_dec 0 (timer m - d)) as [Hy | Hy].
  - pose proof (roundDouble_near (timer m - d) 128 ltac:(lra)) as [_ Hhi].
    destruct (proj1 (roundDouble_spec (timer m - d)) ltac:(lra)) as [H0 _].
    set (r := roundDouble (timer m - d)) in *. clearbody r.
    set (c := unitRoundoff) in *. set (t := tinyDouble) in *. clearbody c t.
    destruct (Qlt_le_dec 0 r); [right; lra | left; lra].
  - left. apply (proj2 (roundDouble_spec (timer m - d))). exact Hy.
Qed.

Lemma ticks_add a : forall b m, ticks (a + b) m = ticks b (ticks a m).
Proof. induction a as [| a IH]; intros b m; cbn [Nat.add ticks]; [reflexivity | apply IH]. Qed.

(** While the timer is above zero before each tick, nothing but the timer
    changes: the failure transition does not fire early. *)
Lemma ticks_wait n : forall m,
  (forall k, (k < n)%nat -> (0 < timer (ticks k m))%Q) ->
  ticks n m = setTimer (timer (ticks n m)) m.
Proof.
  induction n as [| n IH]; intros m Hpos.
  - cbn [ticks]. now destruct m.
  - cbn [ticks].
    assert (H0 : (0 < timer m)%Q) by (apply (Hpos 0%nat); lia).
    assert (Et : timerTick m
                 = setTimer (roundDouble (timer m - decay (currentLevel (game m)))) m).
    { unfold timerTick.
      destruct (Qle_bool (timer m) 0) eqn:Hq; [apply Qle_bool_iff in Hq; lra | reflexivity]. }
    rewrite (IH (timerTick m)).
    + rewrite Et at 2. reflexivity.
    + intros k Hk. apply (Hpos (S k)). lia.
Qed.

Lemma handleFailure_setTimer t m :
  game (handleFailure (setTimer t m)) = game (handleFailure m)
  /\ pending (handleFailure (setTimer t m)) = pending (handleFailure m).
Proof. split; reflexivity. Qed.

(** The first tick that finds the timer at or below zero fires, and no later
    tick does. *)
Lemma ticks_fire_exactly k j m :
  failureHandled m = false ->
  (forall i, (i < k)%nat -> (0 < timer (ticks i m))%Q) ->
  (timer (ticks k m) <= 0)%Q ->
  game (ticks k m) = game m /\ pending (ticks k m) = pending m
  /\ game (ticks (S k + j) m) = game (handleFailure m)
  /\ pending (ticks (S k + j) m) = pending (handleFailure m)
  /\ failureHandled (ticks (S k + j) m) = true.
Proof.
  intros Hh Hpos Hz. pose proof (ticks_wait k m Hpos) as Ew.
  assert (Hk : game (ticks k m) = game m /\ pending (ticks k m) = pending m
               /\ failureHandled (ticks k m) = false)
    by (rewrite Ew; cbn; auto).
  destruct Hk as (Hg & Hp & Hf). split; [exact Hg |]. split; [exact Hp |].
  replace (S k + j)%nat with (k + S j)%nat by lia. rewrite ticks_add.
  destruct (ticks_fire_at_zero j (ticks k m) Hf Hz) as (G & P & F).
  rewrite G, P, F, Ew.
  destruct (handleFailure_setTimer (timer (ticks k m)) m) as [-> ->]. auto.
Qed.

(** At a level that is not negative, a timer of at most 128 is at or below
    zero after at most eight ticks per unit. *)
Lemma ticks_reach_zero (k : nat) : forall (m : Machine) (j : nat),
  failureHandled m = false ->
  0 <= currentLevel (game m) -> (timer m <= 128)%Q ->
  (timer m <= inject_Z (Z.of_nat k) * (1 # 8))%Q ->
  game (ticks (S k + j) m) = game (handleFailure m)
  /\ pending (ticks (S k + j) m) = pending (handleFailure m).
Proof.
  induction k as [| k IH]; intros m j Hh Hl Hmax Ht.
  - assert (H0 : (timer m <= 0)%Q)
      by (change (inject_Z (Z.of_nat 0)) with 0%Q in Ht; lra).
    destruct (ticks_fire_at_zero j m Hh H0) as (Hg & Hp & _). auto.
  - destruct (Qlt_le_dec 0 (timer m)) as [Hpos | H0].
    + change (S (S k) + j)%nat with (S (S k + j)). cbn [ticks].
      destruct (tick_lowers m Hl (conj Hpos Hmax)) as [Et Hlow].
      rewrite Nat2Z.inj_succ, <- Z.add_1_r, inject_Z_plus in Ht.
      change (inject_Z 1) with 1%Q in Ht.
      set (a := inject_Z (Z.of_nat k)) in *.
      assert (Hm' : (timer (timerTick m) <= 128)%Q) by (destruct Hlow; lra).
      assert (Ht' : (timer (timerTick m) <= a * (1 # 8))%Q).
      { destruct Hlow as [Hz | Hz]; [| lra].
        assert (Ha : (0 <= a)%Q)
          by (subst a; change 0%Q with (inject_Z 0); rewrite <- Zle_Qle; lia).
        lra. }
      revert Hm' Ht'. rewrite Et.
      set (t' := timer (timerTick m)). intros Hm' Ht'.
      destruct (IH (setTimer t' m) j Hh Hl Hm' Ht') as [Hg Hp].
      rewrite Hg, Hp. apply handleFailure_setTimer.
    + destruct (ticks_fire_at_zero (S k + j) m Hh H0) as (Hg & Hp & _). auto.
Qed.

(** X27.  The time-out guard of [RelationalChain.tsx] (l.451-478).  A
    countdown cycle starts when a render enters [playing], which lowers
    [failureHandled].  From there, as
    long as the timer was above zero before every tick the failure
    transition has not been applied; the first tick that finds the timer at
    or below zero applies it, once, and every later tick changes nothing;
    so after any number of ticks the game is either untouched or exactly as
    one application of the transition leaves it.  At a level that is not
    negative with the timer at most 128 the timer does get to zero.  The
    transition leaves [playing], so the interval stops until the next
    round. *)
Theorem timeout_fires_once (random : nat -> Q) (m0 : Machine) (e : Event) (n : nat) :
  status (game m0) <> playing -> status (game (step random m0 e)) = playing ->
  let m := step random m0 e in
  failureHandled m = false
  /\ ((forall i, (i < n)%nat -> (0 < timer (ticks i m))%Q) ->
      game (ticks n m) = game m /\ pending (ticks n m) = pending m
      /\ failureHandled (ticks n m) = false)
  /\ ((forall i, (i < n)%nat -> (0 < timer (ticks i m))%Q) ->
      (timer (ticks n m) <= 0)%Q ->
      forall j,
        game (ticks (S n + j) m) = game (handleFailure m)
        /\ pending (ticks (S n + j) m) = pending (handleFailure m)
        /\ failureHandled (ticks (S n + j) m) = true)
  /\ ((game (ticks n m) = game m /\ pending (ticks n m) = pending m
       /\ failureHandled (ticks n m) = false)
      \/ (game (ticks n m) = game (handleFailure m)
          /\ pending (ticks n m) = pending (handleFailure m)
          /\ failureHandled (ticks n m) = true))
  /\ (0 <= currentLevel (game m) -> (timer m <= 128)%Q ->
      exists k, forall j,
        game (ticks (k + j) m) = game (handleFailure m)
        /\ pending (ticks (k + j) m) = pending (handleFailure m))
  /\ (isPracticeMode (game m) = false ->
      sessionTotal (game (ticks n m)) <= sessionTotal (game m) + 1
      /\ (length (pending (ticks n m)) <= S (length (pending m)))%nat)
  /\ status (game (handleFailure m)) = success_anim
  /\ intervalRunning (game (handleFailure m)) = false.
Proof.
  intros Hs0 Hs1. cbn zeta.
  pose proof (cycle_starts_unhandled random m0 e Hs0 Hs1) as Hh.
  set (m := step random m0 e) in *.
  pose proof (ticks_fire_at_most_once n m Hh) as Hn.
  split; [exact Hh |]. split; [| split; [| split; [exact Hn |]]].
  - intros Hpos. rewrite (ticks_wait n m Hpos). cbn. auto.
  - intros Hpos Hz j. apply (ticks_fire_exactly n j m Hh Hpos Hz).
  - split; [| split; [| apply handleFailure_leaves_playing]].
    + intros Hl Hmax.
      set (k := Z.to_nat (Qceiling (timer m * 8))).
      exists (S k). intros j. apply ticks_reach_zero; [exact Hh | exact Hl | exact Hmax |].
      pose proof (Qle_ceiling (timer m * 8)) as Hc.
      assert (Hk : (inject_Z (Qceiling (timer m * 8)) <= inject_Z (Z.of_nat k))%Q).
      { rewrite <- Zle_Qle. subst k. lia. }
      lra.
    + intros Hp. destruct (handleFailure_marks m Hp) as (Hs & Hl & _).
      destruct Hn as [(Hg & Hq & _) | (Hg & Hq & _)]; rewrite Hg, Hq; lia.
Qed.

Lemma timeout_fires_once_witness :
  let m := step (fun _ => 0%Q) initialMachine EvStart in
  status (game initialMachine) <> playing /\ status (game m) = playing
  /\ failureHandled m = false.
Proof.
  cbn zeta.
  assert (H0 : status (game initialMachine) <> playing) by (vm_compute; discriminate).
  assert (H1 : status (game (step (fun _ => 0%Q) initialMachine EvStart)) = playing)
    by (vm_compute; reflexivity).
  split; [exact H0 |]. split; [exact H1 |].
  exact (proj1 (timeout_fires_once (fun _ => 0%Q) initialMachine EvStart 350 H0 H1)).
Defined.

(** The guard at work: from the menu, a game is started at level 1 and the
    timer runs out after 345 ticks; 350 ticks count one failure. *)
Example timeout_fires_once_example :
  let m := step (fun _ => 0%Q) initialMachine EvStart in
  failureHandled m = false
  /\ sessionTotal (game (ticks 345 m)) = 0
  /\ sessionTotal (game (ticks 346 m)) = 1
  /\ sessionTotal (game (ticks 350 m)) = 1.
Proof. vm_compute. repeat split. Qed.

(** C3.  The claim is not met by [handleSuccess]: its updater guards the
    score, the stability and the session counters by [isPracticeMode] and
    writes the multiplier without a guard.  In practice mode, while playing
    at level 1 with multiplier 1, a correct selection leaves the score, the
    stability and the tag table as they were and raises the multiplier to
    1.5, which is still there when the next round is in play.  After eight
    practice successes the multiplier is 5 with the score still 0, and once
    practice mode is left the first success with a full timer scores
    (100 + 100) * 5 + 50 = 1050, where the multiplier 1 of a player who has
    not practised gives 250. *)
Theorem practice_multiplier_leaks :
  let m := roundInPlay true 1 50 0 1 100 in
  let clicked := handleCellClick 3 2 m in
  let next := playRound (fun _ => 0%Q) m RoundSuccess in
  let practised := playRounds (fun _ => 0%Q) m (repeat RoundSuccess 8) in
  let scoring := togglePracticeMode (fun _ => 0%Q) practised in
  (isPracticeMode (game m) = true /\ status (game m) = playing
   /\ targetPos m = Some (mkCell 3 2) /\ multiplier (game m) = 1%Q)
  /\ (score (game clicked) = score (game m)
      /\ (stability (game clicked) == stability (game m))%Q
      /\ tags (analytics (game clicked)) = tags (analytics (game m))
      /\ sessionTotal (game clicked) = sessionTotal (game m))
  /\ multiplier (game clicked) = (3 # 2)%Q
  /\ (status (game next) = playing /\ isPracticeMode (game next) = true
      /\ multiplier (game next) = (3 # 2)%Q)
  /\ ~ (3 # 2 == 1)%Q
  /\ (score (game practised) = 0%Q /\ (multiplier (game practised) == 5)%Q)
  /\ (isPracticeMode (game scoring) = false /\ status (game scoring) = playing
      /\ (timer scoring == 100)%Q)
  /\ score (game (handleCellClick 3 2 scoring)) = 1050%Q
  /\ score (game (handleCellClick 3 2 (roundInPlay false 1 50 0 1 100))) = 250%Q.
Proof.
  cbn zeta.
  assert (Hb : (0 <= stability (game (roundInPlay true 1 50 0 1 100)) <= 100)%Q)
    by (split; vm_compute; discriminate).
  destruct (practice_round (fun _ => 0%Q) (roundInPlay true 1 50 0 1 100) RoundSuccess
              eq_refl eq_refl Hb) as (Hpm & Hst & _ & _ & _ & _ & _ & _ & _ & _ & Hmu).
  cbn zeta in Hmu, Hpm, Hst.
  split; [repeat split |].
  split; [repeat split |].
  split; [reflexivity |].
  split; [split; [exact Hst | split; [exact Hpm | rewrite Hmu; reflexivity]] |].
  split; [intros H; vm_compute in H; discriminate H |].
  vm_compute. repeat split.
Qed.

(** X26.  What the practice guards of [handleSuccess], [handleFailure] and
    [updateAnalytics] do keep: in practice mode, from a state with stability
    in [0,100] and no callback pending, any sequence of success and failure
    rounds leaves the score, the stability, every analytics tag counter and
    the level as they were, and stays in practice mode; each round ends in
    play again, with the streak one higher after a success and 0 after a
    failure. *)
Theorem practice_rounds_frozen (random : nat -> Q) (m : Machine)
    (outcomes : list Outcome) (o : Outcome) :
  isPracticeMode (game m) = true -> pending m = [] ->
  (0 <= stability (game m) <= 100)%Q ->
  let g := game m in
  let g' := game (playRounds random m outcomes) in
  let g1 := game (playRound random m o) in
  (isPracticeMode g' = true
   /\ score g' = score g
   /\ (stability g' == stability g)%Q
   /\ tags (analytics g') = tags (analytics g)
   /\ (forall key, attemptsOf (tags (analytics g')) key = attemptsOf (tags (analytics g)) key
                   /\ failuresOf (tags (analytics g')) key
                      = failuresOf (tags (analytics g)) key)
   /\ currentLevel g' = currentLevel g)
  /\ status g1 = playing
  /\ streak g1 = match o with RoundSuccess => streak g + 1 | RoundFailure => 0 end.
Proof.
  intros Hp Hq Hb. cbn zeta.
  destruct (practice_rounds random outcomes m Hp Hq Hb) as (H1 & H2 & H3 & H4 & H5).
  destruct (practice_round random m o Hp Hq Hb)
    as (_ & Hs & _ & _ & _ & _ & _ & _ & _ & Hsk & Hmu).
  cbn zeta in *.
  repeat apply conj; try assumption.
  intros key. rewrite H4. split; reflexivity.
Qed.

Lemma practice_rounds_frozen_witness :
  let m := roundInPlay true 1 50 0 1 100 in
  let m' := playRounds (fun _ => 0%Q) m [RoundSuccess; RoundFailure; RoundSuccess] in
  isPracticeMode (game m) = true
  /\ score (game m') = 0%Q
  /\ (stability (game m') == 50)%Q
  /\ tags (analytics (game m')) = ∅.
Proof.
  cbn zeta.
  assert (Hb : (0 <= stability (game (roundInPlay true 1 50 0 1 100)) <= 100)%Q)
    by (split; vm_compute; discriminate).
  destruct (practice_rounds_frozen (fun _ => 0%Q) (roundInPlay true 1 50 0 1 100)
              [RoundSuccess; RoundFailure; RoundSuccess] RoundSuccess
              eq_refl eq_refl Hb) as ((_ & H2 & H3 & H4 & _) & _).
  split; [reflexivity |]. split; [exact H2 |]. split; [exact H3 | exact H4].
Defined.

(** ** The earlier component *)

(** On the four rotations the generator draws, both versions of [getVector]
    agree; they differ on negative angles, where the bare [%] stays
    negative. *)

Example legacy_getVector_negative :
  Legacy.getVector (-90) FRONT = mkVec 0 0 /\ getVector (-90) FRONT = mkVec (-1) 0.
Proof. split; reflexivity. Qed.

(** C1.  The claim is not met by the generator of the earlier component
    ([part_000], l.186-264), which has a cap of 100 attempts and hands over
    whatever the last attempt left.  At level 1 with every [Math.random()]
    equal to 0, each candidate has anchor (0,0), rotation 0 and the single
    instruction FRONT, whose step leads to (0,-1), off the grid; the search
    gives up and the setters receive that anchor and that chain, with an
    undefined target. *)
Theorem legacy_generateLevel_off_grid :
  let v := fst (Legacy.generateLevelVars (fun _ => 0%Q) 1 0%nat) in
  valid v = false
  /\ newAnchor v = Some (mkCell 0 0) /\ newRot v = Some 0
  /\ (exists s, newChain v = Some [s]
        /\ dir s = FRONT /\ protocol s = DIRECT
        /\ Legacy.getVector 0 (logicDir (protocol s) (dir s)) = mkVec 0 (-1)
        /\ prefixPositions 0 (mkCell 0 0) [s] = [mkCell 0 (-1)])
  /\ ~ inGrid (mkCell 0 (-1))
  /\ finalX v = None /\ finalY v = None
  /\ fst (Legacy.generateLevel (fun _ => 0%Q) 1 0%nat) = None.
Proof.
  cbn zeta.
  split; [vm_compute; reflexivity |].
  split; [vm_compute; reflexivity |].
  split; [vm_compute; reflexivity |].
  split.
  { eexists. split; [vm_compute; reflexivity |]. repeat split. }
  split; [unfold inGrid; cbn; lia |].
  vm_compute. repeat split.
Qed.

(** C2.  The claim is not met by the generator of the earlier component
    ([part_000], l.193-264): its cap is 100 attempts, and it has no failsafe.
    At level 1 with every [Math.random()] equal to 0 the loop leaves through
    its guard after 100 rejected candidates, and the setters receive an
    undefined target where the claim promises anchor (3,3), rotation 0 and
    target (3,2). *)
Theorem legacy_generateLevel_exhausted :
  let v := fst (Legacy.generateLevelVars (fun _ => 0%Q) 1 0%nat) in
  valid v = false /\ attemptCount v = 100
  /\ negb (valid v) && (attemptCount v <? 100) = false
  /\ newAnchor v = Some (mkCell 0 0)
  /\ finalX v = None /\ finalY v = None
  /\ installed v = None
  /\ fst (Legacy.generateLevel (fun _ => 0%Q) 1 0%nat) = None
  /\ fst (Legacy.generateLevel (fun _ => 0%Q) 1 0%nat) <> Some failsafePuzzle.
Proof. vm_compute. repeat split. intros H. discriminate H. Qed.

(** Without the guard, every tick at or below zero runs the failure
    transition again and schedules its callbacks again. *)
Lemma legacy_timeout_fires_each_tick closure n : forall l,
  (Legacy.timer l <= 0)%Q ->
  length (Legacy.pending (Legacy.ticks closure n l)) = (length (Legacy.pending l) + n)%nat.
Proof.
  induction n as [| n IH]; intros l Ht; cbn [Legacy.ticks]; [lia |].
  assert (Hq : Qle_bool (Legacy.timer l) 0 = true) by now apply Qle_bool_iff.
  unfold Legacy.timerTick. rewrite Hq. rewrite IH by (cbn; lra).
  cbn. rewrite length_app. cbn. lia.
Qed.

(** C4.  The claim is not met by the game loop of the earlier component
    ([part_000], l.299-314), which calls [handleFailure] on every tick that
    finds the timer at or below zero, and whose [handleFailure] sets the
    status back to [playing] 200 ms before [generateLevel] puts the timer
    back to 100.  At level 2 with stability 50 and the timer run out: the
    tick applies the failure transition (stability 20, multiplier 1, streak
    0, status [success_anim], during which the interval is stopped); its
    callback sets the status to [playing] with the timer still 0; the first
    tick of the restarted interval applies the transition a second time,
    before the next round has started, and the callback of that one takes
    the player down to level 1 (the round that the first transition starts
    in between sets the status and the board only).  One application leaves
    the player at level 2 with stability 20. *)
Theorem legacy_timeout_fires_twice :
  let g0 := Legacy.mkGame playing 2 50 2 1000 3 4 true in
  let l0 := Legacy.mkLoop g0 0 [] in
  let l1 := Legacy.intervalTick l0 in
  let l2 := Legacy.failureCallback l1 in
  let l3 := Legacy.intervalTick l2 in
  let l4 := Legacy.failureCallback l3 in
  (Legacy.game l1 = Legacy.mkGame success_anim 2 20 2 1000 1 0 true
   /\ Legacy.pending l1 = [(playing, 2, 20%Q)]
   /\ Legacy.intervalTick l1 = l1)
  /\ (Legacy.game l2 = Legacy.mkGame playing 2 20 2 1000 1 0 true
      /\ Legacy.timer l2 = 0%Q /\ Legacy.pending l2 = [])
  /\ (Legacy.game l3 = Legacy.game (Legacy.handleFailure (Legacy.game l2) l2)
      /\ Legacy.game l3 = Legacy.mkGame success_anim 2 50 2 1000 1 0 true
      /\ Legacy.pending l3 = [(level_down, 1, 50%Q)])
  /\ Legacy.game l4 = Legacy.mkGame level_down 1 50 2 1000 1 0 true
  /\ Legacy.currentLevel (Legacy.game l4) <> Legacy.currentLevel (Legacy.game l2)
  /\ length (Legacy.pending (Legacy.ticks g0 2 l0)) = 2%nat.
Proof. vm_compute. repeat split. intros H. discriminate H. Qed.

(** * Further properties *)

(** ** Geometry *)

(** X1. The rotation is read modulo 360, negative rotations included, and a
    body-fixed direction is FRONT turned by its offset: for integer
    rotations of a magnitude at which the sum with the offset is exact
    (below 2^53 - 270). *)
Theorem getVector_turns (r k : Z) (d : Direction) :
  exactRotation r -> exactRotation (r + 360 * k) ->
  getVector (r + 360 * k) d = getVector r d
  /\ getVector r RIGHT = getVector (r + 90) FRONT
  /\ getVector r BACK = getVector (r + 180) FRONT
  /\ getVector r LEFT = getVector (r + 270) FRONT.
Proof.
  intros Hx Hk. split.
  - destruct (isCardinal d) eqn:Hd.
    + now rewrite (getVector_cardinal (r + 360 * k) d Hd), (getVector_cardinal r d Hd).
    + rewrite !getVector_body by assumption. f_equal.
      replace (r + 360 * k + angleOffset d) with (r + angleOffset d + k * 360) by lia.
      apply Z.mod_add. lia.
  - cbn [getVector angleOffset]. rewrite !Z.add_0_r. repeat split.
Qed.

Lemma getVector_turns_witness :
  exactRotation (-90) /\ exactRotation (-90 + 360 * 2)
  /\ getVector (-90 + 360 * 2) FRONT = getVector (-90) FRONT.
Proof.
  assert (H1 : exactRotation (-90)) by (unfold exactRotation, MAX_EXACT; cbn; lia).
  assert (H2 : exactRotation (-90 + 360 * 2)) by (unfold exactRotation, MAX_EXACT; cbn; lia).
  split; [exact H1 |]. split; [exact H2 |].
  exact (proj1 (getVector_turns (-90) 2 FRONT H1 H2)).
Defined.

(** X2. [safeMod] is the mathematical remainder: for a positive modulus of
    at most 2^52 (so that the sum inside is exact) its result lies in
    [0, m), differs from [n] by a multiple of [m], and is left alone by a
    second reduction, where the bare [%] is negative for a negative [n]. *)
Theorem safeMod_range (n m : Z) :
  0 < m -> 2 * m <= MAX_EXACT ->
  0 <= safeMod n m < m
  /\ (exists q, n = q * m + safeMod n m)
  /\ safeMod (safeMod n m) m = safeMod n m
  /\ (n < 0 -> Z.rem n m <= 0).
Proof.
  intros Hm Hx. rewrite !safeMod_mod by assumption.
  pose proof (Z.mod_pos_bound n m Hm) as Hb.
  split; [exact Hb |]. split; [| split].
  - exists (n / m). pose proof (Z.div_mod n m ltac:(lia)). lia.
  - apply Z.mod_mod. lia.
  - intros Hn. pose proof (Z.rem_bound_pos_neg n m Hm ltac:(lia)). lia.
Qed.

Lemma safeMod_range_witness :
  0 < 360 /\ 2 * 360 <= MAX_EXACT /\ safeMod (-90) 360 = 270 /\ Z.rem (-90) 360 <= 0.
Proof.
  assert (Hx : 2 * 360 <= MAX_EXACT) by (unfold MAX_EXACT; lia).
  destruct (safeMod_range (-90) 360 ltac:(lia) Hx) as (_ & _ & _ & H).
  split; [lia |]. split; [exact Hx |]. split; [reflexivity | apply H; lia].
Defined.

(** X3. Inversion keeps the family of a direction and reverses its
    displacement: under any integer rotation that is a multiple of 90 (of a
    magnitude at which the sum with the offset is exact), a step followed
    by its opposite leads back to the starting cell, so an instruction and
    the same instruction under the other protocol cancel. *)
Theorem opposite_step_cancels (r : Z) (d : Direction) (p : Cell) (s : CommandStep) :
  r mod 90 = 0 -> exactRotation r ->
  isCardinal (getOpposite d) = isCardinal d
  /\ move (move p (getVector r d)) (getVector r (getOpposite d)) = p
  /\ move (move p (stepVector r s))
          (stepVector r (mkStep (dir s) (frame s)
                           (match protocol s with DIRECT => INVERTED | INVERTED => DIRECT end)
                           (id s) (displayColor s))) = p.
Proof.
  intros Hr Hx. split; [destruct d; reflexivity |].
  assert (Hback : forall v, move (move p v) (negVec v) = p).
  { intros [vx vy]. destruct p as [x y]. unfold move, negVec. cbn. f_equal; lia. }
  split.
  - rewrite (getVector_opposite r d Hr Hx). apply Hback.
  - unfold stepVector. cbn [protocol dir].
    destruct (protocol s); cbn [logicDir].
    + rewrite (getVector_opposite r (dir s) Hr Hx). apply Hback.
    + rewrite (getVector_opposite r (dir s) Hr Hx).
      destruct (getVector r (dir s)) as [vx vy]. destruct p as [x y].
      unfold move, negVec. cbn. f_equal; lia.
Qed.

Lemma opposite_step_cancels_witness :
  180 mod 90 = 0 /\ exactRotation 180
  /\ move (move (mkCell 3 3) (getVector 180 LEFT)) (getVector 180 RIGHT) = mkCell 3 3.
Proof.
  assert (Hx : exactRotation 180) by (unfold exactRotation, MAX_EXACT; cbn; lia).
  destruct (opposite_step_cancels 180 LEFT (mkCell 3 3) failsafeStep eq_refl Hx)
    as (_ & H & _).
  split; [reflexivity |]. split; [exact Hx | exact H].
Defined.

(** ** Level generator *)

Lemma pick_absolute r : (0 <= r < 1)%Q -> isCardinal (pick absoluteDirs r) = true.
Proof.
  intros Hr. pose proof (pick_index_range absoluteDirs r Hr ltac:(discriminate)) as Hi.
  unfold pick. destruct (Z.to_nat _) as [| [| [| [| i]]]]; cbn in *; try reflexivity; lia.
Qed.

Lemma pick_relative r : (0 <= r < 1)%Q -> isCardinal (pick relativeDirs r) = false.
Proof.
  intros Hr. pose proof (pick_index_range relativeDirs r Hr ltac:(discriminate)) as Hi.
  unfold pick. destruct (Z.to_nat _) as [| [| [| [| i]]]]; cbn in *; try reflexivity; lia.
Qed.

Section GeneratorGates.

Variable random : nat -> Q.

Local Arguments pick : simpl never.

Lemma genStep_gated resolve level rot c :
  stepGated level (fst (fst (genStep random resolve level rot c))).
Proof.
  unfold genStep, bind, gated, ret, Math_random,
    allowAbsolute, allowInversion, allowInterference.
  destruct (Z.geb_spec level 7), (Z.geb_spec level 4), (Z.geb_spec level 12); cbn;
    repeat match goal with
           | |- context [Qgtb ?a ?b] => destruct (Qgtb a b); cbn
           end;
    unfold stepGated; cbn;
    rewrite ?(pick_absolute _ (Qfrac_range _)), ?(pick_relative _ (Qfrac_range _));
    repeat apply conj; intros; try lia; try congruence; auto.
Qed.

Lemma chainLoop_gated resolve slots : forall level rot chain0 x0 y0 c,
  Forall (stepGated level) chain0 ->
  Forall (stepGated level)
    (fst (fst (fst (fst (chainLoop random resolve slots level rot chain0 x0 y0 c))))).
Proof.
  induction slots as [| slots IH]; intros level rot chain0 x0 y0 c H0; [exact H0 |].
  cbn [chainLoop]. unfold bind.
  pose proof (genStep_gated resolve level rot c) as Hs.
  destruct (genStep random resolve level rot c) as [[s v] c']. cbn [fst] in Hs.
  assert (H1 : Forall (stepGated level) (chain0 ++ [s]))
    by (apply Forall_app; split; [exact H0 | constructor; [exact Hs | constructor]]).
  destruct (outOfGrid _ _); [exact H1 | now apply IH].
Qed.

Lemma attempt_searched level v c : searchedVars level (fst (attempt random level v c)).
Proof.
  unfold attempt, bind, Math_random, ret.
  set (rx := Qfrac (random c)). set (ry := Qfrac (random (S c))).
  set (rr := Qfrac (random (S (S c)))).
  set (ax := Math_floor (rx * inject_Z (GRID_SIZE - padding level * 2)) + padding level).
  set (ay := Math_floor (ry * inject_Z (GRID_SIZE - padding level * 2)) + padding level).
  set (rot := Math_floor (rr * 4) * 90).
  cbn [cx cy].
  pose proof (chainLoop_gated getVector (chainLength level) level rot [] ax ay (S (S (S c)))
                (List.Forall_nil _)) as Hch.
  destruct (chainLoop _ _ _ _ _ _ _ _ _) as [[[[ch x] y] failed] c']. cbn [fst] in Hch.
  assert (Hpad : 0 < GRID_SIZE - padding level * 2).
  { unfold GRID_SIZE. destruct (padding_cases level) as [-> | [-> | ->]]; lia. }
  pose proof (floor_scale_range rx _ (Qfrac_range _) Hpad) as Hx.
  pose proof (floor_scale_range ry _ (Qfrac_range _) Hpad) as Hy.
  pose proof (floor_scale_range rr 4 (Qfrac_range _) ltac:(lia)) as Hr.
  change (inject_Z 4) with 4%Q in Hr.
  assert (Ha : padded level (mkCell ax ay)) by (unfold padded; cbn; subst ax ay; lia).
  assert (Hrot : cardinalRotation rot) by (unfold cardinalRotation; subst rot; lia).
  destruct (_ && _); unfold searchedVars; cbn;
    (repeat apply conj; intros ? [= <-]; assumption).
Qed.

Lemma whileLoop_searched level fuel : forall v c,
  searchedVars level v -> searchedVars level (fst (whileLoop random fuel level v c)).
Proof.
  induction fuel as [| fuel IH]; intros v c Hv; cbn [whileLoop]; [exact Hv |].
  destruct (negb (valid v) && (attemptCount v <? MAX_ATTEMPTS)); [| exact Hv].
  unfold bind. pose proof (attempt_searched level v c) as Ha.
  destruct (attempt random level v c) as [v' c']. now apply IH.
Qed.

(** The puzzle installed is either the failsafe or a candidate the search
    accepted, with everything the search guarantees of it. *)
Lemma generateLevel_searched level c :
  let p := fst (generateLevel random level c) in
  p = failsafePuzzle
  \/ (acceptedPuzzle level p /\ padded level (anchorCell p)
      /\ Forall (stepGated level) (instructions p)).
Proof.
  cbn zeta.
  destruct (generateLevel_installed random level c) as (p & Hi & -> & [[Hv Hp] | [_ ->]]);
    [right | left; reflexivity].
  pose proof (whileLoop_searched level (Z.to_nat MAX_ATTEMPTS) initialVars c) as Hs.
  fold (searchLevel random level c) in Hs.
  unfold generateLevelVars, bind, ret in Hi.
  destruct (searchLevel random level c) as [v c'] eqn:E. cbn [fst] in *.
  rewrite Hv in Hi. cbn [fst] in Hi.
  destruct Hs as (Ha & _ & Hc).
  { unfold searchedVars, initialVars. cbn. repeat split; intros; discriminate. }
  unfold installed in Hi.
  destruct (newAnchor v) as [a |]; [| discriminate].
  destruct (newRot v) as [r |]; [| discriminate].
  destruct (newChain v) as [ch |]; [| discriminate].
  destruct (finalX v) as [x |]; [| discriminate].
  destruct (finalY v) as [y |]; [| discriminate].
  injection Hi as <-. cbn. auto.
Qed.

End GeneratorGates.

Lemma failsafe_layout level :
  padded level (anchorCell failsafePuzzle)
  /\ Forall (fun s => (frame s = ABSOLUTE <-> isCardinal (dir s) = true)
                      /\ (level < 4 -> protocol s = DIRECT)
                      /\ (level < 12 -> displayColor s = colourOf (protocol s))
                      /\ (displayColor s = COLORS_direct
                          \/ displayColor s = COLORS_inverted))
       (instructions failsafePuzzle).
Proof.
  split.
  - unfold padded, GRID_SIZE. cbn. destruct (padding_cases level) as [-> | [-> | ->]]; lia.
  - repeat constructor; cbn; auto.
Qed.

(** X4. The feature gates.  In the puzzle installed by [generateLevel] an
    instruction is in the absolute frame exactly when its direction is a
    compass direction; below level 4 every instruction is DIRECT; below
    level 12 every instruction is shown in the colour of its protocol, and at
    any level in one of the two protocol colours.  Below level 7 every
    instruction is body-fixed, unless the puzzle is the failsafe, whose one
    instruction is a world-fixed NORTH at every level. *)
Theorem generateLevel_gates (random : nat -> Q) (level : Z) (c : nat) :
  let p := fst (generateLevel random level c) in
  Forall (fun s => (frame s = ABSOLUTE <-> isCardinal (dir s) = true)
                   /\ (level < 4 -> protocol s = DIRECT)
                   /\ (level < 12 -> displayColor s = colourOf (protocol s))
                   /\ (displayColor s = COLORS_direct
                       \/ displayColor s = COLORS_inverted))
    (instructions p)
  /\ (p = failsafePuzzle
      \/ Forall (fun s => level < 7 -> frame s = RELATIVE) (instructions p)).
Proof.
  cbn zeta. destruct (generateLevel_searched random level c) as [-> | (_ & _ & Hg)].
  - split; [apply failsafe_layout | left; reflexivity].
  - split; [| right]; eapply Forall_impl; try exact Hg;
      unfold stepGated; cbn beta; intros s H; tauto.
Qed.

Lemma generateLevel_gates_witness :
  let p := fst (generateLevel (fun n => Z.of_nat (n * 7 + 3) # 10) 1 0%nat) in
  p <> failsafePuzzle
  /\ Forall (fun s => protocol s = DIRECT /\ frame s = RELATIVE
                      /\ displayColor s = COLORS_direct) (instructions p).
Proof.
  cbn zeta.
  destruct (generateLevel_gates (fun n => Z.of_nat (n * 7 + 3) # 10) 1 0%nat)
    as [Hall [Hf | Hrel]].
  - vm_compute in Hf. discriminate Hf.
  - split; [vm_compute; discriminate |].
    apply Forall_forall. intros s Hs.
    rewrite Forall_forall in Hall, Hrel.
    destruct (Hall s Hs) as (_ & Hd & Hc & _).
    specialize (Hrel s Hs ltac:(lia)). specialize (Hd ltac:(lia)).
    specialize (Hc ltac:(lia)). rewrite Hd in Hc. auto.
Defined.

(** X5. The layout of the puzzle installed by [generateLevel]: the anchor
    keeps the edge padding of the level (0, 1 or 2 cells from every edge),
    the rotation is 0, 90, 180 or 270, and the chain has the length of the
    level (1 to 4) unless it is the one-instruction failsafe. *)
Theorem generateLevel_layout (random : nat -> Q) (level : Z) (c : nat) :
  let p := fst (generateLevel random level c) in
  padded level (anchorCell p)
  /\ (padding level = 0 \/ padding level = 1 \/ padding level = 2)
  /\ cardinalRotation (rotation p)
  /\ (1 <= length (instructions p) <= 4)%nat
  /\ (p = failsafePuzzle \/ length (instructions p) = chainLength level).
Proof.
  cbn zeta. split; [| split; [apply padding_cases |]].
  - destruct (generateLevel_searched random level c) as [-> | (_ & H & _)];
      [apply failsafe_layout | exact H].
  - destruct (generateLevel_searched random level c) as [-> | ((_ & _ & Hr & Hl) & _)].
    + split; [left; reflexivity |]. cbn. split; [lia | left; reflexivity].
    + split; [exact Hr |]. rewrite Hl. split; [| right; reflexivity].
      unfold chainLength.
      repeat match goal with |- context [if ?b then _ else _] => destruct b end; lia.
Qed.

Lemma unit_step_neighbour p v : isUnitVec v -> manhattan p (move p v) = 1.
Proof.
  destruct p as [x y], v as [vx vy]. unfold isUnitVec, manhattan, move. cbn. lia.
Qed.

Lemma walk_neighbours rot (steps : list CommandStep) : forall p,
  cardinalRotation rot ->
  neighbours p (prefixPositions rot p steps)
  /\ manhattan p (finalPosition rot p steps) <= Z.of_nat (length steps).
Proof.
  induction steps as [| s steps IH]; intros p Hr.
  - cbn. split; [exact I |]. unfold manhattan. lia.
  - pose proof (unit_step_neighbour p (stepVector rot s)
                  (getVector_unit_quarter rot _ (cardinalRotation_quarter rot Hr)
                     (cardinalRotation_exact rot Hr))) as H1.
    destruct (IH (move p (stepVector rot s)) Hr) as [Hn Hd].
    cbn [prefixPositions neighbours]. split; [split; assumption |].
    change (finalPosition rot p (s :: steps))
      with (finalPosition rot (move p (stepVector rot s)) steps).
    cbn [length]. unfold manhattan in *. lia.
Qed.

(** X6. The chain installed by [generateLevel] moves one cell at a time:
    consecutive prefix positions are neighbours, and the target lies at a
    Manhattan distance from the anchor that is at least 1 and at most the
    length of the chain. *)
Theorem generateLevel_walk (random : nat -> Q) (level : Z) (c : nat) :
  let p := fst (generateLevel random level c) in
  neighbours (anchorCell p) (prefixPositions (rotation p) (anchorCell p) (instructions p))
  /\ 1 <= manhattan (anchorCell p) (targetCell p) <= Z.of_nat (length (instructions p)).
Proof.
  cbn zeta.
  destruct (generateLevel_searched random level c)
    as [-> | (((Hne & _ & Hfin) & _ & Hr & _) & _)].
  - vm_compute. repeat split; discriminate.
  - destruct (walk_neighbours _ (instructions (fst (generateLevel random level c)))
                (anchorCell (fst (generateLevel random level c))) Hr) as [Hn Hd].
    split; [exact Hn |]. rewrite Hfin. split; [| exact Hd].
    rewrite <- Hfin.
    destruct (anchorCell _) as [ax ay], (targetCell _) as [tx ty].
    unfold manhattan. cbn.
    destruct (Z.eq_dec ax tx), (Z.eq_dec ay ty); subst; try lia. congruence.
Qed.

(** ** Analytics *)

Lemma recordChain_sound result chain t :
  tagsSound t -> tagsSound (recordChain result chain t).
Proof.
  intros Ht key. specialize (Ht key).
  destruct (recordChain_counts result chain t key) as (Ha & Hf & _).
  pose proof (hits_nonneg key chain). rewrite Ha, Hf. destruct result; lia.
Qed.

Lemma tagsSound_empty : tagsSound ∅.
Proof. intros key. unfold failuresOf, attemptsOf. rewrite lookup_empty. cbn. lia. Qed.

(** How the handlers and events may change the tag table: not at all, by
    emptying it, or by recording the current chain once. *)
Lemma updateAnalytics_tags result chain g :
  tags (analytics (updateAnalytics result chain g)) = tags (analytics g)
  \/ tags (analytics (updateAnalytics result chain g))
     = recordChain result chain (tags (analytics g)).
Proof. unfold updateAnalytics. destruct (isPracticeMode g); auto. Qed.

Section TagInvariants.

Variable random : nat -> Q.
Variable P : gmap string MetricData -> Prop.
Hypothesis P_empty : P ∅.
Hypothesis P_record : forall result chain t, P t -> P (recordChain result chain t).

Let Pm (m : Machine) : Prop := P (tags (analytics (game m))).

Lemma handleSuccess_tags m : Pm m -> Pm (handleSuccess m).
Proof.
  unfold Pm. intros H.
  assert (E : tags (analytics (game (handleSuccess m)))
              = tags (analytics (updateAnalytics win (chain m) (game m))))
    by reflexivity.
  rewrite E. destruct (updateAnalytics_tags win (chain m) (game m)) as [-> | ->]; auto.
Qed.

Lemma handleFailure_tags m : Pm m -> Pm (handleFailure m).
Proof.
  unfold Pm. intros H.
  assert (E : tags (analytics (game (handleFailure m)))
              = tags (analytics (updateAnalytics loss (chain m) (game m))))
    by reflexivity.
  rewrite E. destruct (updateAnalytics_tags loss (chain m) (game m)) as [-> | ->]; auto.
Qed.

Lemma dispatch_tags e m : Pm m -> Pm (dispatch random e m).
Proof.
  intros H. destruct e as [| now | confirmed | | x y | input | | k | |]; cbn [dispatch].
  - exact H.
  - destruct (decide _); [| exact H]. unfold Pm, stopGame, recordSession. cbn.
    destruct (_ && _); exact H.
  - destruct confirmed; [exact P_empty | exact H].
  - unfold togglePracticeMode. destruct (decide _); exact H.
  - unfold handleCellClick. destruct (decide _); [| exact H].
    destruct (targetPos m) as [t |]; [destruct (_ && _) |].
    + now apply (handleSuccess_tags (setFeedbackCell _ m)).
    + now apply (handleFailure_tags (setFeedbackCell _ m)).
    + now apply (handleFailure_tags (setFeedbackCell _ m)).
  - unfold Pm, manualSetLevel. cbn.
    destruct input as [[| a text] |]; try exact H.
    destruct (parseInt _) as [lvl |]; [| exact H]. destruct (_ && _); exact H.
  - destruct (intervalRunning _); [| exact H]. unfold timerTick.
    destruct (Qle_bool _ _); [| exact H]. destruct (failureHandled m); [exact H |].
    now apply (handleFailure_tags (setFailureHandled true m)).
  - destruct (pending m !! k) as [t |]; [| exact H].
    unfold Pm. rewrite runTask_game.
    destruct t; cbn [taskGame]; try destruct (decide _); exact H.
  - exact H.
  - exact H.
Qed.

Lemma run_tags events : forall m, Pm m -> Pm (run random m events).
Proof.
  unfold run. induction events as [| e events IH]; intros m H; cbn [fold_left]; [exact H |].
  apply IH. unfold step, Pm. rewrite statusEffect_game. now apply dispatch_tags.
Qed.

End TagInvariants.

(** X7. Failure rates make sense.  If every tag starts with
    0 <= failures <= attempts, then so it is after [updateAnalytics] and
    after any sequence of events; every stored entry with a positive number
    of attempts then has a rate between 0 and 1. *)
Theorem tags_stay_sound (random : nat -> Q) (m : Machine) (events : list Event)
    (result : RoundResult) (steps : list CommandStep) :
  tagsSound (tags (analytics (game m))) ->
  tagsSound (tags (analytics (updateAnalytics result steps (game m))))
  /\ tagsSound (tags (analytics (game (run random m events))))
  /\ (forall key data,
        tags (analytics (game (run random m events))) !! key = Some data ->
        0 < attempts data ->
        (0 <= AnalyticsView.rateOf data <= 1)%Q).
Proof.
  intros H.
  assert (Hrun : tagsSound (tags (analytics (game (run random m events)))))
    by (apply (run_tags random tagsSound tagsSound_empty recordChain_sound events m H)).
  split; [| split; [exact Hrun |]].
  - destruct (updateAnalytics_tags result steps (game m)) as [-> | ->];
      [exact H | now apply recordChain_sound].
  - intros key data Hk Ha. specialize (Hrun key).
    unfold failuresOf, attemptsOf in Hrun. rewrite Hk in Hrun. cbn in Hrun.
    unfold AnalyticsView.rateOf.
    assert (Hq : (0 < inject_Z (attempts data))%Q)
      by (change 0%Q with (inject_Z 0); now rewrite <- Zlt_Qlt).
    assert (Hf : (0 <= inject_Z (failures data) <= inject_Z (attempts data))%Q)
      by (change 0%Q with (inject_Z 0); rewrite <- !Zle_Qle; lia).
    split.
    + apply Qle_shift_div_l; [exact Hq | lra].
    + apply Qle_shift_div_r; [exact Hq | lra].
Qed.

Lemma tags_stay_sound_witness :
  tagsSound (tags (analytics (game initialMachine)))
  /\ tagsSound (tags (analytics (game (run (fun _ => 0%Q) initialMachine
                                         [EvStart; EvCellClick 0 0])))).
Proof.
  assert (H : tagsSound (tags (analytics (game initialMachine)))).
  { intros key. vm_compute. split; discriminate. }
  split; [exact H |].
  exact (proj1 (proj2 (tags_stay_sound (fun _ => 0%Q) initialMachine
                         [EvStart; EvCellClick 0 0] win [] H))).
Defined.

Lemma hitsOfStep_balance s p :
  hitsOfStep "DIRECT" s + hitsOfStep "INVERTED" s
  = hitsOfStep "RELATIVE" s + hitsOfStep "ABSOLUTE" s
  /\ hitsOfStep (protocolName p) s
     = sumZ (List.map (fun d => hitsOfStep (tagKeyString (CompoundKey p d)) s)
               allDirections).
Proof.
  destruct s as [d f pr i c]. destruct d, f, pr, p; vm_compute; split; reflexivity.
Qed.

Lemma hits_balance chain p :
  hits "DIRECT" chain + hits "INVERTED" chain
  = hits "RELATIVE" chain + hits "ABSOLUTE" chain
  /\ hits (protocolName p) chain
     = sumZ (List.map (fun d => hits (tagKeyString (CompoundKey p d)) chain)
               allDirections).
Proof.
  induction chain as [| s chain [IH1 IH2]]; [split; reflexivity |].
  destruct (hitsOfStep_balance s p) as [H1 H2].
  cbn [hits]. split; [lia |].
  rewrite IH2, H2. cbn [allDirections List.map sumZ fold_right]. lia.
Qed.

Lemma recordChain_attempts result chain t key :
  attemptsOf (recordChain result chain t) key = attemptsOf t key + hits key chain.
Proof. apply recordChain_counts. Qed.

Lemma recordChain_failures result chain t key :
  failuresOf (recordChain result chain t) key
  = failuresOf t key + match result with loss => hits key chain | win => 0 end.
Proof. apply recordChain_counts. Qed.

Lemma recordChain_balanced result chain t :
  tagsBalanced attemptsOf t /\ tagsBalanced failuresOf t ->
  tagsBalanced attemptsOf (recordChain result chain t)
  /\ tagsBalanced failuresOf (recordChain result chain t).
Proof.
  intros [[A1 A2] [F1 F2]]. unfold tagsBalanced.
  repeat apply conj; [| intros p | | intros p].
  - rewrite !recordChain_attempts. destruct (hits_balance chain DIRECT). lia.
  - specialize (A2 p). destruct (hits_balance chain p) as [_ H].
    cbn [allDirections List.map sumZ fold_right] in *.
    rewrite !recordChain_attempts. lia.
  - rewrite !recordChain_failures. destruct (hits_balance chain DIRECT).
    destruct result; lia.
  - specialize (F2 p). destruct (hits_balance chain p) as [_ H].
    cbn [allDirections List.map sumZ fold_right] in *.
    rewrite !recordChain_failures. destruct result; lia.
Qed.

Lemma tagsBalanced_empty : tagsBalanced attemptsOf ∅ /\ tagsBalanced failuresOf ∅.
Proof.
  unfold tagsBalanced, attemptsOf, failuresOf.
  repeat apply conj; try intros p; rewrite ?lookup_empty; reflexivity.
Qed.

(** X8. The three families of counters stay in step.  If the two protocol
    counters add up to the two frame counters and each protocol counter is
    the sum of its eight (protocol, direction) counters, for attempts and for
    failures, then the same holds after [updateAnalytics] and after any
    sequence of events; it holds of the empty table. *)
Theorem tags_stay_balanced (random : nat -> Q) (m : Machine) (events : list Event)
    (result : RoundResult) (steps : list CommandStep) :
  tagsBalanced attemptsOf (tags (analytics (game m)))
  /\ tagsBalanced failuresOf (tags (analytics (game m))) ->
  (tagsBalanced attemptsOf (tags (analytics (updateAnalytics result steps (game m))))
   /\ tagsBalanced failuresOf (tags (analytics (updateAnalytics result steps (game m)))))
  /\ (tagsBalanced attemptsOf (tags (analytics (game (run random m events))))
      /\ tagsBalanced failuresOf (tags (analytics (game (run random m events)))))
  /\ (tagsBalanced attemptsOf ∅ /\ tagsBalanced failuresOf ∅).
Proof.
  intros H. split; [| split; [| exact tagsBalanced_empty]].
  - destruct (updateAnalytics_tags result steps (game m)) as [-> | ->];
      [exact H | now apply recordChain_balanced].
  - apply (run_tags random
             (fun t => tagsBalanced attemptsOf t /\ tagsBalanced failuresOf t)
             tagsBalanced_empty recordChain_balanced events m H).
Qed.

Lemma tags_stay_balanced_witness :
  let t := tags (analytics (updateAnalytics loss [failsafeStep] initialGame)) in
  attemptsOf t "DIRECT" + attemptsOf t "INVERTED"
  = attemptsOf t "RELATIVE" + attemptsOf t "ABSOLUTE".
Proof.
  cbn zeta.
  destruct (tags_stay_balanced (fun _ => 0%Q) initialMachine [] loss [failsafeStep]
              tagsBalanced_empty) as (((H & _) & _) & _).
  exact H.
Defined.

Lemma bump_commute r1 r2 k1 k2 (t : gmap string MetricData) :
  bump r1 k1 (bump r2 k2 t) = bump r2 k2 (bump r1 k1 t).
Proof.
  unfold bump. destruct (decide (k1 = k2)) as [-> | Hne].
  - rewrite !lookup_insert_eq, !insert_insert_eq. cbn [default attempts failures].
    f_equal. destruct r1, r2; f_equal; lia.
  - rewrite !lookup_insert_ne by congruence. now apply insert_insert_ne.
Qed.

Lemma bump_recordStep r k r2 t s :
  bump r k (recordStep r2 t s) = recordStep r2 (bump r k t) s.
Proof.
  unfold recordStep.
  rewrite (bump_commute r r2 k (complexKey s)),
    (bump_commute r r2 k (frameKey s)), (bump_commute r r2 k (protoKey s)).
  reflexivity.
Qed.

Lemma recordStep_commute r1 r2 t s1 s2 :
  recordStep r1 (recordStep r2 t s2) s1 = recordStep r2 (recordStep r1 t s1) s2.
Proof.
  unfold recordStep at 1 4. now rewrite !bump_recordStep.
Qed.

Lemma recordChain_step_commute r1 r2 chain : forall t s,
  recordChain r1 chain (recordStep r2 t s) = recordStep r2 (recordChain r1 chain t) s.
Proof.
  unfold recordChain. induction chain as [| x chain IH]; intros t s; cbn [fold_left].
  - reflexivity.
  - rewrite recordStep_commute. apply IH.
Qed.

Lemma recordChain_permutation r chain chain' : forall t,
  Permutation chain chain' -> recordChain r chain t = recordChain r chain' t.
Proof.
  intros t Hp. revert t.
  induction Hp as [| x l l' _ IH | x y l | l l' l'' _ IH1 _ IH2]; intros t.
  - reflexivity.
  - unfold recordChain in *. cbn [fold_left]. apply IH.
  - unfold recordChain. cbn [fold_left]. now rewrite recordStep_commute.
  - now rewrite IH1.
Qed.

Lemma recordChain_commute r1 r2 chain1 chain2 : forall t,
  recordChain r1 chain1 (recordChain r2 chain2 t)
  = recordChain r2 chain2 (recordChain r1 chain1 t).
Proof.
  induction chain2 as [| s chain2 IH]; intros t.
  - reflexivity.
  - unfold recordChain at 2 3. cbn [fold_left].
    fold (recordChain r2 chain2 (recordStep r2 t s)).
    fold (recordChain r2 chain2 (recordStep r2 (recordChain r1 chain1 t) s)).
    rewrite IH. f_equal. apply recordChain_step_commute.
Qed.

(** X9. The counters do not depend on the order in which rounds and
    instructions are recorded: under every key, recording a permutation of a
    chain gives the same numbers of attempts and of failures, and so does
    recording two rounds (whatever their results) in either order.  The
    order of the keys in the table, which follows the order of recording, is
    not part of this statement. *)
Theorem recordChain_order_free (r1 r2 : RoundResult) (chain1 chain2 chain' : list CommandStep)
    (t : gmap string MetricData) (key : string) :
  Permutation chain1 chain' ->
  (attemptsOf (recordChain r1 chain1 t) key = attemptsOf (recordChain r1 chain' t) key
   /\ failuresOf (recordChain r1 chain1 t) key = failuresOf (recordChain r1 chain' t) key)
  /\ (attemptsOf (recordChain r1 chain1 (recordChain r2 chain2 t)) key
      = attemptsOf (recordChain r2 chain2 (recordChain r1 chain1 t)) key
      /\ failuresOf (recordChain r1 chain1 (recordChain r2 chain2 t)) key
         = failuresOf (recordChain r2 chain2 (recordChain r1 chain1 t)) key).
Proof.
  intros Hp. split.
  - now rewrite (recordChain_permutation r1 chain1 chain' t Hp).
  - now rewrite (recordChain_commute r1 r2 chain1 chain2 t).
Qed.

Lemma recordChain_order_free_witness :
  let a := failsafeStep in
  let b := mkStep LEFT RELATIVE INVERTED FailsafeId COLORS_inverted in
  attemptsOf (recordChain win [a; b] ∅) "DIRECT"
  = attemptsOf (recordChain win [b; a] ∅) "DIRECT".
Proof.
  cbn zeta.
  exact (proj1 (proj1 (recordChain_order_free win win
                  [failsafeStep; mkStep LEFT RELATIVE INVERTED FailsafeId COLORS_inverted]
                  []
                  [mkStep LEFT RELATIVE INVERTED FailsafeId COLORS_inverted; failsafeStep]
                  ∅ "DIRECT" (perm_swap _ _ _)))).
Defined.

(** ** Analytics view *)

Module AnalyticsViewFacts.
Import AnalyticsView.

Lemma insertByRate_perm w l : Permutation (insertByRate w l) (w :: l).
Proof.
  induction l as [| y l IH]; cbn; [reflexivity |].
  destruct (Qle_bool (rate y) (rate w)); [reflexivity |].
  rewrite IH. apply perm_swap.
Qed.

Lemma sortByRate_perm l : Permutation (sortByRate l) l.
Proof.
  induction l as [| w l IH]; cbn; [reflexivity |].
  rewrite insertByRate_perm. now constructor.
Qed.

Lemma insertByRate_sorted w l :
  StronglySorted byRate l -> StronglySorted byRate (insertByRate w l).
Proof.
  induction 1 as [| y l Hs IH Hy]; cbn; [repeat constructor |].
  destruct (Qle_bool (rate y) (rate w)) eqn:Hq.
  - apply Qle_bool_iff in Hq. constructor; [now constructor |].
    constructor; [exact Hq |].
    eapply List.Forall_impl; [| exact Hy]. unfold byRate. cbn beta. intros z Hz. lra.
  - apply Qle_bool_false in Hq. constructor; [exact IH |].
    apply (Permutation_Forall (Permutation_sym (insertByRate_perm w l))).
    constructor; [unfold byRate; lra | exact Hy].
Qed.

Lemma sortByRate_sorted l : StronglySorted byRate (sortByRate l).
Proof.
  induction l as [| w l IH]; cbn; [constructor | now apply insertByRate_sorted].
Qed.

Lemma in_firstn {A : Type} (n : nat) (l : list A) (x : A) :
  In x (firstn n l) -> In x l.
Proof.
  intros H. rewrite <- (firstn_skipn n l). apply in_or_app. now left.
Qed.

Lemma sorted_firstn n : forall l,
  StronglySorted byRate l ->
  StronglySorted byRate (firstn n l)
  /\ forall x y, In x (firstn n l) -> In y (skipn n l) -> byRate x y.
Proof.
  induction n as [| n IH]; intros l Hs.
  - cbn. split; [constructor | contradiction].
  - destruct l as [| a l]; [cbn; split; [constructor | contradiction] |].
    inversion Hs as [| ? ? Hs' Ha]; subst.
    destruct (IH l Hs') as [H1 H2]. cbn [firstn skipn]. split.
    + constructor; [exact H1 |].
      rewrite List.Forall_forall in *. intros x Hx. apply Ha.
      exact (in_firstn n l x Hx).
    + intros x y [<- | Hx] Hy.
      * rewrite List.Forall_forall in Ha. apply Ha.
        rewrite <- (firstn_skipn n l). apply in_or_app. now right.
      * now apply H2.
Qed.

End AnalyticsViewFacts.

(** X10. The list of weaknesses holds the three worst tags.  It has three
    entries, or as many as there are tags with at least 5 attempts; each
    entry is such a tag with its rate failures / attempts; the entries are
    in order of decreasing rate; and a tag with at least 5 attempts that is
    not listed has a rate no higher than any listed one. *)
Theorem weaknesses_top_three (entries : list (string * MetricData)) :
  let ws := AnalyticsView.weaknesses entries in
  let qualifying := List.filter (fun e => attempts (snd e) >=? 5) entries in
  length ws = Nat.min 3 (length qualifying)
  /\ (forall w, In w ws ->
        exists e, In e entries /\ 5 <= attempts (snd e)
                  /\ AnalyticsView.key w = fst e
                  /\ AnalyticsView.rate w = AnalyticsView.rateOf (snd e))
  /\ StronglySorted (fun a b => (AnalyticsView.rate b <= AnalyticsView.rate a)%Q) ws
  /\ (forall e, In e qualifying ->
        In (AnalyticsView.mkWeakness (fst e) (AnalyticsView.rateOf (snd e))) ws
        \/ forall w, In w ws ->
             (AnalyticsView.rateOf (snd e) <= AnalyticsView.rate w)%Q).
Proof.
  cbn zeta. unfold AnalyticsView.weaknesses.
  set (qualifying := List.filter (fun e => attempts (snd e) >=? 5) entries).
  set (ws := List.map (fun e => AnalyticsView.mkWeakness (fst e)
                                  (AnalyticsView.rateOf (snd e))) qualifying).
  pose proof (AnalyticsViewFacts.sortByRate_perm ws) as Hperm.
  pose proof (AnalyticsViewFacts.sortByRate_sorted ws) as Hsorted.
  destruct (AnalyticsViewFacts.sorted_firstn 3 _ Hsorted) as [Hs3 Hrest].
  split; [| split; [| split; [exact Hs3 |]]].
  - rewrite length_firstn, (Permutation_length Hperm). unfold ws.
    now rewrite length_map.
  - intros w Hw. apply AnalyticsViewFacts.in_firstn in Hw.
    apply (Permutation_in _ Hperm) in Hw. unfold ws in Hw.
    apply in_map_iff in Hw. destruct Hw as (e & <- & He).
    apply filter_In in He. destruct He as [He Ha].
    exists e. repeat split; [exact He | lia].
  - intros e He.
    assert (Hin : In (AnalyticsView.mkWeakness (fst e) (AnalyticsView.rateOf (snd e)))
                     (AnalyticsView.sortByRate ws)).
    { apply (Permutation_in _ (Permutation_sym Hperm)). unfold ws.
      apply in_map_iff. exists e. auto. }
    rewrite <- (firstn_skipn 3 (AnalyticsView.sortByRate ws)) in Hin.
    apply in_app_or in Hin. destruct Hin as [Hin | Hin]; [left; exact Hin | right].
    intros w Hw. exact (Hrest w _ Hw Hin).
Qed.

Lemma sum_scores_bounds (lo hi : Z) (l : list Session) : forall acc : Q,
  (forall s, In s l -> (inject_Z lo <= sessionScore s <= inject_Z hi)%Q) ->
  (acc + inject_Z lo * inject_Z (Z.of_nat (length l))
   <= fold_left (fun a b => a + sessionScore b) l acc
   <= acc + inject_Z hi * inject_Z (Z.of_nat (length l)))%Q.
Proof.
  induction l as [| s l IH]; intros acc Hb.
  - cbn [fold_left length]. change (inject_Z (Z.of_nat 0)) with 0%Q. lra.
  - cbn [fold_left length].
    pose proof (Hb s (or_introl eq_refl)) as Hs.
    specialize (IH (acc + sessionScore s)%Q (fun x Hx => Hb x (or_intror Hx))).
    rewrite Nat2Z.inj_succ, <- Z.add_1_r, inject_Z_plus.
    change (inject_Z 1) with 1%Q.
    generalize dependent (inject_Z (Z.of_nat (length l))). intros n IH.
    generalize dependent (fold_left (fun a b => (a + sessionScore b)%Q) l
                            (acc + sessionScore s)%Q).
    intros f IH. lra.
Qed.

(** X11. The average score of a window.  A session counts when
    [now - timestamp] is below the window, so a session stamped later than
    [now] always counts and a longer window keeps every session of a shorter
    one.  With no session in the window the average is 0; otherwise it lies
    between any two whole numbers that bound the scores in the window. *)
Theorem getAvgScore_bounds (now days : Z) (sessions : list Session) (lo hi : Z) :
  (forall s, In s (AnalyticsView.relevant now days sessions) ->
             (inject_Z lo <= sessionScore s <= inject_Z hi)%Q) ->
  (forall s, In s (AnalyticsView.relevant now days sessions)
             <-> In s sessions /\ now - timestamp s < days * AnalyticsView.oneDay)
  /\ (forall s, 0 <= days -> In s sessions -> now < timestamp s ->
                In s (AnalyticsView.relevant now days sessions))
  /\ (forall days' s, days <= days' ->
                      In s (AnalyticsView.relevant now days sessions) ->
                      In s (AnalyticsView.relevant now days' sessions))
  /\ (AnalyticsView.relevant now days sessions = [] ->
      AnalyticsView.getAvgScore now days sessions = 0)
  /\ (AnalyticsView.relevant now days sessions <> [] ->
      lo <= AnalyticsView.getAvgScore now days sessions <= hi).
Proof.
  intros Hb.
  assert (Hmem : forall d s, In s (AnalyticsView.relevant now d sessions)
                 <-> In s sessions /\ now - timestamp s < d * AnalyticsView.oneDay).
  { intros d s. unfold AnalyticsView.relevant. rewrite filter_In, Z.ltb_lt. reflexivity. }
  split; [apply Hmem |]. split; [| split; [| split]].
  - intros s Hd Hs Hlate. apply Hmem. split; [exact Hs |].
    unfold AnalyticsView.oneDay. lia.
  - intros days' s Hd Hs. apply Hmem. apply Hmem in Hs. destruct Hs as [Hs Hw].
    split; [exact Hs |]. unfold AnalyticsView.oneDay in *. lia.
  - intros E. unfold AnalyticsView.getAvgScore. now rewrite E.
  - intros Hne. unfold AnalyticsView.getAvgScore.
    destruct (AnalyticsView.relevant now days sessions) as [| s rel] eqn:E;
      [congruence |].
    pose proof (sum_scores_bounds lo hi (s :: rel) 0 Hb) as Hsum.
    set (n := inject_Z (Z.of_nat (length (s :: rel)))) in *.
    assert (Hn : (0 < n)%Q).
    { subst n. change 0%Q with (inject_Z 0). rewrite <- Zlt_Qlt. cbn [length]. lia. }
    set (total := fold_left (fun a b => (a + sessionScore b)%Q) (s :: rel) 0%Q) in *.
    assert (Hlo : (inject_Z lo <= total / n)%Q)
      by (apply Qle_shift_div_l; [exact Hn | lra]).
    assert (Hhi : (total / n <= inject_Z hi)%Q)
      by (apply Qle_shift_div_r; [exact Hn | lra]).
    unfold Math_floor. split.
    + rewrite <- (Qfloor_Z lo). now apply Qfloor_resp_le.
    + rewrite Zle_Qle. eapply Qle_trans; [apply Qfloor_le | exact Hhi].
Qed.

Lemma getAvgScore_bounds_witness :
  let sessions := [mkSession 1000 3 250; mkSession 2000 4 400] in
  250 <= AnalyticsView.getAvgScore 3000 1 sessions <= 400.
Proof.
  cbn zeta.
  assert (Hb : forall s,
             In s (AnalyticsView.relevant 3000 1
                     [mkSession 1000 3 250; mkSession 2000 4 400]) ->
             (inject_Z 250 <= sessionScore s <= inject_Z 400)%Q).
  { intros s [<- | [<- | []]]; split; vm_compute; discriminate. }
  destruct (getAvgScore_bounds 3000 1 [mkSession 1000 3 250; mkSession 2000 4 400]
              250 400 Hb) as (_ & _ & _ & _ & H).
  apply H. discriminate.
Defined.

(** ** Invariants of the progression state machine *)

Section GameInvariants.

Variable random : nat -> Q.

Local Arguments Qle_bool : simpl never.
Local Arguments Qmin : simpl never.
Local Arguments Qplus : simpl never.
Local Arguments Qminus : simpl never.
Local Arguments Qmult : simpl never.
Local Arguments inject_Z : simpl never.
Local Arguments Math_floor : simpl never.
Local Arguments generateLevel : simpl never.
Local Arguments recordChain : simpl never.
Local Arguments Z.mul : simpl never.
Local Arguments Z.add : simpl never.
Local Arguments Z.sub : simpl never.
Local Arguments Z.max : simpl never.

(** The fields the handlers leave to [updateAnalytics] alone. *)
Lemma updateAnalytics_fields result steps g :
  let g' := updateAnalytics result steps g in
  sessions (analytics g') = sessions (analytics g)
  /\ sessionCorrect g' = sessionCorrect g /\ sessionTotal g' = sessionTotal g
  /\ currentLevel g' = currentLevel g /\ maxLevel g' = maxLevel g
  /\ isPracticeMode g' = isPracticeMode g /\ score g' = score g
  /\ stability g' = stability g /\ status g' = status g.
Proof.
  cbn zeta. unfold updateAnalytics.
  destruct g as [st lv sb ml sc mu sk se pm an scor stot]. cbn.
  destruct pm; cbn; repeat split.
Qed.

Lemma taskGame_fields t g :
  analytics (taskGame t g) = analytics g
  /\ sessionCorrect (taskGame t g) = sessionCorrect g
  /\ sessionTotal (taskGame t g) = sessionTotal g
  /\ score (taskGame t g) = score g
  /\ isPracticeMode (taskGame t g) = isPracticeMode g.
Proof. destruct t; cbn [taskGame]; try destruct (decide _); repeat split. Qed.

Lemma manualSetLevel_fields input g :
  analytics (manualSetLevel input g) = analytics g
  /\ sessionCorrect (manualSetLevel input g) = sessionCorrect g
  /\ sessionTotal (manualSetLevel input g) = sessionTotal g.
Proof.
  unfold manualSetLevel. destruct input as [[| a text] |]; try (repeat split; fail).
  destruct (parseInt _) as [lvl |]; [| repeat split].
  destruct (_ && _); repeat split.
Qed.

(** *** Sessions *)

Lemma handlers_sessions m :
  sessions (analytics (game (handleSuccess m))) = sessions (analytics (game m))
  /\ sessions (analytics (game (handleFailure m))) = sessions (analytics (game m)).
Proof.
  split.
  - change (sessions (analytics (game (handleSuccess m))))
      with (sessions (analytics (updateAnalytics win (chain m) (game m)))).
    apply updateAnalytics_fields.
  - change (sessions (analytics (game (handleFailure m))))
      with (sessions (analytics (updateAnalytics loss (chain m) (game m)))).
    apply updateAnalytics_fields.
Qed.

(** What one event does to the session history: nothing, one session added
    at the end, or, for a confirmed reset only, emptied. *)
Lemma dispatch_sessions e m :
  let before := sessions (analytics (game m)) in
  let after := sessions (analytics (game (dispatch random e m))) in
  after = before
  \/ (exists now, e = EvStop now /\ isPracticeMode (game m) = false
                  /\ (100 < score (game m))%Q
                  /\ after = before ++ [mkSession now (currentLevel (game m)) (score (game m))])
  \/ (confirmedReset e /\ after = []).
Proof.
  cbn zeta. destruct e as [| now | confirmed | | x y | input | | k | |]; cbn [dispatch].
  - left. reflexivity.
  - destruct (decide _); [| left; reflexivity].
    unfold stopGame, recordSession. cbn [game setGame].
    destruct (Qgtb (score (game m)) 100) eqn:Hq; cbn [andb];
      [destruct (isPracticeMode (game m)) eqn:Hp; cbn [negb] |]; try (left; reflexivity).
    right; left. exists now. repeat split.
    unfold Qgtb in Hq. apply negb_true_iff, Qle_bool_false in Hq. exact Hq.
  - destruct confirmed; [right; right; split; reflexivity | left; reflexivity].
  - left. unfold togglePracticeMode. destruct (decide _); reflexivity.
  - left. unfold handleCellClick. destruct (decide _); [| reflexivity].
    destruct (targetPos m) as [t |]; [destruct (_ && _) |];
      apply (handlers_sessions (setFeedbackCell _ m)).
  - left. cbn [game setGame]. now rewrite (proj1 (manualSetLevel_fields input (game m))).
  - left. destruct (intervalRunning _); [| reflexivity]. unfold timerTick.
    destruct (Qle_bool _ _); [| reflexivity]. destruct (failureHandled m); [reflexivity |].
    apply (handlers_sessions (setFailureHandled true m)).
  - left. destruct (pending m !! k) as [t |]; [| reflexivity].
    rewrite runTask_game. now rewrite (proj1 (taskGame_fields t _)).
  - left. reflexivity.
  - left. reflexivity.
Qed.

Lemma step_sessionsScored m e :
  sessionsScored (game m) -> sessionsScored (game (step random m e)).
Proof.
  unfold sessionsScored, step. rewrite statusEffect_game. intros H.
  destruct (dispatch_sessions e m) as [E | [(now & _ & _ & Hs & E) | [_ E]]];
    cbn zeta in E; rewrite E.
  - exact H.
  - apply Forall_app. split; [exact H |]. constructor; [exact Hs | constructor].
  - constructor.
Qed.

Lemma run_sessionsScored events : forall m,
  sessionsScored (game m) -> sessionsScored (game (run random m events)).
Proof.
  unfold run. induction events as [| e events IH]; intros m H; cbn [fold_left]; [exact H |].
  apply IH, step_sessionsScored, H.
Qed.

Lemma run_sessions_grow events : forall m,
  Forall (fun e => ~ confirmedReset e) events ->
  exists added, sessions (analytics (game (run random m events)))
                = sessions (analytics (game m)) ++ added.
Proof.
  unfold run. induction events as [| e events IH]; intros m Hn; cbn [fold_left].
  - exists []. now rewrite app_nil_r.
  - inversion Hn as [| ? ? He Hrest]; subst.
    destruct (IH (step random m e) Hrest) as [added Ha]. rewrite Ha.
    unfold step. rewrite statusEffect_game.
    destruct (dispatch_sessions e m) as [E | [(now & _ & _ & _ & E) | [Hr E]]];
      cbn zeta in E.
    + rewrite E. eauto.
    + rewrite E, <- app_assoc. eauto.
    + contradiction.
Qed.

(** *** Session counters *)

Lemma handlers_counters m :
  countersSound (game m) ->
  countersSound (game (handleSuccess m)) /\ countersSound (game (handleFailure m)).
Proof.
  destruct m as [g tm ap ar ch tp fc fh pd cu].
  destruct g as [st lv sb ml sc mu sk se pm an scor stot].
  unfold countersSound. cbn. intros H.
  unfold handleSuccess, handleFailure, updateAnalytics, schedule, setPending, setGame.
  destruct pm; cbn; lia.
Qed.

Lemma dispatch_counters e m :
  countersSound (game m) -> countersSound (game (dispatch random e m)).
Proof.
  intros H. destruct e as [| now | confirmed | | x y | input | | k | |]; cbn [dispatch].
  - unfold countersSound. cbn. lia.
  - destruct (decide _); [| exact H]. unfold stopGame, recordSession. cbn [game setGame].
    destruct (_ && _); exact H.
  - destruct confirmed; [| exact H]. unfold countersSound. cbn. lia.
  - unfold togglePracticeMode. destruct (decide _); exact H.
  - unfold handleCellClick. destruct (decide _); [| exact H].
    destruct (targetPos m) as [t |]; [destruct (_ && _) |];
      now apply (handlers_counters (setFeedbackCell _ m)).
  - unfold countersSound. cbn [game setGame].
    destruct (manualSetLevel_fields input (game m)) as (_ & -> & ->). exact H.
  - destruct (intervalRunning _); [| exact H]. unfold timerTick.
    destruct (Qle_bool _ _); [| exact H]. destruct (failureHandled m); [exact H |].
    now apply (handlers_counters (setFailureHandled true m)).
  - destruct (pending m !! k) as [t |]; [| exact H].
    unfold countersSound. rewrite runTask_game.
    destruct (taskGame_fields t (game (setPending (delete k (pending m)) m)))
      as (_ & -> & -> & _).
    exact H.
  - exact H.
  - exact H.
Qed.

Lemma run_counters events : forall m,
  countersSound (game m) -> countersSound (game (run random m events)).
Proof.
  unfold run. induction events as [| e events IH]; intros m H; cbn [fold_left]; [exact H |].
  apply IH. unfold step. rewrite statusEffect_game. now apply dispatch_counters.
Qed.

End GameInvariants.

Lemma sum_scores_lower (lo : Q) (l : list Session) : forall acc : Q,
  (forall s, In s l -> (lo <= sessionScore s)%Q) ->
  (acc + lo * inject_Z (Z.of_nat (length l))
   <= fold_left (fun a b => a + sessionScore b) l acc)%Q.
Proof.
  induction l as [| s l IH]; intros acc Hb.
  - cbn [fold_left length]. change (inject_Z (Z.of_nat 0)) with 0%Q. lra.
  - cbn [fold_left length].
    pose proof (Hb s (or_introl eq_refl)) as Hs.
    specialize (IH (acc + sessionScore s)%Q (fun x Hx => Hb x (or_intror Hx))).
    rewrite Nat2Z.inj_succ, <- Z.add_1_r, inject_Z_plus.
    change (inject_Z 1) with 1%Q.
    generalize dependent (inject_Z (Z.of_nat (length l))). intros n IH.
    generalize dependent (fold_left (fun a b => (a + sessionScore b)%Q) l
                            (acc + sessionScore s)%Q).
    intros f IH. lra.
Qed.

Lemma getAvgScore_scored now days (l : list Session) :
  Forall (fun s => (100 < sessionScore s)%Q) l ->
  AnalyticsView.getAvgScore now days l = 0
  \/ 100 <= AnalyticsView.getAvgScore now days l.
Proof.
  intros Hall. unfold AnalyticsView.getAvgScore.
  assert (Hrel : forall s, In s (AnalyticsView.relevant now days l) ->
                           (100 <= sessionScore s)%Q).
  { intros s Hs. unfold AnalyticsView.relevant in Hs. apply filter_In in Hs.
    rewrite List.Forall_forall in Hall. apply Qlt_le_weak, Hall, Hs. }
  destruct (AnalyticsView.relevant now days l) as [| s rel]; [left; reflexivity | right].
  pose proof (sum_scores_lower 100 (s :: rel) 0 Hrel) as Hsum.
  set (n := inject_Z (Z.of_nat (length (s :: rel)))) in *.
  assert (Hn : (0 < n)%Q).
  { subst n. change 0%Q with (inject_Z 0). rewrite <- Zlt_Qlt. cbn [length]. lia. }
  set (total := fold_left (fun a b => (a + sessionScore b)%Q) (s :: rel) 0%Q) in *.
  assert (Hlo : (inject_Z 100 <= total / n)%Q).
  { apply Qle_shift_div_l; [exact Hn |]. change (inject_Z 100) with 100%Q. lra. }
  unfold Math_floor. rewrite <- (Qfloor_Z 100). now apply Qfloor_resp_le.
Qed.

(** X12. The session history.  Starting from a history in which every
    session scored above 100 (the empty one of a fresh profile, for
    instance), every sequence of events leaves such a history; as long as no
    reset is confirmed the history only grows at its end; and the average the
    analytics view shows for any window is therefore 0 (no session in the
    window) or at least 100. *)
Theorem session_history (random : nat -> Q) (m : Machine) (events : list Event) :
  sessionsScored (game m) ->
  let after := sessions (analytics (game (run random m events))) in
  sessionsScored (game (run random m events))
  /\ (Forall (fun e => ~ confirmedReset e) events ->
      exists added, after = sessions (analytics (game m)) ++ added)
  /\ (forall now days,
        AnalyticsView.getAvgScore now days after = 0
        \/ 100 <= AnalyticsView.getAvgScore now days after).
Proof.
  intros H. cbn zeta.
  pose proof (run_sessionsScored random events m H) as Hrun.
  split; [exact Hrun |]. split.
  - apply run_sessions_grow.
  - intros now days. apply getAvgScore_scored. exact Hrun.
Qed.

Lemma session_history_witness :
  let m := roundInPlay false 3 50 250 1 80 in
  sessionsScored (game m)
  /\ sessionsScored (game (run (fun _ => 0%Q) m [EvStop 1000; EvStart])).
Proof.
  cbn zeta.
  assert (H0 : sessionsScored (game (roundInPlay false 3 50 250 1 80)))
    by constructor.
  split; [exact H0 |].
  exact (proj1 (session_history (fun _ => 0%Q) (roundInPlay false 3 50 250 1 80)
                  [EvStop 1000; EvStart] H0)).
Defined.

Lemma Math_round_percent (c t : Z) :
  0 <= c <= t -> 0 < t ->
  0 <= Math_round (roundDouble (roundDouble (inject_Z c / inject_Z t) * 100)) <= 100.
Proof.
  intros Hc Ht. unfold Math_round.
  assert (Htq : (0 < inject_Z t)%Q)
    by (change 0%Q with (inject_Z 0); rewrite <- Zlt_Qlt; exact Ht).
  assert (Hlo : (0 <= inject_Z c / inject_Z t)%Q).
  { apply Qle_shift_div_l; [exact Htq |]. rewrite Qmult_0_l.
    change 0%Q with (inject_Z 0). rewrite <- Zle_Qle. lia. }
  assert (Hhi : (inject_Z c / inject_Z t <= 1)%Q).
  { apply Qle_shift_div_r; [exact Htq |]. rewrite Qmult_1_l. rewrite <- Zle_Qle. lia. }
  set (q := (inject_Z c / inject_Z t)%Q) in *. clearbody q.
  pose proof rounding_small as [Hs Hu]. pose proof tinyDouble_small as [Ht0 _].
  unfold roundingSlack in Hs.
  pose proof unitRoundoff_pos as Hu0.
  destruct (proj1 (roundDouble_spec q) Hlo) as [H1 _].
  pose proof (roundDouble_near q 1 ltac:(lra)) as [_ H1'].
  set (r1 := roundDouble q) in *. clearbody r1.
  assert (Hy : (0 <= r1 * 100 <= 128)%Q) by lra.
  destruct (proj1 (roundDouble_spec (r1 * 100)) (proj1 Hy)) as [H2 _].
  pose proof (roundDouble_near (r1 * 100) 128 ltac:(lra)) as [_ H2'].
  set (r2 := roundDouble (r1 * 100)) in *. clearbody r2.
  split.
  - apply (Qfloor_resp_le 0). lra.
  - apply (Qfloor_resp_le _ (100 + (3 # 4))). lra.
Qed.

(** X13. The accuracy figures.  The counters satisfy
    [0 <= sessionCorrect <= sessionTotal] after every sequence of events
    once they do, so the accuracy shown while playing and the precision of
    the pause screen are percentages between 0 and 100.  The two agree as
    soon as one round was counted; before that the first shows 100 and the
    second 0. *)
Theorem accuracy_percent (random : nat -> Q) (m : Machine) (events : list Event) :
  countersSound (game m) ->
  let g := game (run random m events) in
  countersSound g
  /\ 0 <= accuracy g <= 100
  /\ 0 <= precision g <= 100
  /\ (0 < sessionTotal g -> accuracy g = precision g)
  /\ (sessionTotal g = 0 -> accuracy g = 100 /\ precision g = 0).
Proof.
  intros H. cbn zeta.
  pose proof (run_counters random events m H) as Hc.
  set (g := game (run random m events)) in *. unfold countersSound in Hc.
  split; [exact Hc |].
  unfold accuracy, precision.
  destruct (Z.gtb_spec (sessionTotal g) 0) as [Hpos | Hzero].
  - destruct (Z.eqb_spec (sessionTotal g) 0) as [E | _]; [lia |].
    pose proof (Math_round_percent _ _ Hc Hpos) as Hr.
    split; [apply Hr |]. split; [apply Hr |]. split; [reflexivity | lia].
  - assert (Et : sessionTotal g = 0) by lia.
    assert (Ec : sessionCorrect g = 0) by lia.
    rewrite Et, Ec. cbn [Z.eqb].
    change (Math_round (roundDouble (roundDouble (inject_Z 0 / inject_Z 1) * 100)))
      with 0.
    split; [lia |]. split; [lia |]. split; [lia |]. intros _. split; reflexivity.
Qed.

Lemma accuracy_percent_witness :
  let m := roundInPlay false 3 50 0 1 80 in
  let g := game (run (fun _ => 0%Q) m
                   [EvCellClick 3 2; EvCallback 0; EvCallback 0; EvCellClick 0 0]) in
  countersSound (game m) /\ 0 <= accuracy g <= 100.
Proof.
  cbn zeta.
  assert (H0 : countersSound (game (roundInPlay false 3 50 0 1 80)))
    by (unfold countersSound; cbn; lia).
  split; [exact H0 |].
  exact (proj1 (proj2 (accuracy_percent (fun _ => 0%Q) (roundInPlay false 3 50 0 1 80)
                         [EvCellClick 3 2; EvCallback 0; EvCallback 0; EvCellClick 0 0]
                         H0))).
Defined.

(** The percentages are the ones of the code's numbers: with 23 rounds out
    of 40 correct the quotient times 100 is just below 57.5, and the figure
    shown is 57. *)
Example accuracy_rounding :
  let g := mkGame playing 1 50 1 0 1 0 true false (mkAnalytics ∅ []) 23 40 in
  accuracy g = 57 /\ precision g = 57
  /\ (roundDouble (roundDouble (23 / 40) * 100) < 575 # 10)%Q
  /\ Math_round ((23 / 40) * 100) = 58.
Proof. vm_compute. repeat split. Qed.

(** ** Levels *)

Section LevelInvariants.

Variable random : nat -> Q.

Local Arguments Qle_bool : simpl never.
Local Arguments Qmin : simpl never.
Local Arguments Qplus : simpl never.
Local Arguments Qminus : simpl never.
Local Arguments Qmult : simpl never.
Local Arguments inject_Z : simpl never.
Local Arguments Math_floor : simpl never.
Local Arguments generateLevel : simpl never.
Local Arguments recordChain : simpl never.
Local Arguments Z.mul : simpl never.
Local Arguments Z.add : simpl never.
Local Arguments Z.sub : simpl never.
Local Arguments Z.max : simpl never.

Lemma taskLevels_mono lo hi t : lo <= hi -> taskLevels lo t -> taskLevels hi t.
Proof. destruct t; cbn; lia. Qed.

(** A transition keeps the invariant when it does not lower [maxLevel],
    leaves the level at most there, and only appends callbacks whose captured
    level is at most there too. *)
Lemma levelsSound_extend m m' extra :
  levelsSound m ->
  maxLevel (game m) <= maxLevel (game m') ->
  1 <= currentLevel (game m') <= maxLevel (game m') ->
  pending m' = pending m ++ extra ->
  Forall (taskLevels (maxLevel (game m'))) extra ->
  levelsSound m' /\ maxLevel (game m) <= maxLevel (game m').
Proof.
  intros [_ Hp] Hmax Hl Hpd Hex. split; [| exact Hmax]. split; [exact Hl |].
  rewrite Hpd. apply Forall_app. split; [| exact Hex].
  eapply List.Forall_impl; [| exact Hp]. intros t. now apply taskLevels_mono.
Qed.

Lemma handleSuccess_levels m :
  levelsSound m ->
  levelsSound (handleSuccess m) /\ maxLevel (game m) <= maxLevel (game (handleSuccess m)).
Proof.
  intros H. pose proof H as [Hl _].
  assert (E : maxLevel (game (handleSuccess m)) = maxLevel (game m)
              /\ currentLevel (game (handleSuccess m)) = currentLevel (game m)
              /\ exists ns nl, 1 <= nl
                   /\ pending (handleSuccess m) = pending m ++ [AfterSuccess ns nl]).
  { destruct m as [g tm ap ar ch tp fc fh pd cu].
    destruct g as [st lv sb ml sc mu sk se pm an scor stot]. cbn in Hl.
    unfold handleSuccess, updateAnalytics, schedule, setPending, setGame. cbn.
    destruct pm; cbn; repeat split; eexists _, _; (split; [| reflexivity]);
      try destruct (Qle_bool _ _); lia. }
  destruct E as (Em & El & ns & nl & Hnl & Ep).
  apply (levelsSound_extend m _ [AfterSuccess ns nl] H); rewrite ?Em, ?El;
    try lia; try exact Ep.
  repeat constructor. exact Hnl.
Qed.

Lemma handleFailure_levels m :
  levelsSound m ->
  levelsSound (handleFailure m) /\ maxLevel (game m) <= maxLevel (game (handleFailure m)).
Proof.
  intros H. pose proof H as [Hl _].
  assert (E : maxLevel (game (handleFailure m)) = maxLevel (game m)
              /\ currentLevel (game (handleFailure m)) = currentLevel (game m)
              /\ exists ns nl s, 1 <= nl <= currentLevel (game m)
                   /\ pending (handleFailure m) = pending m ++ [AfterFailure ns nl s]).
  { destruct m as [g tm ap ar ch tp fc fh pd cu].
    destruct g as [st lv sb ml sc mu sk se pm an scor stot]. cbn in Hl.
    unfold handleFailure, updateAnalytics, schedule, setPending, setGame. cbn.
    destruct pm; cbn; repeat split; eexists _, _, _; (split; [| reflexivity]);
      try destruct (Qle_bool _ _); cbn [andb]; try destruct (Z.gtb_spec lv 1); lia. }
  destruct E as (Em & El & ns & nl & s & Hnl & Ep).
  apply (levelsSound_extend m _ [AfterFailure ns nl s] H); rewrite ?Em, ?El;
    try lia; try exact Ep.
  repeat constructor; cbn; lia.
Qed.

Lemma runTask_levels t m :
  taskLevels (maxLevel (game m)) t -> levelsSound m ->
  levelsSound (runTask random t m)
  /\ maxLevel (game m) <= maxLevel (game (runTask random t m)).
Proof.
  intros Ht H. pose proof H as [Hl _].
  apply (levelsSound_extend m _ (taskFollowUp t) H);
    rewrite ?runTask_game; [| | apply runTask_pending |];
    destruct t as [ns nl | nl | | nl | ns nl nst | nl | | nl nst];
    cbn [taskGame taskFollowUp taskLevels] in *; try destruct (decide _);
    cbn; try lia; repeat constructor; cbn; lia.
Qed.

Lemma dispatch_levels e m :
  levelsSound m ->
  levelsSound (dispatch random e m)
  /\ maxLevel (game m) <= maxLevel (game (dispatch random e m)).
Proof.
  intros H. pose proof H as [Hl Hp].
  assert (Hsame : levelsSound m /\ maxLevel (game m) <= maxLevel (game m))
    by (split; [exact H | lia]).
  destruct e as [| now | confirmed | | x y | input | | k | |]; cbn [dispatch].
  - apply (levelsSound_extend m _ [] H); cbn; try lia;
      [now rewrite app_nil_r | constructor].
  - destruct (decide _); [| exact Hsame].
    apply (levelsSound_extend m _ [] H); unfold stopGame, recordSession; cbn;
      try destruct (_ && _); cbn; try lia; try (now rewrite app_nil_r); constructor.
  - destruct confirmed; [| exact Hsame].
    apply (levelsSound_extend m _ [] H); cbn; try lia;
      [now rewrite app_nil_r | constructor].
  - unfold togglePracticeMode. destruct (decide _);
      (apply (levelsSound_extend m _ [] H); cbn; try lia;
       [now rewrite app_nil_r | constructor]).
  - unfold handleCellClick. destruct (decide _); [| exact Hsame].
    destruct (targetPos m) as [t |]; [destruct (_ && _) |].
    + exact (handleSuccess_levels (setFeedbackCell _ m) H).
    + exact (handleFailure_levels (setFeedbackCell _ m) H).
    + exact (handleFailure_levels (setFeedbackCell _ m) H).
  - apply (levelsSound_extend m _ [] H); cbn [game pending setGame];
      [| | now rewrite app_nil_r | constructor];
      unfold manualSetLevel; destruct input as [[| a text] |]; try lia;
      destruct (parseInt _) as [lvl |]; try lia;
      destruct ((lvl >? 0) && (lvl <? 100)) eqn:Hc; cbn; lia.
  - destruct (intervalRunning _); [| exact Hsame]. unfold timerTick.
    destruct (Qle_bool _ _); [| exact Hsame]. destruct (failureHandled m); [exact Hsame |].
    exact (handleFailure_levels (setFailureHandled true m) H).
  - destruct (pending m !! k) as [t |] eqn:Hk; [| exact Hsame].
    apply (runTask_levels t (setPending (delete k (pending m)) m)).
    + exact (Forall_lookup_1 _ _ _ _ Hp Hk).
    + split; [exact Hl |]. cbn. now apply Forall_delete.
  - exact Hsame.
  - exact Hsame.
Qed.

Lemma run_levels events : forall m,
  levelsSound m ->
  levelsSound (run random m events)
  /\ maxLevel (game m) <= maxLevel (game (run random m events)).
Proof.
  unfold run. induction events as [| e events IH]; intros m H; cbn [fold_left].
  - split; [exact H | lia].
  - destruct (dispatch_levels e m H) as [Hd Hle].
    assert (Hs : levelsSound (step random m e)
                 /\ maxLevel (game m) <= maxLevel (game (step random m e))).
    { unfold step, levelsSound. rewrite statusEffect_game, statusEffect_pending.
      split; [exact Hd | exact Hle]. }
    destruct Hs as [Hs Hle']. destruct (IH _ Hs) as [Hr Hle'']. split; [exact Hr | lia].
Qed.

End LevelInvariants.

(** X14. The highest level.  In a state where the current level lies
    between 1 and [maxLevel] and every pending failure callback captured such
    a level (the fresh profile, for instance), every sequence of events
    leads to such a state again, and [maxLevel] never decreases: not on a
    failure or level-down, and not when progress is reset. *)
Theorem levels_stay_sound (random : nat -> Q) (m : Machine) (events : list Event) :
  levelsSound m ->
  let m' := run random m events in
  levelsSound m'
  /\ 1 <= currentLevel (game m') <= maxLevel (game m')
  /\ maxLevel (game m) <= maxLevel (game m').
Proof.
  intros H. cbn zeta. destruct (run_levels random events m H) as [Hr Hle].
  split; [exact Hr |]. split; [apply Hr | exact Hle].
Qed.

Lemma levels_stay_sound_witness :
  let m' := run (fun _ => 0%Q) initialMachine
              [EvManualSetLevel (Some "7"%string); EvResetProgress true] in
  levelsSound initialMachine
  /\ 1 <= currentLevel (game m') <= maxLevel (game m')
  /\ maxLevel (game initialMachine) <= maxLevel (game m').
Proof.
  cbn zeta.
  assert (H0 : levelsSound initialMachine).
  { split; [cbn; lia | constructor]. }
  split; [exact H0 |].
  exact (proj2 (levels_stay_sound (fun _ => 0%Q) initialMachine
                  [EvManualSetLevel (Some "7"%string); EvResetProgress true] H0)).
Defined.

(** ** The board *)

Lemma cellOfIndex_div i :
  0 <= i -> cellOfIndex i = mkCell (i mod GRID_SIZE) (i / GRID_SIZE).
Proof.
  intros Hi. unfold cellOfIndex, Math_floor, GRID_SIZE. f_equal.
  - apply Z.rem_mod_nonneg; lia.
  - unfold Qdiv, Qinv, Qmult, inject_Z, Qfloor. cbn [Qnum Qden].
    now rewrite Z.mul_1_r.
Qed.

Lemma gridIndices_range i : In i gridIndices <-> 0 <= i < GRID_SIZE * GRID_SIZE.
Proof.
  unfold gridIndices. rewrite <- list_elem_of_In, elem_of_seqZ. lia.
Qed.

(** Each grid cell is drawn at exactly one index. *)
Lemma grid_index_unique t :
  inGrid t ->
  In (indexOfCell t) gridIndices
  /\ forall j, In j gridIndices -> (cellOfIndex j = t <-> j = indexOfCell t).
Proof.
  destruct t as [x y]. unfold inGrid, indexOfCell. cbn [cx cy].
  intros [Hx Hy]. split; [apply gridIndices_range; unfold GRID_SIZE in *; lia |].
  intros j Hj. apply gridIndices_range in Hj.
  rewrite cellOfIndex_div by lia. unfold GRID_SIZE in *. split.
  - intros E. injection E as Ex Ey. pose proof (Z.div_mod j 7 ltac:(lia)). lia.
  - intros ->. f_equal.
    + rewrite Z.add_comm, Z.mod_add by lia. apply Z.mod_small. lia.
    + rewrite Z.add_comm, Z.div_add by lia. rewrite Z.div_small by lia. lia.
Qed.

Section BoardInvariant.

Variable random : nat -> Q.

Local Arguments generateLevel : simpl never.
Local Arguments recordChain : simpl never.

Lemma generateLevel_board level c :
  let p := fst (generateLevel random level c) in
  validPuzzle p /\ inGrid (anchorCell p) /\ inGrid (targetCell p).
Proof.
  destruct (generateLevel_installed random level c) as (p & _ & -> & Hp). cbn zeta.
  assert (H : validPuzzle p /\ inGrid (anchorCell p) /\ instructions p <> []).
  { destruct Hp as [[_ (Hv & Ha & _ & Hl)] | [_ ->]].
    - repeat split; try apply Hv; try apply Ha.
      intros E. rewrite E in Hl. unfold chainLength in Hl.
      repeat match type of Hl with context [if ?b then _ else _] => destruct b end;
        discriminate.
    - split; [apply failsafe_accepted |]. split; [apply failsafe_accepted | discriminate]. }
  destruct H as (Hv & Ha & Hnil). split; [exact Hv |]. split; [exact Ha |].
  destruct Hv as (_ & Hall & ->). now apply last_prefix_inGrid.
Qed.

Lemma callGenerateLevel_board level m :
  board (callGenerateLevel random level m)
  = Some (fst (generateLevel random level (cursor m))).
Proof.
  unfold board, callGenerateLevel. cbn.
  now destruct (fst (generateLevel random level (cursor m))).
Qed.

Lemma callGenerateLevel_boardSound level m :
  boardSound (callGenerateLevel random level m).
Proof.
  unfold boardSound. rewrite callGenerateLevel_board. apply generateLevel_board.
Qed.

(** The handlers and the state updates leave the board alone. *)
Lemma handlers_board m :
  board (handleSuccess m) = board m /\ board (handleFailure m) = board m.
Proof. split; reflexivity. Qed.

(** With a sound board, an update that touches neither the board nor (when no
    puzzle was generated yet) the status and the callbacks is sound. *)
Lemma boardSound_keep m m' :
  boardSound m -> board m' = board m ->
  (board m = None -> status (game m') <> playing /\ pending m' = []) ->
  boardSound m'.
Proof.
  unfold boardSound. intros H E Hn. rewrite E.
  destruct (board m) as [p |]; [exact H | now apply Hn].
Qed.

Lemma runTask_boardSound t m :
  board m <> None -> boardSound m -> boardSound (runTask random t m).
Proof.
  intros Hb H.
  assert (Hk : forall f, boardSound (setGame f m)).
  { intros f. apply (boardSound_keep m); [exact H | reflexivity | contradiction]. }
  assert (Hs : forall t' m', boardSound m' -> board m' <> None ->
                             boardSound (schedule t' m')).
  { intros t' m' H' Hb'. apply (boardSound_keep m'); [exact H' | reflexivity |].
    contradiction. }
  assert (Hg : forall t' l, boardSound (schedule t' (callGenerateLevel random l m))).
  { intros t' l. apply Hs; [apply callGenerateLevel_boardSound |].
    rewrite callGenerateLevel_board. discriminate. }
  destruct t; cbn [runTask]; try destruct (decide _); try apply Hg; try apply Hk.
  - apply Hs; [apply Hk | exact Hb].
  - apply Hs; [apply Hk | exact Hb].
Qed.

Lemma dispatch_boardSound e m : boardSound m -> boardSound (dispatch random e m).
Proof.
  intros H.
  assert (Hidle : board m = None -> status (game m) <> playing /\ pending m = []).
  { intros E. unfold boardSound in H. now rewrite E in H. }
  destruct e as [| now | confirmed | | x y | input | | k | |]; cbn [dispatch].
  - apply (boardSound_keep (callGenerateLevel random (currentLevel (game m)) m));
      [apply callGenerateLevel_boardSound | reflexivity |].
    rewrite callGenerateLevel_board. discriminate.
  - destruct (decide _) as [Hp |]; [| exact H].
    apply (boardSound_keep m); [exact H | reflexivity |].
    intros E. destruct (Hidle E). contradiction.
  - destruct confirmed; [| exact H].
    apply (boardSound_keep m); [exact H | reflexivity |].
    intros E. split; [discriminate | apply (Hidle E)].
  - unfold togglePracticeMode. destruct (decide _) as [Hp | Hp].
    + apply callGenerateLevel_boardSound.
    + apply (boardSound_keep m); [exact H | reflexivity |].
      intros E. split; [exact Hp | apply (Hidle E)].
  - unfold handleCellClick. destruct (decide _) as [Hp |]; [| exact H].
    assert (Hb : board m <> None) by (intros E; destruct (Hidle E); contradiction).
    destruct (targetPos m) as [t |] eqn:Ht;
      [destruct (_ && _) |];
      (apply (boardSound_keep m); [exact H | unfold board; cbn; now rewrite Ht |];
       contradiction).
  - apply (boardSound_keep m); [exact H | reflexivity |].
    intros E. cbn [game pending setGame]. split; [| apply (Hidle E)].
    assert (Es : status (manualSetLevel input (game m)) = status (game m)).
    { unfold manualSetLevel. destruct input as [[| a text] |]; try reflexivity.
      destruct (parseInt _) as [lvl |]; [| reflexivity].
      destruct (_ && _); reflexivity. }
    rewrite Es. apply (Hidle E).
  - destruct (intervalRunning (game m)) eqn:Hi; [| exact H].
    assert (Hp : status (game m) = playing).
    { unfold intervalRunning in Hi. apply andb_true_iff in Hi.
      destruct Hi as [Hi _]. now apply bool_decide_eq_true in Hi. }
    assert (Hb : board m <> None) by (intros E; destruct (Hidle E); contradiction).
    unfold timerTick.
    destruct (Qle_bool _ _); [destruct (failureHandled m) |];
      (apply (boardSound_keep m); [exact H | reflexivity | contradiction]).
  - destruct (pending m !! k) as [t |] eqn:Hk; [| exact H].
    assert (Hb : board m <> None).
    { intros E. destruct (Hidle E) as [_ Hq]. rewrite Hq in Hk. discriminate. }
    apply runTask_boardSound; [exact Hb |].
    apply (boardSound_keep m); [exact H | reflexivity | contradiction].
  - apply (boardSound_keep m); [exact H | reflexivity |].
    intros E. split; [discriminate | apply (Hidle E)].
  - apply (boardSound_keep m); [exact H | reflexivity |].
    intros E. split; [discriminate | apply (Hidle E)].
Qed.

Lemma run_boardSound events : forall m,
  boardSound m -> boardSound (run random m events).
Proof.
  unfold run. induction events as [| e events IH]; intros m H; cbn [fold_left]; [exact H |].
  apply IH. unfold step.
  apply (boardSound_keep (dispatch random e m)); [now apply dispatch_boardSound | |].
  - unfold statusEffect. repeat destruct (decide _); reflexivity.
  - intros E. rewrite statusEffect_game, statusEffect_pending.
    pose proof (dispatch_boardSound e m H) as Hd. unfold boardSound in Hd.
    now rewrite E in Hd.
Qed.

End BoardInvariant.

(** X15. The board is always solvable.  From a state with a sound board (the
    fresh component, where no puzzle exists and nothing is in play), after
    every sequence of events: whenever a round is in play the board holds a
    puzzle whose target is the grid cell its chain leads to from the anchor,
    different from the anchor; of the 49 cells drawn, the one at index
    [y * 7 + x] of the target is the only one whose selection is handled as a
    success, every other one is handled as a failure. *)
Theorem board_stays_solvable (random : nat -> Q) (m : Machine) (events : list Event) :
  boardSound m ->
  let m' := run random m events in
  boardSound m'
  /\ (status (game m') = playing ->
      exists p, board m' = Some p
        /\ targetCell p = finalPosition (rotation p) (anchorCell p) (instructions p)
        /\ targetCell p <> anchorCell p
        /\ inGrid (targetCell p)
        /\ In (indexOfCell (targetCell p)) gridIndices
        /\ forall j, In j gridIndices ->
             let x := cx (cellOfIndex j) in
             let y := cy (cellOfIndex j) in
             (j = indexOfCell (targetCell p) ->
                dispatch random (EvCellClick x y) m'
                = handleSuccess (setFeedbackCell (Some (mkFeedback x y fb_success)) m'))
             /\ (j <> indexOfCell (targetCell p) ->
                dispatch random (EvCellClick x y) m'
                = handleFailure (setFeedbackCell (Some (mkFeedback x y fb_fail)) m'))).
Proof.
  intros H. cbn zeta. pose proof (run_boardSound random events m H) as Hr.
  split; [exact Hr |]. intros Hp.
  set (m' := run random m events) in *.
  unfold boardSound in Hr. unfold board in *.
  destruct (targetPos m') as [t |] eqn:Ht; [| destruct Hr; contradiction].
  destruct Hr as ((Hne & _ & Hfin) & _ & Hin).
  cbn [targetCell anchorCell rotation instructions] in Hne, Hfin, Hin.
  eexists. split; [reflexivity |]. cbn [targetCell anchorCell rotation instructions].
  destruct (grid_index_unique t Hin) as [Hi Huniq].
  split; [exact Hfin |]. split; [exact Hne |]. split; [exact Hin |].
  split; [exact Hi |].
  intros j Hj. specialize (Huniq j Hj). cbn zeta.
  cbn [dispatch]. unfold handleCellClick. rewrite Ht.
  destruct (decide (status (game m') = playing)); [| contradiction].
  destruct (cellOfIndex j) as [x y] eqn:Ec. cbn [cx cy]. split.
  - intros E. apply Huniq in E. rewrite <- E. cbn [cx cy]. now rewrite !Z.eqb_refl.
  - intros E.
    destruct ((x =? cx t) && (y =? cy t)) eqn:Eb; [| reflexivity].
    apply andb_true_iff in Eb. destruct Eb as [Ex Ey].
    apply Z.eqb_eq in Ex, Ey. exfalso. apply E, Huniq.
    destruct t as [tx ty]. cbn [cx cy] in Ex, Ey. now rewrite Ex, Ey.
Qed.

Lemma board_stays_solvable_witness :
  let m' := run (fun n => Z.of_nat (n * 7 + 3) # 10) initialMachine [EvStart] in
  boardSound initialMachine /\ boardSound m'.
Proof.
  cbn zeta.
  assert (H0 : boardSound initialMachine) by (split; [discriminate | reflexivity]).
  split; [exact H0 |].
  exact (proj1 (board_stays_solvable (fun n => Z.of_nat (n * 7 + 3) # 10)
                  initialMachine [EvStart] H0)).
Defined.

(** ** Level changes *)

Section LevelChanges.

Variable random : nat -> Q.

Local Arguments Qle_bool : simpl never.
Local Arguments Qmin : simpl never.
Local Arguments Qplus : simpl never.
Local Arguments Qminus : simpl never.
Local Arguments Qmult : simpl never.
Local Arguments inject_Z : simpl never.
Local Arguments Math_floor : simpl never.
Local Arguments generateLevel : simpl never.
Local Arguments recordChain : simpl never.
Local Arguments Z.mul : simpl never.
Local Arguments Z.add : simpl never.
Local Arguments Z.sub : simpl never.
Local Arguments Z.max : simpl never.

(** What a callback does to the board, the timer and the oracle. *)
Lemma runTask_board t m :
  match taskGenerates t with
  | Some l =>
      board (runTask random t m) = Some (fst (generateLevel random l (cursor m)))
      /\ timer (runTask random t m) = 100%Q
      /\ cursor (runTask random t m) = snd (generateLevel random l (cursor m))
  | None =>
      board (runTask random t m) = board m
      /\ timer (runTask random t m) = timer m
      /\ cursor (runTask random t m) = cursor m
  end.
Proof.
  destruct t; cbn [runTask taskGenerates]; try destruct (decide _);
    try (repeat split; fail);
    (split; [apply (callGenerateLevel_board random) | split; reflexivity]).
Qed.

Lemma statusEffect_board before m :
  board (statusEffect before m) = board m
  /\ timer (statusEffect before m) = timer m
  /\ cursor (statusEffect before m) = cursor m.
Proof. unfold statusEffect. repeat destruct (decide _); repeat split. Qed.

Lemma runNext_cons m t rest :
  pending m = t :: rest ->
  runNext random m = statusEffect (status (game m)) (runTask random t (setPending rest m)).
Proof.
  intros Hp. unfold runNext, step. cbn [dispatch]. rewrite Hp.
  change ((t :: rest) !! 0%nat) with (Some t). cbv iota. reflexivity.
Qed.

(** The three callbacks of a round that changes the level: the first shows
    the level-up or level-down screen, the second generates the puzzle of the
    new level, the third resumes play. *)
Lemma settle_level_change m first second third l :
  pending m = [first] ->
  taskFollowUp first = [second] -> taskFollowUp second = [third] ->
  taskFollowUp third = [] ->
  taskGenerates first = None -> taskGenerates second = Some l ->
  taskGenerates third = None ->
  status (taskGame third (taskGame second (taskGame first (game m)))) = playing ->
  status (taskGame second (taskGame first (game m))) <> playing ->
  let m' := settle random m in
  game (runNext random m) = taskGame first (game m)
  /\ game m' = taskGame third (taskGame second (taskGame first (game m)))
  /\ pending m' = []
  /\ board m' = Some (fst (generateLevel random l (cursor m)))
  /\ timer m' = 100%Q
  /\ failureHandled m' = false.
Proof.
  intros Hp F1 F2 F3 G1 G2 G3 Hplay Hnot. cbn zeta. unfold settle.
  set (m1 := runNext random m).
  assert (H1 : game m1 = taskGame first (game m) /\ pending m1 = [second]
               /\ cursor m1 = cursor m).
  { subst m1. rewrite (runNext_game random m), (runNext_pending random m), Hp, F1.
    split; [reflexivity |]. split; [reflexivity |].
    rewrite (runNext_cons m first [] Hp).
    rewrite (proj2 (proj2 (statusEffect_board _ _))).
    pose proof (runTask_board first (setPending [] m)) as Hb. rewrite G1 in Hb.
    apply Hb. }
  destruct H1 as (Eg1 & Ep1 & Ec1).
  set (m2 := runNext random m1).
  assert (H2 : game m2 = taskGame second (game m1) /\ pending m2 = [third]
               /\ board m2 = Some (fst (generateLevel random l (cursor m)))
               /\ timer m2 = 100%Q).
  { subst m2. rewrite (runNext_game random m1), (runNext_pending random m1), Ep1, F2.
    split; [reflexivity |]. split; [reflexivity |].
    rewrite (runNext_cons m1 second [] Ep1).
    destruct (statusEffect_board (status (game m1))
                (runTask random second (setPending [] m1))) as (-> & -> & _).
    pose proof (runTask_board second (setPending [] m1)) as Hb. rewrite G2 in Hb.
    cbn [cursor setPending] in Hb. rewrite Ec1 in Hb. split; apply Hb. }
  destruct H2 as (Eg2 & Ep2 & Eb2 & Et2).
  split; [exact Eg1 |].
  rewrite (runNext_game random m2), (runNext_pending random m2), Ep2, F3, Eg2, Eg1.
  split; [reflexivity |]. split; [reflexivity |].
  rewrite (runNext_cons m2 third [] Ep2).
  destruct (statusEffect_board (status (game m2))
              (runTask random third (setPending [] m2))) as (-> & -> & _).
  pose proof (runTask_board third (setPending [] m2)) as Hb. rewrite G3 in Hb.
  destruct Hb as (-> & -> & _). cbn [board timer setPending targetPos anchorPos
                                        anchorRotation chain].
  split; [exact Eb2 |]. split; [exact Et2 |].
  unfold statusEffect. rewrite runTask_game. cbn [game setPending].
  rewrite Eg2, Eg1.
  destruct (decide _) as [E | _]; [rewrite Hplay in E; congruence |].
  destruct (decide _) as [_ | E]; [reflexivity | contradiction].
Qed.

Lemma handleFailure_dropping m :
  isPracticeMode (game m) = false ->
  (stability (game m) - 30 <= 0)%Q -> 1 < currentLevel (game m) ->
  let g := game m in
  game (handleFailure m)
  = mkGame success_anim (currentLevel g) 50 (maxLevel g) (score g) 1 0
           (soundEnabled g) false
           (mkAnalytics (recordChain loss (chain m) (tags (analytics g)))
                        (sessions (analytics g)))
           (sessionCorrect g) (sessionTotal g + 1)
  /\ pending (handleFailure m)
     = pending m ++ [AfterFailure level_down (currentLevel g - 1) 50]
  /\ cursor (handleFailure m) = cursor m.
Proof.
  destruct m as [g tm ap ar ch tp fc fh pd cu].
  destruct g as [st lv sb ml sc mu sk se pm an scor stot].
  cbn. intros -> Hs Hl.
  unfold handleFailure, updateAnalytics, schedule, setPending, setGame. cbn.
  apply Qle_bool_iff in Hs. rewrite Hs.
  destruct (Z.gtb_spec lv 1); [| lia]. cbn. repeat split.
Qed.

Lemma handleSuccess_rising m :
  isPracticeMode (game m) = false -> (100 <= stability (game m) + 15)%Q ->
  let g := game m in
  game (handleSuccess m)
  = mkGame success_anim (currentLevel g) 50 (maxLevel g)
           (inject_Z (Math_floor (score g + reward m)))
           (Qmin (multiplier g + (1 # 2)) 5) (streak g + 1)
           (soundEnabled g) false
           (mkAnalytics (recordChain win (chain m) (tags (analytics g)))
                        (sessions (analytics g)))
           (sessionCorrect g + 1) (sessionTotal g + 1)
  /\ pending (handleSuccess m)
     = pending m ++ [AfterSuccess level_up (currentLevel g + 1)]
  /\ cursor (handleSuccess m) = cursor m.
Proof.
  destruct m as [g tm ap ar ch tp fc fh pd cu].
  destruct g as [st lv sb ml sc mu sk se pm an scor stot].
  cbn. intros -> Hs.
  unfold handleSuccess, updateAnalytics, schedule, setPending, setGame, reward. cbn.
  apply Qle_bool_iff in Hs. rewrite Hs. cbn. repeat split.
Qed.

End LevelChanges.

(** X16. A level-up round.  Outside practice mode, with no callback pending,
    a correct selection that brings stability to 100 or more leads, once its
    three callbacks have run, to the next level in play: the level-up screen
    is shown after the first callback, then the level is one higher,
    [maxLevel] is raised to it when it was lower, stability restarts at 50,
    the board holds the puzzle generated for the new level, the timer is
    back at 100 and the guard of the countdown is lowered. *)
Theorem level_up_round (random : nat -> Q) (m : Machine) :
  isPracticeMode (game m) = false -> pending m = [] ->
  (100 <= stability (game m) + 15)%Q ->
  let clicked := statusEffect (status (game m)) (handleSuccess m) in
  let m' := playRound random m RoundSuccess in
  let next := currentLevel (game m) + 1 in
  status (game (runNext random clicked)) = level_up
  /\ status (game m') = playing
  /\ currentLevel (game m') = next
  /\ maxLevel (game m') = Z.max (maxLevel (game m)) next
  /\ stability (game m') = 50%Q
  /\ pending m' = []
  /\ board m' = Some (fst (generateLevel random next (cursor m)))
  /\ timer m' = 100%Q
  /\ failureHandled m' = false.
Proof.
  intros Hp Hq Hs. cbn zeta.
  destruct (handleSuccess_rising m Hp Hs) as (Eg & Epd & Ec). cbn zeta in Eg, Epd.
  rewrite Hq in Epd. cbn [app] in Epd.
  set (clicked := statusEffect (status (game m)) (handleSuccess m)).
  assert (Hc : game clicked = game (handleSuccess m)
               /\ pending clicked = pending (handleSuccess m)
               /\ cursor clicked = cursor m).
  { subst clicked. rewrite statusEffect_game, statusEffect_pending.
    rewrite (proj2 (proj2 (statusEffect_board _ _))). auto. }
  destruct Hc as (Hcg & Hcp & Hcc). rewrite Epd in Hcp.
  unfold playRound. fold clicked.
  destruct (settle_level_change random clicked
              (AfterSuccess level_up (currentLevel (game m) + 1))
              (AfterLevelUp (currentLevel (game m) + 1)) FramePlaying
              (currentLevel (game m) + 1) Hcp)
    as (E1 & E' & Hpd & Hb & Ht & Hf); try reflexivity; try discriminate.
  cbn zeta in E', Hpd, Hb, Ht, Hf.
  rewrite E1, E', Hpd, Hb, Ht, Hf, Hcc, Hcg, Eg. cbn. repeat split.
Qed.

Lemma level_up_round_witness :
  let m := roundInPlay false 3 90 0 1 80 in
  let m' := playRound (fun _ => 0%Q) m RoundSuccess in
  status (game m') = playing /\ currentLevel (game m') = 3 + 1.
Proof.
  cbn zeta.
  pose proof (level_up_round (fun _ => 0%Q) (roundInPlay false 3 90 0 1 80)
                eq_refl eq_refl ltac:(vm_compute; discriminate)) as H.
  cbn zeta in H. exact (conj (proj1 (proj2 H)) (proj1 (proj2 (proj2 H)))).
Defined.

(** X17. A level-down round.  Outside practice mode, above level 1, with no
    callback pending, a failure that brings stability to 0 or below leads,
    once its three callbacks have run, to the level below in play: the
    level-down screen is shown after the first callback, then the level is
    one lower, stability restarts at 50, the streak is 0 and the multiplier
    1, score and [maxLevel] are as before, the board holds the puzzle
    generated for the lower level and the timer is back at 100. *)
Theorem level_down_round (random : nat -> Q) (m : Machine) :
  isPracticeMode (game m) = false -> pending m = [] ->
  (stability (game m) - 30 <= 0)%Q -> 1 < currentLevel (game m) ->
  let failed := statusEffect (status (game m)) (handleFailure m) in
  let m' := playRound random m RoundFailure in
  let next := currentLevel (game m) - 1 in
  status (game (runNext random failed)) = level_down
  /\ status (game m') = playing
  /\ currentLevel (game m') = next
  /\ maxLevel (game m') = maxLevel (game m)
  /\ stability (game m') = 50%Q
  /\ score (game m') = score (game m)
  /\ multiplier (game m') = 1%Q /\ streak (game m') = 0
  /\ pending m' = []
  /\ board m' = Some (fst (generateLevel random next (cursor m)))
  /\ timer m' = 100%Q
  /\ failureHandled m' = false.
Proof.
  intros Hp Hq Hs Hl. cbn zeta.
  destruct (handleFailure_dropping m Hp Hs Hl) as (Eg & Epd & Ec). cbn zeta in Eg, Epd.
  rewrite Hq in Epd. cbn [app] in Epd.
  set (failed := statusEffect (status (game m)) (handleFailure m)).
  assert (Hc : game failed = game (handleFailure m)
               /\ pending failed = pending (handleFailure m)
               /\ cursor failed = cursor m).
  { subst failed. rewrite statusEffect_game, statusEffect_pending.
    rewrite (proj2 (proj2 (statusEffect_board _ _))). auto. }
  destruct Hc as (Hcg & Hcp & Hcc). rewrite Epd in Hcp.
  unfold playRound. fold failed.
  destruct (settle_level_change random failed
              (AfterFailure level_down (currentLevel (game m) - 1) 50)
              (AfterLevelDown (currentLevel (game m) - 1)) FramePlayingStable
              (currentLevel (game m) - 1) Hcp)
    as (E1 & E' & Hpd & Hb & Ht & Hf); try reflexivity; try discriminate.
  cbn zeta in E', Hpd, Hb, Ht, Hf.
  rewrite E1, E', Hpd, Hb, Ht, Hf, Hcc, Hcg, Eg. cbn. repeat split.
Qed.

Lemma level_down_round_witness :
  let m := roundInPlay false 3 20 0 1 80 in
  let m' := playRound (fun _ => 0%Q) m RoundFailure in
  status (game m') = playing /\ currentLevel (game m') = 3 - 1.
Proof.
  cbn zeta.
  pose proof (level_down_round (fun _ => 0%Q) (roundInPlay false 3 20 0 1 80)
                eq_refl eq_refl ltac:(vm_compute; discriminate)
                ltac:(vm_compute; reflexivity)) as H.
  cbn zeta in H. exact (conj (proj1 (proj2 H)) (proj1 (proj2 (proj2 H)))).
Defined.

(** ** Input outside a round *)

Section InputOutsideRound.

Variable random : nat -> Q.

Local Arguments generateLevel : simpl never.
Local Arguments recordChain : simpl never.

Lemma step_roundInput_ignored m e :
  status (game m) <> playing -> roundInput e -> step random m e = m.
Proof.
  intros Hs He. destruct (transient_ignores_input random m 0 0 Hs) as [Ht _].
  unfold step.
  assert (E : dispatch random e m = m).
  { destruct He as [-> | (x & y & ->)]; [exact Ht |].
    apply (transient_ignores_input random m x y Hs). }
  rewrite E. unfold statusEffect. destruct (decide _); [reflexivity | congruence].
Qed.

Lemma run_roundInput_ignored events : forall m,
  status (game m) <> playing -> Forall roundInput events -> run random m events = m.
Proof.
  unfold run. induction events as [| e events IH]; intros m Hs Hall; cbn [fold_left];
    [reflexivity |].
  inversion Hall as [| ? ? He Hrest]; subst.
  rewrite (step_roundInput_ignored m e Hs He). now apply IH.
Qed.

Lemma handlers_status m :
  status (game (handleSuccess m)) = success_anim
  /\ status (game (handleFailure m)) = success_anim.
Proof.
  split; [| apply handleFailure_leaves_playing].
  destruct m as [g tm ap ar ch tp fc fh pd cu].
  unfold handleSuccess, updateAnalytics. cbn. destruct (isPracticeMode g); reflexivity.
Qed.

Lemma handlers_pending m :
  length (pending (handleSuccess m)) = S (length (pending m))
  /\ length (pending (handleFailure m)) = S (length (pending m)).
Proof.
  destruct m as [g tm ap ar ch tp fc fh pd cu].
  unfold handleSuccess, handleFailure, schedule, setPending, setGame. cbn.
  rewrite !length_app. cbn. split; lia.
Qed.

End InputOutsideRound.

(** X18. A selection is handled once.  While a round is in play, selecting a
    cell (right or wrong) leaves [playing] and schedules exactly one
    callback; until a callback runs, further selections and interval ticks
    in any number and order change nothing at all: a double click cannot
    score or fail twice.  The same holds in every state that is not
    [playing] (menu, game over, analytics, level-up and level-down screens). *)
Theorem selection_handled_once (random : nat -> Q) (m : Machine) (x y : Z)
    (events : list Event) :
  Forall roundInput events ->
  (status (game m) <> playing -> run random m events = m)
  /\ (status (game m) = playing ->
      let m1 := step random m (EvCellClick x y) in
      status (game m1) = success_anim
      /\ length (pending m1) = S (length (pending m))
      /\ run random m1 events = m1).
Proof.
  intros Hall. split; [intros Hs; now apply run_roundInput_ignored |].
  intros Hp. cbn zeta.
  assert (H1 : status (game (step random m (EvCellClick x y))) = success_anim
               /\ length (pending (step random m (EvCellClick x y)))
                  = S (length (pending m))).
  { unfold step. rewrite statusEffect_game, statusEffect_pending. cbn [dispatch].
    unfold handleCellClick. destruct (decide _); [| contradiction].
    destruct (targetPos m) as [t |]; [destruct (_ && _) |];
      match goal with
      | |- context [handleSuccess ?a] =>
          exact (conj (proj1 (handlers_status a)) (proj1 (handlers_pending a)))
      | |- context [handleFailure ?a] =>
          exact (conj (proj2 (handlers_status a)) (proj2 (handlers_pending a)))
      end. }
  destruct H1 as [Hs Hl]. split; [exact Hs |]. split; [exact Hl |].
  apply run_roundInput_ignored; [rewrite Hs; discriminate | exact Hall].
Qed.

Lemma selection_handled_once_witness :
  let m1 := step (fun _ => 0%Q) (roundInPlay false 3 50 0 1 80) (EvCellClick 3 2) in
  run (fun _ => 0%Q) m1 [EvCellClick 3 2; EvTick; EvCellClick 0 0] = m1.
Proof.
  cbn zeta.
  assert (Hall : Forall roundInput [EvCellClick 3 2; EvTick; EvCellClick 0 0]).
  { constructor; [right; eauto |]. constructor; [left; reflexivity |].
    constructor; [right; eauto | constructor]. }
  exact (proj2 (proj2 (proj2 (selection_handled_once (fun _ => 0%Q)
                                (roundInPlay false 3 50 0 1 80) 3 2
                                [EvCellClick 3 2; EvTick; EvCellClick 0 0] Hall)
                               eq_refl))).
Defined.

(** X19. The practice switch.  Toggling practice mode flips the flag and
    changes nothing else of the game state and no pending callback; during a
    round it also replaces the puzzle by a new one for the current level and
    restarts the timer at 100, outside a round the board and the timer are
    kept.  A second toggle restores the game state.  While the flag is set
    the countdown stands still: interval ticks in any number change nothing. *)
Theorem practice_toggle (random : nat -> Q) (m : Machine) (n : nat) :
  let g := game m in
  let m1 := step random m EvTogglePractice in
  game m1
  = mkGame (status g) (currentLevel g) (stability g) (maxLevel g) (score g)
           (multiplier g) (streak g) (soundEnabled g) (negb (isPracticeMode g))
           (analytics g) (sessionCorrect g) (sessionTotal g)
  /\ pending m1 = pending m
  /\ (status g = playing ->
      board m1 = Some (fst (generateLevel random (currentLevel g) (cursor m)))
      /\ timer m1 = 100%Q)
  /\ (status g <> playing -> board m1 = board m /\ timer m1 = timer m)
  /\ game (step random m1 EvTogglePractice) = g
  /\ (isPracticeMode g = false -> run random m1 (repeat EvTick n) = m1).
Proof.
  cbn zeta.
  assert (Hd : game (dispatch random EvTogglePractice m)
               = mkGame (status (game m)) (currentLevel (game m)) (stability (game m))
                   (maxLevel (game m)) (score (game m)) (multiplier (game m))
                   (streak (game m)) (soundEnabled (game m))
                   (negb (isPracticeMode (game m))) (analytics (game m))
                   (sessionCorrect (game m)) (sessionTotal (game m))
               /\ pending (dispatch random EvTogglePractice m) = pending m).
  { cbn [dispatch]. unfold togglePracticeMode. destruct (decide _); split; reflexivity. }
  destruct Hd as [Hg Hp].
  assert (Hstep : step random m EvTogglePractice = dispatch random EvTogglePractice m).
  { unfold step, statusEffect. rewrite Hg. cbn [status].
    destruct (decide _); [reflexivity | contradiction]. }
  rewrite Hstep. split; [exact Hg |]. split; [exact Hp |].
  split; [| split; [| split]].
  - intros Hs. cbn [dispatch]. unfold togglePracticeMode.
    destruct (decide _); [| contradiction].
    split; [rewrite callGenerateLevel_board | ]; reflexivity.
  - intros Hs. cbn [dispatch]. unfold togglePracticeMode.
    destruct (decide _); [contradiction | split; reflexivity].
  - set (m1 := dispatch random EvTogglePractice m) in *.
    unfold step. rewrite statusEffect_game. cbn [dispatch]. unfold togglePracticeMode.
    assert (E : game (setGame (fun prev =>
                  mkGame (status prev) (currentLevel prev) (stability prev)
                    (maxLevel prev) (score prev) (multiplier prev) (streak prev)
                    (soundEnabled prev) (negb (isPracticeMode prev)) (analytics prev)
                    (sessionCorrect prev) (sessionTotal prev)) m1) = game m).
    { cbn [game setGame]. rewrite Hg. cbn. rewrite negb_involutive.
      now destruct (game m). }
    destruct (decide _); [| exact E].
    cbn [game callGenerateLevel]. exact E.
  - intros Hpm. set (m1 := dispatch random EvTogglePractice m) in *.
    assert (Hi : intervalRunning (game m1) = false).
    { unfold intervalRunning. rewrite Hg. cbn [status isPracticeMode]. rewrite Hpm.
      apply andb_false_r. }
    induction n as [| k IH]; [reflexivity |].
    cbn [repeat]. unfold run. cbn [fold_left].
    assert (Es : step random m1 EvTick = m1).
    { unfold step. cbn [dispatch]. rewrite Hi. unfold statusEffect.
      destruct (decide _); [reflexivity | contradiction]. }
    rewrite Es. exact IH.
Qed.

Lemma practice_toggle_witness :
  let m1 := step (fun _ => 0%Q) (roundInPlay false 3 50 0 1 80) EvTogglePractice in
  run (fun _ => 0%Q) m1 (repeat EvTick 5) = m1.
Proof.
  cbn zeta.
  exact (proj2 (proj2 (proj2 (proj2 (proj2
           (practice_toggle (fun _ => 0%Q) (roundInPlay false 3 50 0 1 80) 5)))))
           eq_refl).
Defined.

(** ** The generator of the earlier component *)

Section LegacyGenerator.

Variable random : nat -> Q.

Lemma genStep_ext (r1 r2 : Z -> Direction -> Vec) level rot c :
  (forall d, r1 rot d = r2 rot d) ->
  genStep random r1 level rot c = genStep random r2 level rot c.
Proof.
  intros H. unfold genStep, bind, gated, ret, Math_random.
  destruct (allowAbsolute level), (allowInversion level), (allowInterference level);
    cbn;
    repeat match goal with
           | |- context [Qgtb ?a ?b] => destruct (Qgtb a b); cbn
           end;
    rewrite H; reflexivity.
Qed.

Lemma chainLoop_ext (r1 r2 : Z -> Direction -> Vec) slots :
  forall level rot chain0 x0 y0 c,
  (forall d, r1 rot d = r2 rot d) ->
  chainLoop random r1 slots level rot chain0 x0 y0 c
  = chainLoop random r2 slots level rot chain0 x0 y0 c.
Proof.
  induction slots as [| slots IH]; intros level rot chain0 x0 y0 c H; [reflexivity |].
  cbn [chainLoop]. unfold bind. rewrite (genStep_ext r1 r2 level rot c H).
  destruct (genStep random r2 level rot c) as [[s v] c'].
  destruct (outOfGrid _ _); [reflexivity | now apply IH].
Qed.

Lemma legacy_attempt level v c :
  valid v = false -> finalX v = None ->
  legacyVars level (fst (Legacy.attempt random level v c))
  /\ attemptCount (fst (Legacy.attempt random level v c)) = attemptCount v + 1.
Proof.
  intros Hv Hx. unfold Legacy.attempt, bind, Math_random, ret.
  set (rx := Qfrac (random c)). set (ry := Qfrac (random (S c))).
  set (rr := Qfrac (random (S (S c)))).
  set (ax := Math_floor (rx * inject_Z GRID_SIZE)).
  set (ay := Math_floor (ry * inject_Z GRID_SIZE)).
  set (rot := Math_floor (rr * 4) * 90).
  cbn [cx cy].
  pose proof (floor_scale_range rx GRID_SIZE (Qfrac_range _) ltac:(unfold GRID_SIZE; lia))
    as Hax.
  pose proof (floor_scale_range ry GRID_SIZE (Qfrac_range _) ltac:(unfold GRID_SIZE; lia))
    as Hay.
  pose proof (floor_scale_range rr 4 (Qfrac_range _) ltac:(lia)) as Hr.
  change (inject_Z 4) with 4%Q in Hr.
  assert (Hrot : cardinalRotation rot) by (unfold cardinalRotation; subst rot; lia).
  rewrite (chainLoop_ext Legacy.getVector getVector (chainLength level) level rot []
             ax ay (S (S (S c)))
             (fun d => legacy_getVector_agrees rot d Hrot)).
  destruct (chainLoop _ _ _ _ _ _ _ _ _) as [[[[ch x] y] failed] c'] eqn:Hloop.
  destruct (negb failed && (negb (x =? ax) || negb (y =? ay))) eqn:Hok;
    unfold legacyVars, acceptedVars; cbn;
    [| split; [split; [congruence | intros _; exact Hx] | reflexivity]].
  split; [| reflexivity]. split; [intros _ | discriminate].
  apply andb_true_iff in Hok. destruct Hok as [Hf Hne].
  destruct failed; [discriminate |].
  apply chainLoop_walk in Hloop. destruct Hloop as (steps & -> & Hlen & Hin & Hfin).
  eexists. split; [reflexivity |].
  unfold acceptedPuzzle, validPuzzle, inGrid.
  cbn [anchorCell rotation instructions targetCell app cx cy].
  split; [split; [| split] | split; [| split]].
  - intros [= Ex Ey]. subst x y. rewrite !Z.eqb_refl in Hne. discriminate.
  - exact Hin.
  - symmetry. exact Hfin.
  - exact (conj Hax Hay).
  - exact Hrot.
  - exact Hlen.
Qed.

Lemma legacy_whileLoop level fuel : forall v c,
  100 - attemptCount v <= Z.of_nat fuel -> attemptCount v <= 100 ->
  legacyVars level v ->
  let v' := fst (Legacy.whileLoop random fuel level v c) in
  legacyVars level v'
  /\ attemptCount v <= attemptCount v' <= 100
  /\ (valid v' = false -> attemptCount v' = 100).
Proof.
  induction fuel as [| fuel IH]; intros v c Hf Hle Hv; cbn [Legacy.whileLoop].
  - cbn. split; [exact Hv |]. split; lia.
  - destruct (negb (valid v) && (attemptCount v <? 100)) eqn:Hg.
    + unfold bind. apply andb_true_iff in Hg. destruct Hg as [Hn Hlt].
      apply negb_true_iff in Hn. apply Z.ltb_lt in Hlt.
      destruct (legacy_attempt level v c Hn (proj2 Hv Hn)) as [Ha Hc].
      destruct (Legacy.attempt random level v c) as [v' c']. cbn [fst] in Ha, Hc.
      destruct (IH v' c' ltac:(lia) ltac:(lia) Ha) as (H1 & H2 & H3).
      split; [exact H1 |]. split; [lia | exact H3].
    + cbn. split; [exact Hv |]. split; [lia |]. intros Hn. rewrite Hn in Hg.
      cbn in Hg. apply Z.ltb_ge in Hg. lia.
Qed.

Lemma legacy_whileLoop_unfold level fuel v c :
  Legacy.whileLoop random (S fuel) level v c
  = if negb (valid v) && (attemptCount v <? 100)
    then (let (v', c') := Legacy.attempt random level v c in
          Legacy.whileLoop random fuel level v' c')
    else (v, c).
Proof. cbn [Legacy.whileLoop]. destruct (_ && _); reflexivity. Qed.

Lemma legacy_first_attempt level c :
  1 <= attemptCount (fst (Legacy.generateLevelVars random level c)).
Proof.
  unfold Legacy.generateLevelVars. change 100%nat with (S 99).
  rewrite legacy_whileLoop_unfold.
  change (negb (valid initialVars) && (attemptCount initialVars <? 100)) with true.
  cbv iota.
  destruct (legacy_attempt level initialVars c eq_refl eq_refl) as [Ha Hc].
  destruct (Legacy.attempt random level initialVars c) as [v' c']. cbn [fst] in Ha, Hc.
  change (attemptCount initialVars) with 0 in Hc.
  destruct (legacy_whileLoop level 99 v' c' ltac:(lia) ltac:(lia) Ha) as (_ & H & _).
  cbv zeta in H. lia.
Qed.

End LegacyGenerator.

(** X20. The generator of the earlier component ([VectorFrameUnbreakable]).
    Its search makes between 1 and 100 attempts.  When it finds a candidate,
    the values handed to the setters form a puzzle with anchor and target in
    the grid, the target different from the anchor and equal to the position
    the chain leads to, every prefix position in the grid, a rotation among
    0, 90, 180, 270 (on which the older [getVector] agrees with the newer
    one) and a chain of the length of the level.  When it finds none, all 100
    attempts were used and the target handed to the setters is undefined. *)
Theorem legacy_generateLevel_sound (random : nat -> Q) (level : Z) (c : nat) :
  let v := fst (Legacy.generateLevelVars random level c) in
  let result := fst (Legacy.generateLevel random level c) in
  1 <= attemptCount v <= 100
  /\ (valid v = true ->
      exists p, result = Some p
        /\ validPuzzle p /\ inGrid (anchorCell p) /\ inGrid (targetCell p)
        /\ cardinalRotation (rotation p)
        /\ (forall d, Legacy.getVector (rotation p) d = getVector (rotation p) d)
        /\ length (instructions p) = chainLength level)
  /\ (valid v = false -> result = None /\ attemptCount v = 100).
Proof.
  cbn zeta.
  assert (H0 : legacyVars level initialVars).
  { split; [intros H; discriminate H | reflexivity]. }
  pose proof (legacy_whileLoop random level 100 initialVars c ltac:(cbn; lia)
                ltac:(cbn; lia) H0) as (Hv & Hc & Hex).
  cbv zeta in Hv, Hc, Hex. fold (Legacy.generateLevelVars random level c) in Hv, Hc, Hex.
  pose proof (legacy_first_attempt random level c) as H1.
  unfold Legacy.generateLevel, bind, ret.
  destruct (Legacy.generateLevelVars random level c) as [v c'] eqn:Hs. cbn [fst] in *.
  split; [lia |]. split.
  - intros Hval. destruct (proj1 Hv Hval) as (p & Hp & (Hvp & Ha & Hr & Hl)).
    exists p. split; [exact Hp |]. split; [exact Hvp |]. split; [exact Ha |].
    assert (Hne : instructions p <> []).
    { intros E. rewrite E in Hl. unfold chainLength in Hl.
      repeat match type of Hl with context [if ?b then _ else _] => destruct b end;
        discriminate. }
    split; [| split; [exact Hr | split; [| exact Hl]]].
    + destruct Hvp as (_ & Hall & ->). now apply last_prefix_inGrid.
    + intros d. now apply legacy_getVector_agrees.
  - intros Hval. split; [| now apply Hex].
    pose proof (proj2 Hv Hval) as Hx. unfold installed. rewrite Hx.
    destruct (newAnchor v), (newRot v), (newChain v); reflexivity.
Qed.

Lemma legacy_generateLevel_sound_witness :
  let v := fst (Legacy.generateLevelVars (fun n => Z.of_nat (n * 7 + 3) # 10) 1 0%nat) in
  valid v = true
  /\ exists p, fst (Legacy.generateLevel (fun n => Z.of_nat (n * 7 + 3) # 10) 1 0%nat)
               = Some p /\ validPuzzle p.
Proof.
  cbn zeta.
  assert (Hv : valid (fst (Legacy.generateLevelVars
                             (fun n => Z.of_nat (n * 7 + 3) # 10) 1 0%nat)) = true)
    by (vm_compute; reflexivity).
  split; [exact Hv |].
  destruct (proj1 (proj2 (legacy_generateLevel_sound
                            (fun n => Z.of_nat (n * 7 + 3) # 10) 1 0%nat)) Hv)
    as (p & Hp & Hvp & _).
  exists p. split; [exact Hp | exact Hvp].
Defined.

(** ** Persistence *)

Module PersistenceFacts.
Import Persistence.

Lemma load_stored data storage prev :
  storage !! PERMANENT_KEY = Some (Json data) ->
  load storage prev = (storage, restore data prev).
Proof. intros E. unfold load. rewrite E. reflexivity. Qed.

Lemma orZ_some v d : v <> 0 -> orZ (Some v) d = v.
Proof. intros H. unfold orZ. destruct (Z.eqb_spec v 0); [contradiction | reflexivity]. Qed.

Lemma orQ_some v : (orQ (Some v) 0 == v)%Q.
Proof.
  unfold orQ. destruct (Qeq_bool v 0) eqn:E; [| reflexivity].
  apply Qeq_bool_eq in E. now rewrite E.
Qed.

(** The loop stops at the first key that holds a text. *)
Lemma migrate_first before key after storage :
  Forall (fun k => hasText (storage !! k) = false) before ->
  hasText (storage !! key) = true ->
  migrate (before ++ key :: after) storage
  = match storage !! key with
    | Some (Json parsed) =>
        Some (Some (Json (migratedState parsed)),
              <[PERMANENT_KEY := Json (migratedState parsed)]> storage)
    | _ => None
    end.
Proof.
  intros Hb Hk. induction before as [| k before IH]; cbn [app migrate].
  - destruct (storage !! key) as [[| | parsed] |]; try discriminate; reflexivity.
  - inversion Hb as [| ? ? Hk0 Hrest]; subst.
    destruct (storage !! k) as [[| | parsed] |]; try discriminate; now apply IH.
Qed.

Lemma migrate_none keys storage :
  Forall (fun k => hasText (storage !! k) = false) keys ->
  migrate keys storage = Some (storage !! PERMANENT_KEY, storage).
Proof.
  induction keys as [| k keys IH]; intros Hb; cbn [migrate]; [reflexivity |].
  inversion Hb as [| ? ? Hk0 Hrest]; subst.
  destruct (storage !! k) as [[| | parsed] |]; try discriminate; now apply IH.
Qed.

End PersistenceFacts.

(** X21. Stored progress comes back.  What the saving effect writes for a
    state that is not idle, the loading effect reads back: level, highest
    level, stability, score and analytics are those of the saved state (for
    levels other than 0, which [||] would replace by 1), everything else is
    kept from the state the component starts with, and loading does not
    write.  What [resetProgress] writes is read back as level 1, stability
    50, score 0, empty analytics and the highest level from before.  Nothing
    is saved before loading has finished or while the state is idle. *)
Theorem save_load_round_trip (g prev : GameState) (storage : Persistence.Storage) :
  status g <> idle -> currentLevel g <> 0 -> maxLevel g <> 0 ->
  let stored := Persistence.save true g storage in
  let loaded := snd (Persistence.load stored prev) in
  let cleared := snd (Persistence.load (Persistence.resetWrite g storage) prev) in
  fst (Persistence.load stored prev) = stored
  /\ currentLevel loaded = currentLevel g /\ maxLevel loaded = maxLevel g
  /\ stability loaded = stability g /\ (score loaded == score g)%Q
  /\ analytics loaded = analytics g
  /\ status loaded = status prev /\ multiplier loaded = multiplier prev
  /\ streak loaded = streak prev /\ isPracticeMode loaded = isPracticeMode prev
  /\ sessionCorrect loaded = sessionCorrect prev
  /\ sessionTotal loaded = sessionTotal prev
  /\ currentLevel cleared = 1 /\ maxLevel cleared = maxLevel g
  /\ stability cleared = 50%Q /\ score cleared = 0%Q
  /\ analytics cleared = Persistence.emptyAnalytics
  /\ Persistence.save false g storage = storage
  /\ (forall g', status g' = idle -> Persistence.save true g' storage = storage).
Proof.
  intros Hs Hl Hm. cbn zeta.
  assert (Es : Persistence.save true g storage
               = <[Persistence.PERMANENT_KEY := Persistence.Json (Persistence.snapshot g)]>
                   storage).
  { unfold Persistence.save. rewrite bool_decide_eq_false_2 by exact Hs. reflexivity. }
  rewrite Es.
  rewrite (PersistenceFacts.load_stored (Persistence.snapshot g) _ prev)
    by apply lookup_insert_eq.
  unfold Persistence.resetWrite.
  rewrite (PersistenceFacts.load_stored (Persistence.resetState g) _ prev)
    by apply lookup_insert_eq.
  cbn [fst snd Persistence.restore Persistence.snapshot Persistence.resetState
       Persistence.savedLevel Persistence.savedMaxLevel Persistence.savedStability
       Persistence.savedScore Persistence.savedAnalytics default
       currentLevel maxLevel stability score analytics status multiplier streak
       isPracticeMode sessionCorrect sessionTotal].
  rewrite !PersistenceFacts.orZ_some by assumption.
  repeat apply conj; try reflexivity.
  - apply PersistenceFacts.orQ_some.
  - intros g' Hi. unfold Persistence.save. rewrite bool_decide_eq_true_2 by exact Hi.
    reflexivity.
Qed.

Lemma save_load_round_trip_witness :
  let g := game (roundInPlay false 3 65 330 1 80) in
  currentLevel (snd (Persistence.load (Persistence.save true g ∅) initialGame)) = 3.
Proof.
  cbn zeta.
  exact (proj1 (proj2 (save_load_round_trip (game (roundInPlay false 3 65 330 1 80))
                         initialGame ∅ ltac:(discriminate) ltac:(discriminate)
                         ltac:(discriminate)))).
Defined.

(** X22. Migration of an older save.  When the permanent key holds no text,
    the keys of the older versions are tried in their order and the first
    one that holds a text decides: if it parses, its fields, with analytics
    defaulted and the session counters zeroed, are written under the
    permanent key, the older keys are left as they are, the game state is
    restored from them, and loading again changes nothing more; if it does
    not parse, neither the storage nor the game state changes, whatever the
    later keys hold.  When no key holds a text nothing changes.  When the
    permanent key holds a text the older keys play no part. *)
Theorem legacy_migration (storage : Persistence.Storage) (prev : GameState)
    (before after : list string) (key : string) :
  Persistence.hasText (storage !! Persistence.PERMANENT_KEY) = false ->
  Persistence.LEGACY_KEYS = before ++ key :: after ->
  Forall (fun k => Persistence.hasText (storage !! k) = false) before ->
  (forall parsed, storage !! key = Some (Persistence.Json parsed) ->
     let migrated := Persistence.migratedState parsed in
     let storage' := <[Persistence.PERMANENT_KEY := Persistence.Json migrated]> storage in
     Persistence.load storage prev = (storage', Persistence.restore migrated prev)
     /\ (forall k, In k Persistence.LEGACY_KEYS -> storage' !! k = storage !! k)
     /\ Persistence.load storage' prev = (storage', Persistence.restore migrated prev)
     /\ currentLevel (Persistence.restore migrated prev)
        = Persistence.orZ (Persistence.savedLevel parsed) 1
     /\ sessionCorrect (Persistence.restore migrated prev) = sessionCorrect prev)
  /\ (storage !! key = Some Persistence.Corrupt ->
      Persistence.load storage prev = (storage, prev))
  /\ (Forall (fun k => Persistence.hasText (storage !! k) = false)
        Persistence.LEGACY_KEYS ->
      Persistence.load storage prev = (storage, prev))
  /\ (forall other data,
        other !! Persistence.PERMANENT_KEY = Some (Persistence.Json data) ->
        Persistence.load other prev = (other, Persistence.restore data prev)).
Proof.
  intros Hperm Hkeys Hbefore.
  split; [| split; [| split]].
  - intros parsed Hk. cbn zeta.
    assert (Ht : Persistence.hasText (storage !! key) = true) by now rewrite Hk.
    split; [| split; [| split; [| split; reflexivity]]].
    + unfold Persistence.load. rewrite Hperm, Hkeys.
      rewrite (PersistenceFacts.migrate_first before key after storage Hbefore Ht), Hk.
      reflexivity.
    + intros k Hin. apply lookup_insert_ne. intros <-.
      destruct Hin as [Hin | [Hin | [Hin | []]]]; discriminate Hin.
    + apply PersistenceFacts.load_stored, lookup_insert_eq.
  - intros Hk.
    assert (Ht : Persistence.hasText (storage !! key) = true) by now rewrite Hk.
    unfold Persistence.load. rewrite Hperm, Hkeys.
    rewrite (PersistenceFacts.migrate_first before key after storage Hbefore Ht), Hk.
    reflexivity.
  - intros Hnone. unfold Persistence.load. rewrite Hperm.
    rewrite (PersistenceFacts.migrate_none _ storage Hnone).
    destruct (storage !! Persistence.PERMANENT_KEY) as [[| | data] |];
      try discriminate; reflexivity.
  - intros other data. apply PersistenceFacts.load_stored.
Qed.

Lemma legacy_migration_witness :
  let old := Persistence.mkSaved (Some 4) (Some 6) (Some 35%Q) (Some 900%Q) None None None in
  let storage : Persistence.Storage :=
    <["vector_frame_persistent_v4"%string := Persistence.Json old]> ∅ in
  currentLevel (snd (Persistence.load storage initialGame)) = 4.
Proof.
  cbn zeta.
  pose proof (proj1 (legacy_migration
    (<["vector_frame_persistent_v4"%string :=
         Persistence.Json (Persistence.mkSaved (Some 4) (Some 6) (Some 35%Q)
                             (Some 900%Q) None None None)]> ∅)
    initialGame
    ["rft_trainer_universal_save_v2"; "rft_trainer_universal_save"]%string []
    "vector_frame_persistent_v4"%string
    eq_refl eq_refl
    ltac:(repeat constructor))
    _ (lookup_insert_eq _ _ _)) as H.
  cbn zeta in H. destruct H as [H _]. rewrite H. reflexivity.
Defined.

(** ** The countdown *)

Section Countdown.

Variable random : nat -> Q.

Local Arguments generateLevel : simpl never.
Local Arguments recordChain : simpl never.

Lemma tick_counts_down m :
  status (game m) = playing -> isPracticeMode (game m) = false ->
  (0 < timer m)%Q ->
  step random m EvTick
  = setTimer (roundDouble (timer m - decay (currentLevel (game m)))) m.
Proof.
  intros Hs Hp Ht. unfold step. cbn [dispatch]. unfold intervalRunning.
  rewrite bool_decide_eq_true_2 by exact Hs. rewrite Hp. cbn [negb andb].
  unfold timerTick.
  destruct (Qle_bool (timer m) 0) eqn:Hq; [apply Qle_bool_iff in Hq; lra |].
  unfold statusEffect. cbn [game setTimer].
  destruct (decide _); [reflexivity | contradiction].
Qed.

(** The decrement is the rounded [0.25 + 0.04 * level]. *)
Lemma decay_close level :
  0 <= level <= 1000 ->
  ((1 # 4) + inject_Z level * (1 # 25) - roundingSlack * 2 <= decay level
   <= (1 # 4) + inject_Z level * (1 # 25) + roundingSlack * 2)%Q.
Proof.
  intros Hl. unfold decay, roundingSlack.
  pose proof rounding_small as [Hs Hu]. pose proof tinyDouble_small as [Ht0 Ht1].
  pose proof unitRoundoff_pos as Hu0.
  assert (HL : (0 <= inject_Z level <= 1000)%Q).
  { split; [change 0%Q with (inject_Z 0) | change 1000%Q with (inject_Z 1000)];
      rewrite <- Zle_Qle; lia. }
  set (L := inject_Z level) in *. clearbody L.
  pose proof (roundDouble_near (4 # 100) (4 # 100) ltac:(lra)) as H04.
  set (c := roundDouble (4 # 100)) in *. clearbody c.
  assert (Hprod : (- (128) <= L * c <= 128)%Q) by (unfold unitRoundoff in *; nra).
  pose proof (roundDouble_near (L * c) 128 Hprod) as Hp.
  set (pr := roundDouble (L * c)) in *. clearbody pr.
  assert (Hsum : (- (128) <= (25 # 100) + pr <= 128)%Q) by (unfold unitRoundoff in *; nra).
  pose proof (roundDouble_near ((25 # 100) + pr) 128 Hsum) as Hd.
  set (d := roundDouble ((25 # 100) + pr)) in *. clearbody d.
  unfold unitRoundoff in *. set (t := tinyDouble) in *. clearbody t.
  split; nra.
Qed.

Lemma run_counts_down n : forall m,
  status (game m) = playing -> isPracticeMode (game m) = false ->
  0 <= currentLevel (game m) <= 1000 -> (timer m <= 128)%Q ->
  (inject_Z (Z.of_nat n) * (decay (currentLevel (game m)) + roundingSlack)
   < timer m + decay (currentLevel (game m)) + roundingSlack)%Q ->
  let m' := run random m (repeat EvTick n) in
  (timer m - inject_Z (Z.of_nat n) * decay (currentLevel (game m))
   - inject_Z (Z.of_nat n) * roundingSlack
   <= timer m'
   <= timer m - inject_Z (Z.of_nat n) * decay (currentLevel (game m))
      + inject_Z (Z.of_nat n) * roundingSlack)%Q
  /\ game m' = game m /\ pending m' = pending m /\ board m' = board m
  /\ failureHandled m' = failureHandled m.
Proof.
  induction n as [| n IH]; intros m Hs Hp Hl Hmax Ht; cbn zeta.
  - cbn [repeat]. unfold run. cbn [fold_left].
    change (inject_Z (Z.of_nat 0)) with 0%Q. split; [lra | repeat split].
  - cbn [repeat]. unfold run. cbn [fold_left]. fold (run random).
    rewrite Nat2Z.inj_succ, <- Z.add_1_r, inject_Z_plus in Ht |- *.
    change (inject_Z 1) with 1%Q in Ht |- *.
    assert (Hn : (0 <= inject_Z (Z.of_nat n))%Q)
      by (change 0%Q with (inject_Z 0); rewrite <- Zle_Qle; lia).
    pose proof (decay_close _ Hl) as Hd.
    pose proof rounding_small as [Hsm _].
    assert (HL : (0 <= inject_Z (currentLevel (game m)) <= 1000)%Q).
    { split; [change 0%Q with (inject_Z 0) | change 1000%Q with (inject_Z 1000)];
        rewrite <- Zle_Qle; lia. }
    unfold roundingSlack in *.
    set (L := inject_Z (currentLevel (game m))) in *.
    set (a := inject_Z (Z.of_nat n)) in *.
    assert (Hpos : (0 < timer m)%Q).
    { set (d := decay (currentLevel (game m))) in *. clearbody d a L. nra. }
    rewrite (tick_counts_down m Hs Hp Hpos).
    pose proof (roundDouble_near (timer m - decay (currentLevel (game m))) 128
                  ltac:(clearbody a L; lra)) as Hr.
    set (m1 := setTimer (roundDouble (timer m - decay (currentLevel (game m)))) m).
    destruct (IH m1 Hs Hp Hl) as (H1 & H2 & H3 & H4 & H5).
    { cbn [timer game m1 setTimer]. clearbody a L. lra. }
    { cbn [timer game m1 setTimer]. fold a.
      set (d := decay (currentLevel (game m))) in *. clearbody d a L. nra. }
    cbn zeta in H1. unfold run in *. rewrite H2, H3, H4, H5.
    cbn [timer game m1 setTimer] in H1 |- *. fold a in H1.
    split; [| repeat split].
    set (d := decay (currentLevel (game m))) in *.
    set (r := roundDouble (timer m - d)) in *.
    set (t' := timer (fold_left (step random) (repeat EvTick n) m1)) in *.
    clearbody d r t' a L. lra.
Qed.

End Countdown.

(** X23. The countdown is linear up to rounding.  During a round outside
    practice mode, at a level from 0 to 1000 and with the timer at most 128,
    as long as [n - 1] decrements, each taken 2^-45 larger, stay below the
    timer (so that each of the [n] ticks finds the timer above zero), [n]
    interval ticks lower the timer by [n] times the decrement, with an error
    of at most [n] times 2^-45, and change nothing else: not the game state, the
    pending callbacks, the board or the guard.  The decrement is
    [0.25 + 0.04 * level] up to 2^-44 and grows with the level, so higher
    levels leave less time. *)
Theorem countdown_linear (random : nat -> Q) (m : Machine) (n : nat) :
  status (game m) = playing -> isPracticeMode (game m) = false ->
  0 <= currentLevel (game m) <= 1000 -> (timer m <= 128)%Q ->
  (inject_Z (Z.of_nat n) * (decay (currentLevel (game m)) + roundingSlack)
   < timer m + decay (currentLevel (game m)) + roundingSlack)%Q ->
  let m' := run random m (repeat EvTick n) in
  (timer m - inject_Z (Z.of_nat n) * decay (currentLevel (game m))
   - inject_Z (Z.of_nat n) * roundingSlack
   <= timer m'
   <= timer m - inject_Z (Z.of_nat n) * decay (currentLevel (game m))
      + inject_Z (Z.of_nat n) * roundingSlack)%Q
  /\ game m' = game m /\ pending m' = pending m /\ board m' = board m
  /\ failureHandled m' = failureHandled m
  /\ (forall l, 0 <= l <= 1000 ->
        ((1 # 4) + inject_Z l * (1 # 25) - roundingSlack * 2 <= decay l
         <= (1 # 4) + inject_Z l * (1 # 25) + roundingSlack * 2)%Q)
  /\ (forall l l', 0 <= l -> l < l' -> l' <= 1000 -> (decay l < decay l')%Q).
Proof.
  intros Hs Hp Hl Hmax Ht. cbn zeta.
  destruct (run_counts_down random n m Hs Hp Hl Hmax Ht) as (H1 & H2 & H3 & H4 & H5).
  cbn zeta in H1.
  split; [exact H1 |]. split; [exact H2 |]. split; [exact H3 |].
  split; [exact H4 |]. split; [exact H5 |]. split; [apply decay_close |].
  intros l l' H0 Hlt Hmax'.
  pose proof (decay_close l ltac:(lia)) as [_ Hu].
  pose proof (decay_close l' ltac:(lia)) as [Hlo _].
  assert (Hq : (inject_Z l + 1 <= inject_Z l')%Q).
  { change 1%Q with (inject_Z 1). rewrite <- inject_Z_plus, <- Zle_Qle. lia. }
  unfold roundingSlack in *. lra.
Qed.

Lemma countdown_linear_witness :
  let m := roundInPlay false 5 50 0 1 100 in
  (100 - 20 * decay 5 - 20 * roundingSlack
   <= timer (run (fun _ => 0%Q) m (repeat EvTick 20))
   <= 100 - 20 * decay 5 + 20 * roundingSlack)%Q.
Proof.
  cbn zeta.
  exact (proj1 (countdown_linear (fun _ => 0%Q) (roundInPlay false 5 50 0 1 100)
                  20 eq_refl eq_refl ltac:(cbn; lia) ltac:(vm_compute; discriminate)
                  ltac:(vm_compute; reflexivity))).
Defined.

(** The rounding shows: at level 5 the timer is just below 95.5 after 10
    ticks and just below 91 after 20, so its floor is 90. *)
Example countdown_rounding :
  let m := roundInPlay false 5 50 0 1 100 in
  (timer (run (fun _ => 0%Q) m (repeat EvTick 10)) == 3360107534483455 # 35184372088832)%Q
  /\ Math_floor (timer (run (fun _ => 0%Q) m (repeat EvTick 20))) = 90.
Proof. vm_compute. split; reflexivity. Qed.
